(** * The map renderer's viewport projection, hit testing and label layout

    A shallow embedding of [GeoJSONMapRenderer] (src/simplified-world-map.js)
    and of [UkraineFrontlineData.pointInPolygon]
    (src/ukraine-frontline-data.js).

    JavaScript numbers are modelled in three ways.  The definitions of the
    renderer take them as exact real numbers: [+], [-], [*], [/] and
    [Math.sqrt] are the field operations and the square root of [R],
    [Math.max] and [Math.min] are [Rmax] and [Rmin], and the comparison
    operators decide the order of [R]; this model has no rounding, no
    infinities and no NaN.

    Module [Rounded] repeats the projection and the viewport controller
    with every arithmetic operation followed by a rounding of relative error
    at most [2^-53], the error of binary64 away from overflow and underflow;
    the properties that hold up to rounding only are stated there.

    Module [IEEE] repeats the projection and the ray-casting loop on
    binary64 numbers, the numbers JavaScript computes with, so that they can
    be evaluated on concrete inputs where rounding decides the result. *)

From Stdlib Require Import Floats.
From Stdlib Require Import Reals Lra Lia List Bool String PeanoNat.
Import ListNotations.
Local Open Scope R_scope.

(** ** JavaScript comparison operators on numbers *)

Definition Rltb (a b : R) : bool := if Rlt_dec a b then true else false.
Definition Rgtb (a b : R) : bool := Rltb b a.
Definition Reqb (a b : R) : bool := if Req_dec_T a b then true else false.

Infix "<?" := Rltb (at level 70, no associativity) : R_scope.
Infix ">?" := Rgtb (at level 70, no associativity) : R_scope.
Infix "=?" := Reqb (at level 70, no associativity) : R_scope.

(** ** Renderer state *)

Record Canvas := mkCanvas { width : R; height : R }.

(** The fields of a [GeoJSONMapRenderer] that the viewport code reads and
    writes (constructor, lines 227-236). *)
Record Renderer := mkRenderer {
  canvas : Canvas;
  zoom : R;
  minZoom : R;
  maxZoom : R;
  panX : R;
  panY : R;
  isDragging : bool;
  dragStartX : R;
  dragStartY : R;
  lastPanX : R;
  lastPanY : R
}.

(** The state the constructor leaves behind, for a canvas of the given size. *)
Definition newRenderer (c : Canvas) : Renderer :=
  {| canvas := c; zoom := 1.0; minZoom := 1.0; maxZoom := 25.0;
     panX := 0; panY := 0; isDragging := false;
     dragStartX := 0; dragStartY := 0; lastPanX := 0; lastPanY := 0 |}.

Definition set_zoom (this : Renderer) (z : R) : Renderer :=
  {| canvas := canvas this; zoom := z; minZoom := minZoom this;
     maxZoom := maxZoom this; panX := panX this; panY := panY this;
     isDragging := isDragging this; dragStartX := dragStartX this;
     dragStartY := dragStartY this; lastPanX := lastPanX this;
     lastPanY := lastPanY this |}.

Definition set_pan (this : Renderer) (px py : R) : Renderer :=
  {| canvas := canvas this; zoom := zoom this; minZoom := minZoom this;
     maxZoom := maxZoom this; panX := px; panY := py;
     isDragging := isDragging this; dragStartX := dragStartX this;
     dragStartY := dragStartY this; lastPanX := lastPanX this;
     lastPanY := lastPanY this |}.

Definition set_isDragging (this : Renderer) (d : bool) : Renderer :=
  {| canvas := canvas this; zoom := zoom this; minZoom := minZoom this;
     maxZoom := maxZoom this; panX := panX this; panY := panY this;
     isDragging := d; dragStartX := dragStartX this;
     dragStartY := dragStartY this; lastPanX := lastPanX this;
     lastPanY := lastPanY this |}.

(** ** Projection *)

Record ScreenPoint := mkScreen { x : R; y : R }.
Record LatLon := mkLatLon { lat : R; lon : R }.

(** [toCanvas(lat, lon)], lines 299-312. *)
Definition toCanvas (this : Renderer) (lat lon : R) : ScreenPoint :=
  let baseX := width (canvas this) * ((lon + 180) / 360) in
  let baseY := height (canvas this) * ((90 - lat) / 180) in
  let centerX := width (canvas this) / 2 in
  let centerY := height (canvas this) / 2 in
  let x := centerX + (baseX - centerX) * zoom this + panX this in
  let y := centerY + (baseY - centerY) * zoom this + panY this in
  {| x := x; y := y |}.

(** [toLatLon(canvasX, canvasY)], lines 317-330. *)
Definition toLatLon (this : Renderer) (canvasX canvasY : R) : LatLon :=
  let centerX := width (canvas this) / 2 in
  let centerY := height (canvas this) / 2 in
  let baseX := ((canvasX - panX this) - centerX) / zoom this + centerX in
  let baseY := ((canvasY - panY this) - centerY) / zoom this + centerY in
  let lon := (baseX / width (canvas this)) * 360 - 180 in
  let lat := 90 - (baseY / height (canvas this)) * 180 in
  {| lat := lat; lon := lon |}.

(** ** Viewport controller *)

(** [constrainPan()], lines 511-523. *)
Definition constrainPan (this : Renderer) : Renderer :=
  let scaledWidth := width (canvas this) * zoom this in
  let scaledHeight := height (canvas this) * zoom this in
  let maxPanX := (scaledWidth - width (canvas this)) / 2 in
  let maxPanY := (scaledHeight - height (canvas this)) / 2 in
  set_pan this (Rmax (- maxPanX) (Rmin maxPanX (panX this)))
               (Rmax (- maxPanY) (Rmin maxPanY (panY this))).

(** The [newZoom] of [handleWheel], lines 463-464. *)
Definition wheelZoom (this : Renderer) (deltaY : R) : R :=
  let zoomFactor := if deltaY >? 0 then 0.9 else 1.1 in
  Rmax (minZoom this) (Rmin (maxZoom this) (zoom this * zoomFactor)).

(** The body of [handleWheel]'s conditional up to, and not including, the call
    of [constrainPan] (lines 468-475): the zoom is replaced and the pan is
    moved by the offset between the cursor and the new projection of the
    point that was under it. *)
Definition zoomTowards (this : Renderer) (newZoom mouseX mouseY : R) : Renderer :=
  let ll := toLatLon this mouseX mouseY in
  let this' := set_zoom this newZoom in
  let newPos := toCanvas this' (lat ll) (lon ll) in
  set_pan this' (panX this' + (mouseX - x newPos))
                (panY this' + (mouseY - y newPos)).

(** [handleWheel(e, mouseX, mouseY)], lines 460-482; [e] is represented by
    its [deltaY].  The second component is the returned redraw flag. *)
Definition handleWheel (this : Renderer) (deltaY mouseX mouseY : R)
  : Renderer * bool :=
  let newZoom := wheelZoom this deltaY in
  if negb (newZoom =? zoom this)
  then (constrainPan (zoomTowards this newZoom mouseX mouseY), true)
  else (this, true).

(** [handleMouseDown(e, mouseX, mouseY)], lines 487-493. *)
Definition handleMouseDown (this : Renderer) (mouseX mouseY : R) : Renderer :=
  {| canvas := canvas this; zoom := zoom this; minZoom := minZoom this;
     maxZoom := maxZoom this; panX := panX this; panY := panY this;
     isDragging := true; dragStartX := mouseX; dragStartY := mouseY;
     lastPanX := panX this; lastPanY := panY this |}.

(** [handleMouseMove(mouseX, mouseY)], lines 498-506. *)
Definition handleMouseMove (this : Renderer) (mouseX mouseY : R)
  : Renderer * bool :=
  if isDragging this
  then (constrainPan
          (set_pan this (lastPanX this + (mouseX - dragStartX this))
                        (lastPanY this + (mouseY - dragStartY this))),
        true)
  else (this, false).

(** [handleMouseUp()], lines 528-530. *)
Definition handleMouseUp (this : Renderer) : Renderer :=
  set_isDragging this false.

(** [resetView()], lines 535-539. *)
Definition resetView (this : Renderer) : Renderer :=
  set_pan (set_zoom this 1.0) 0 0.

(** Input events, and the renderer after a sequence of them. *)
Inductive Event :=
| Wheel (deltaY mouseX mouseY : R)
| MouseDown (mouseX mouseY : R)
| MouseMove (mouseX mouseY : R)
| MouseUp
| ResetView.

Definition handle (this : Renderer) (e : Event) : Renderer :=
  match e with
  | Wheel deltaY mouseX mouseY => fst (handleWheel this deltaY mouseX mouseY)
  | MouseDown mouseX mouseY => handleMouseDown this mouseX mouseY
  | MouseMove mouseX mouseY => fst (handleMouseMove this mouseX mouseY)
  | MouseUp => handleMouseUp this
  | ResetView => resetView this
  end.

Definition handleAll (this : Renderer) (es : list Event) : Renderer :=
  fold_left handle es this.

(** The pan bounds of §4.3, as a predicate on states. *)
Definition panClamped (this : Renderer) : Prop :=
  Rabs (panX this) <= (width (canvas this) * zoom this - width (canvas this)) / 2 /\
  Rabs (panY this) <= (height (canvas this) * zoom this - height (canvas this)) / 2.

Definition zoomInRange (this : Renderer) : Prop :=
  minZoom this <= zoom this <= maxZoom this.

(** What every state reachable from [newRenderer c] satisfies: the canvas and
    the zoom limits are those of the constructor, the zoom is within the
    limits and the pan within its bounds. *)
Definition reachableView (c : Canvas) (this : Renderer) : Prop :=
  canvas this = c /\ minZoom this = 1.0 /\ maxZoom this = 25.0 /\
  zoomInRange this /\ panClamped this.

(** ** Drawing a polygon *)

(** A coordinate pair as the data files store it: a two-element array.
    GeoJSON rings hold [[lon, lat]]; shipping lanes hold [[lat, lon]]. *)
Definition Position := (R * R)%type.
Definition Ring := list Position.

(** The calls made on the 2D context while a path is built. *)
Inductive DrawCmd :=
| BeginPath
| MoveTo (x y : R)
| LineTo (x y : R)
| ClosePath
| Fill
| Stroke.

(** The [adjustedLon] of [drawPolygon]'s inner callback (lines 413-421);
    [prev] is [ring[i - 1]], absent when [i = 0]. *)
Definition adjustedLon (prev : option Position) (lon : R) : R :=
  match prev with
  | None => lon
  | Some (prevLon, _) =>
      let diff := lon - prevLon in
      if diff >? 180 then lon - 360
      else if diff <? -180 then lon + 360
      else lon
  end.

(** The longitudes handed to [toCanvas], one for each point of the ring. *)
Fixpoint adjustedLons (prev : option Position) (ring : Ring) : list R :=
  match ring with
  | [] => []
  | (lon, lat) :: rest =>
      adjustedLon prev lon :: adjustedLons (Some (lon, lat)) rest
  end.

(** The inner [ring.forEach] of [drawPolygon], lines 409-430. *)
Fixpoint ringPath (this : Renderer) (prev : option Position) (ring : Ring)
  : list DrawCmd :=
  match ring with
  | [] => []
  | (lon, lat) :: rest =>
      let p := toCanvas this lat (adjustedLon prev lon) in
      (match prev with
       | None => MoveTo (x p) (y p)
       | Some _ => LineTo (x p) (y p)
       end) :: ringPath this (Some (lon, lat)) rest
  end.

(** One iteration of the outer [coordinates.forEach], lines 404-435. *)
Definition drawRing (this : Renderer) (ring : Ring) : list DrawCmd :=
  if (List.length ring <? 3)%nat then []
  else [BeginPath] ++ ringPath this None ring ++ [ClosePath; Fill; Stroke].

(** [drawPolygon(coordinates)], lines 403-436: the context calls it makes.
    The coordinates are only read. *)
Definition drawPolygon (this : Renderer) (coordinates : list Ring)
  : list DrawCmd :=
  flat_map (drawRing this) coordinates.

(** The screen abscissas of the points of a drawn path. *)
Fixpoint pathXs (cmds : list DrawCmd) : list R :=
  match cmds with
  | [] => []
  | MoveTo x _ :: rest => x :: pathXs rest
  | LineTo x _ :: rest => x :: pathXs rest
  | _ :: rest => pathXs rest
  end.

(** Following the words of the spec (§4.1, antimeridian handling): a running
    offset that every crossing changes by ∓360° and that stays in force for
    the rest of the ring. *)
Fixpoint cumulativeLons (offset : R) (prev : option Position) (ring : Ring)
  : list R :=
  match ring with
  | [] => []
  | (lon, lat) :: rest =>
      let offset' :=
        match prev with
        | None => offset
        | Some (prevLon, _) =>
            let diff := lon - prevLon in
            if diff >? 180 then offset - 360
            else if diff <? -180 then offset + 360
            else offset
        end in
      (lon + offset') :: cumulativeLons offset' (Some (lon, lat)) rest
  end.

(** ** Hit testing *)

(** The [intersect] of the ray-casting loops: [pi] is [ring[i]], [pj] is
    [ring[j]], both read as [[x, y]]. *)
Definition straddles (lat yi yj : R) : bool :=
  negb (Bool.eqb (yi >? lat) (yj >? lat)).

Definition intersect (lat lon : R) (pi pj : Position) : bool :=
  let '(xi, yi) := pi in
  let '(xj, yj) := pj in
  straddles lat yi yj && (lon <? (xj - xi) * (lat - yi) / (yj - yi) + xi).

(** The [for (let i = 0, j = ring.length - 1; i < ring.length; j = i++)] loop:
    [pj] is the point at index [j], [rest] the points from index [i] on. *)
Fixpoint rayLoop (lat lon : R) (pj : Position) (rest : list Position)
  (inside : bool) : bool :=
  match rest with
  | [] => inside
  | pi :: rest' =>
      rayLoop lat lon pi rest'
        (if intersect lat lon pi pj then negb inside else inside)
  end.

Definition rayCast (lat lon : R) (ring : Ring) : bool :=
  rayLoop lat lon (last ring (0, 0)) ring false.

(** [isPointInPolygon(lat, lon, coordinates)], lines 563-578.  With no ring at
    all, [coordinates[0]] is [undefined] and reading its [length] throws:
    that is [None]. *)
Definition isPointInPolygon (lat lon : R) (coordinates : list Ring)
  : option bool :=
  match coordinates with
  | [] => None
  | ring :: _ => Some (rayCast lat lon ring)
  end.

Inductive Geometry :=
| Polygon (coordinates : list Ring)
| MultiPolygon (coordinates : list (list Ring))
| OtherGeometry.

Record Feature := mkFeature { name : string; geometry : Geometry }.

(** The [for (const polygon of geometry.coordinates)] loop of
    [isPointInCountry]. *)
Fixpoint anyPolygon (lat lon : R) (polygons : list (list Ring)) : option bool :=
  match polygons with
  | [] => Some false
  | polygon :: rest =>
      match isPointInPolygon lat lon polygon with
      | None => None
      | Some true => Some true
      | Some false => anyPolygon lat lon rest
      end
  end.

(** [isPointInCountry(lat, lon, country)], lines 544-558. *)
Definition isPointInCountry (lat lon : R) (country : Feature) : option bool :=
  match geometry country with
  | Polygon coordinates => isPointInPolygon lat lon coordinates
  | MultiPolygon coordinates => anyPolygon lat lon coordinates
  | OtherGeometry => Some false
  end.

(** The edges the loop visits, as pairs [(ring[i], ring[j])]. *)
Fixpoint edgesFrom (pj : Position) (rest : list Position)
  : list (Position * Position) :=
  match rest with
  | [] => []
  | pi :: rest' => (pi, pj) :: edgesFrom pi rest'
  end.

Definition edges (ring : Ring) : list (Position * Position) :=
  edgesFrom (last ring (0, 0)) ring.

Definition crossings (lat lon : R) (ring : Ring) : nat :=
  List.length (filter (fun e => intersect lat lon (fst e) (snd e)) (edges ring)).

Module UkraineFrontlineData.

(** [pointInPolygon(point, polygon)], src/ukraine-frontline-data.js lines
    165-180; its loop is the loop of [isPointInPolygon] with [y] for [lat]
    and [x] for [lon]. *)
Definition pointInPolygon (point : Position) (polygon : Ring) : bool :=
  let '(x, y) := point in
  rayLoop y x (last polygon (0, 0)) polygon false.

(** [this.occupiedTerritory] once a fetch has succeeded: of the GeoJSON only
    [features] is read, [None] when the key is missing, and of a feature only
    its [geometry], [None] when it has none. *)
Record FeatureCollection := mkFeatureCollection {
  features : option (list (option Geometry))
}.

(** The rings that the callback of [features.forEach], lines 100-113, pushes
    for one feature. *)
Definition ringsOf (geometry : option Geometry) : list Ring :=
  match geometry with
  | Some (MultiPolygon coordinates) => List.concat coordinates
  | Some (Polygon coordinates) => coordinates
  | _ => []
  end.

(** [getOccupiedTerritoryPolygons()], lines 93-116; [occupiedTerritory] is
    [None] while it is [null]. *)
Definition getOccupiedTerritoryPolygons
  (occupiedTerritory : option FeatureCollection) : list Ring :=
  match occupiedTerritory with
  | Some {| features := Some features |} => flat_map ringsOf features
  | _ => []
  end.

(** The rings that the callback of [features.forEach], lines 129-142, pushes
    for one feature. *)
Definition frontlinesOf (geometry : option Geometry) : list Ring :=
  match geometry with
  | Some (MultiPolygon coordinates) =>
      flat_map (fun polygon =>
                  match polygon with
                  | ring :: _ => if (0 <? List.length ring)%nat then [ring] else []
                  | [] => []
                  end) coordinates
  | Some (Polygon coordinates) =>
      match coordinates with
      | ring :: _ => [ring]
      | [] => []
      end
  | _ => []
  end.

(** [getFrontlineCoordinates()], lines 122-145. *)
Definition getFrontlineCoordinates
  (occupiedTerritory : option FeatureCollection) : list Ring :=
  match occupiedTerritory with
  | Some {| features := Some features |} => flat_map frontlinesOf features
  | _ => []
  end.

(** [isPointOccupied(lat, lon)], lines 150-160. *)
Definition isPointOccupied (occupiedTerritory : option FeatureCollection)
  (lat lon : R) : bool :=
  let polygons := getOccupiedTerritoryPolygons occupiedTerritory in
  existsb (pointInPolygon (lon, lat)) polygons.

End UkraineFrontlineData.

Module IEEE.

(** The hit tests and the projection on binary64 numbers: [-], [*], [/],
    [+], [>] and [<] are the IEEE-754 operations, rounding to nearest, ties
    to even. *)
Definition Position := (float * float)%type.

Definition intersect (lat lon : float) (pi pj : Position) : bool :=
  let '(xi, yi) := pi in
  let '(xj, yj) := pj in
  negb (Bool.eqb (lat <? yi)%float (lat <? yj)%float)
  && (lon <? (xj - xi) * (lat - yi) / (yj - yi) + xi)%float.

Fixpoint rayLoop (lat lon : float) (pj : Position) (rest : list Position)
  (inside : bool) : bool :=
  match rest with
  | [] => inside
  | pi :: rest' =>
      rayLoop lat lon pi rest'
        (if intersect lat lon pi pj then negb inside else inside)
  end.

(** [isPointInPolygon(lat, lon, coordinates)] of the renderer. *)
Definition isPointInPolygon (lat lon : float)
  (coordinates : list (list Position)) : option bool :=
  match coordinates with
  | [] => None
  | ring :: _ => Some (rayLoop lat lon (last ring (0, 0)%float) ring false)
  end.

(** [pointInPolygon(point, polygon)] of the frontline data. *)
Definition pointInPolygon (point : Position) (polygon : list Position) : bool :=
  let '(x, y) := point in
  rayLoop y x (last polygon (0, 0)%float) polygon false.

(** The square ring of §8, property 4. *)
Definition square : list Position :=
  [(0, 0); (0, 10); (10, 10); (10, 0)]%float.

(** [toCanvas(lat, lon)], lines 299-312, for a canvas of [width] by
    [height] and the view [zoom], [panX], [panY]. *)
Definition toCanvas (width height zoom panX panY lat lon : float)
  : float * float :=
  (let baseX := width * ((lon + 180) / 360) in
   let baseY := height * ((90 - lat) / 180) in
   let centerX := width / 2 in
   let centerY := height / 2 in
   let x := centerX + (baseX - centerX) * zoom + panX in
   let y := centerY + (baseY - centerY) * zoom + panY in
   (x, y))%float.

(** [toLatLon(canvasX, canvasY)], lines 317-330. *)
Definition toLatLon (width height zoom panX panY canvasX canvasY : float)
  : float * float :=
  (let centerX := width / 2 in
   let centerY := height / 2 in
   let baseX := ((canvasX - panX) - centerX) / zoom + centerX in
   let baseY := ((canvasY - panY) - centerY) / zoom + centerY in
   let lon := (baseX / width) * 360 - 180 in
   let lat := 90 - (baseY / height) * 180 in
   (lat, lon))%float.

End IEEE.

(** ** Shipping lanes *)

(** [distanceToLineSegment(px, py, x1, y1, x2, y2)], lines 822-840. *)
Definition distanceToLineSegment (px py x1 y1 x2 y2 : R) : R :=
  let dx := x2 - x1 in
  let dy := y2 - y1 in
  let lengthSquared := dx * dx + dy * dy in
  if lengthSquared =? 0
  then sqrt ((px - x1) * (px - x1) + (py - y1) * (py - y1))
  else
    let t := ((px - x1) * dx + (py - y1) * dy) / lengthSquared in
    let t := Rmax 0 (Rmin 1 t) in
    let nearestX := x1 + t * dx in
    let nearestY := y1 + t * dy in
    sqrt ((px - nearestX) * (px - nearestX) + (py - nearestY) * (py - nearestY)).

(** A lane of [getShippingLaneData()]: its [id] and its [coords]
    ([[lat, lon]] pairs); the descriptive fields play no part in the query. *)
Record Lane := mkLane { id : string; coords : list Position }.

(** [getShippingLaneData()], lines 583-741. *)
Definition getShippingLaneData : list Lane :=
  [
    {| id := "suez-canal";
       coords :=
        [(35, -6); (36, 0); (37, 10); (33, 28); (31.5, 32.3); (30, 32.5);
         (29.5, 32.5); (27.5, 34); (22, 38); (15, 42);
         (12.5, 43.5); (12, 45); (11.5, 51); (10, 55); (5, 60);
         (-2, 65)] |};
    {| id := "malacca-strait";
       coords :=
        [(1.3, 103.8); (3, 105); (5, 104); (7, 106); (10, 109); (15, 113);
         (18, 115); (22, 114); (25, 120); (30, 123); (35, 130)] |};
    {| id := "transatlantic-north";
       coords :=
        [(40.5, -74); (41, -70); (42, -65); (43, -55); (47, -40);
         (50, -25); (50, -10); (50.5, -5); (51, 1)] |};
    {| id := "transatlantic-south";
       coords :=
        [(29, -89); (25, -84); (23, -80); (22, -75); (20, -68); (18, -65);
         (20, -55); (25, -40); (30, -25); (34, -10); (35.5, -6)] |};
    {| id := "cape-good-hope";
       coords :=
        [(-35, 18); (-35, 22); (-33, 28); (-30, 33); (-25, 37); (-15, 42);
         (-10, 48); (-5, 55); (0, 60); (5, 65)] |};
    {| id := "panama-pacific";
       coords :=
        [(9, -79.5); (8, -82); (5, -85); (0, -90); (-5, -100); (-15, -110)] |};
    {| id := "panama-uswest";
       coords :=
        [(9, -79.5); (12, -85); (16, -95); (22, -106); (28, -114);
         (33, -118); (37, -122); (42, -125); (48, -125)] |};
    {| id := "transpacific-west";
       coords :=
        [(35, 130); (35, 140); (33, 150); (30, 160); (28, 170)] |};
    {| id := "transpacific-east";
       coords :=
        [(26, -170); (26, -160); (28, -150); (32, -140); (35, -130);
         (37, -123)] |};
    {| id := "persian-gulf-malacca";
       coords :=
        [(26.5, 56.5); (24, 58); (21, 62); (18, 68); (15, 73); (10, 76);
         (8, 77); (6, 80); (5, 85); (3, 95); (2, 100);
         (1.3, 103.8)] |};
    {| id := "asia-australia";
       coords :=
        [(22, 114); (18, 116); (12, 117); (5, 117); (0, 117); (-3, 117);
         (-6, 116); (-8.5, 116); (-10, 120); (-12, 127);
         (-14, 135); (-18, 145); (-25, 153); (-34, 151)] |};
    {| id := "bosphorus-mediterranean";
       coords :=
        [(41, 29); (40.5, 26.5); (39.5, 25); (37.5, 24); (35.5, 23);
         (35, 20); (35.5, 15); (37, 11); (37.5, 5); (36.5, 0);
         (35.8, -5.5)] |}
  ]%string.

(** The inner loop of [getShippingLaneAtPoint], over [i] from [0] to
    [lane.coords.length - 2]: whether it reaches [return lane]. *)
Fixpoint segmentLoop (lat lon threshold : R) (coords : list Position) : bool :=
  match coords with
  | p1 :: (p2 :: _) as rest =>
      let dist :=
        distanceToLineSegment lat lon (fst p1) (snd p1) (fst p2) (snd p2) in
      if dist <? threshold then true
      else segmentLoop lat lon threshold rest
  | _ => false
  end.

(** The outer [for (const lane of lanes)] loop. *)
Fixpoint laneLoop (lat lon threshold : R) (lanes : list Lane) : option Lane :=
  match lanes with
  | [] => None
  | lane :: rest =>
      if segmentLoop lat lon threshold (coords lane) then Some lane
      else laneLoop lat lon threshold rest
  end.

(** [getShippingLaneAtPoint(mouseX, mouseY)], lines 797-817; [None] is
    [null]. *)
Definition getShippingLaneAtPoint (this : Renderer) (mouseX mouseY : R)
  : option Lane :=
  let ll := toLatLon this mouseX mouseY in
  let lanes := getShippingLaneData in
  let threshold := 3 / zoom this in
  laneLoop (lat ll) (lon ll) threshold lanes.

(** The segments of a polyline, as pairs of consecutive points. *)
Definition segments (coords : list Position) : list (Position * Position) :=
  combine coords (tl coords).

(** Whether a segment lies within [threshold] of the point [(lat, lon)]. *)
Definition nearSegment (lat lon threshold : R) (seg : Position * Position)
  : bool :=
  distanceToLineSegment lat lon (fst (fst seg)) (snd (fst seg))
                        (fst (snd seg)) (snd (snd seg)) <? threshold.

(** Following the words of the spec (§4.2, [findNearestPolyline]): the first
    polyline, in list order, with a segment within the threshold. *)
Definition findNearestPolyline (lat lon : R) (lines : list Lane) (threshold : R)
  : option Lane :=
  find (fun line => existsb (nearSegment lat lon threshold) (segments (coords line)))
       lines.

(** ** Label layout *)

Module Box.
(** A label box [{ x, y, width, height }]. *)
Record t := mk { x : R; y : R; width : R; height : R }.
End Box.

(** A candidate offset [{ dx, dy }]. *)
Record Offset := mkOffset { dx : R; dy : R }.

(** The [bestPos] object [{ labelX, labelY, box }]. *)
Record Placement := mkPlacement { labelX : R; labelY : R; box : Box.t }.

(** The callback of [labelBoxes.some], lines 1384-1389 and 1563-1568. *)
Definition collides (box existing : Box.t) : bool :=
  (Box.x box <? Box.x existing + Box.width existing) &&
  (Box.x box + Box.width box >? Box.x existing) &&
  (Box.y box <? Box.y existing + Box.height existing) &&
  (Box.y box + Box.height box >? Box.y existing).

Definition hasCollision (labelBoxes : list Box.t) (box : Box.t) : bool :=
  existsb (collides box) labelBoxes.

(** The candidate box of an offset, lines 1375-1382 and 1553-1560. *)
Definition candidate (x y textWidth textHeight : R) (pos : Offset) : Placement :=
  let labelX := x + dx pos in
  let labelY := y + dy pos in
  {| labelX := labelX; labelY := labelY;
     box := {| Box.x := labelX - 2; Box.y := labelY - textHeight;
               Box.width := textWidth + 4; Box.height := textHeight + 4 |} |}.

(** The [for (const pos of positions)] loop, lines 1373-1395 and 1551-1574:
    the value of [bestPos] when it ends. *)
Fixpoint tryPositions (x y textWidth textHeight : R) (labelBoxes : list Box.t)
  (positions : list Offset) : option Placement :=
  match positions with
  | [] => None
  | pos :: rest =>
      let c := candidate x y textWidth textHeight pos in
      if negb (hasCollision labelBoxes (box c)) then Some c
      else tryPositions x y textWidth textHeight labelBoxes rest
  end.

Module City.
Record t := mk { lat : R; lon : R; name : string; strategic : bool }.
End City.

Module Zone.
(** A battle zone as [getVisibleBattleZones] returns it; [importance] and
    [activityLevel] are [None] when the property is missing. *)
Record t := mk {
  name : string;
  center : Position;
  importance : option string;
  activityLevel : option string
}.

(** A zone after the marker pass, with [_screenX], [_screenY] and
    [_markerSize] set. *)
Record marked := mkMarked {
  zone : t;
  _screenX : R;
  _screenY : R;
  _markerSize : R
}.
End Zone.

(** The data provider: [majorCities] is its city table; [battleZones zoom] is
    the concatenation, over [getVisibleConflicts(zoom)], of
    [getVisibleBattleZones(zoom, conflict)]. *)
Record ConflictData := mkConflictData {
  majorCities : list City.t;
  battleZones : R -> list Zone.t
}.

(** [getVisibleCities(zoom)], src/conflict-zones-data.js lines 859-869. *)
Definition getVisibleCities (conflictData : ConflictData) (zoom : R)
  : list City.t :=
  if zoom <? 2.0 then []
  else if zoom <? 3.0 then filter City.strategic (majorCities conflictData)
  else majorCities conflictData.

(** The rendering backend's text measurement: the width of a text at a font
    size, in a bold or regular face. *)
Definition TextMeasure := R -> bool -> string -> R.

(** [v || d] for a string property that may be missing. *)
Definition orDefault (v : option string) (d : string) : string :=
  match v with
  | Some EmptyString => d
  | Some s => s
  | None => d
  end.

(** The on-screen test of both marker loops, lines 1346 and 1443. *)
Definition offScreen (this : Renderer) (x y : R) : bool :=
  (x <? -50) || (x >? width (canvas this) + 50) ||
  (y <? -50) || (y >? height (canvas this) + 50).

(** The callback of [cities.forEach], lines 1342-1403, as a function of the
    label boxes placed so far. *)
Definition drawCity (this : Renderer) (measureText : TextMeasure)
  (labelBoxes : list Box.t) (city : City.t) : list Box.t :=
  let p := toCanvas this (City.lat city) (City.lon city) in
  if offScreen this (x p) (y p) then labelBoxes
  else
    let showLabel :=
      (City.strategic city && (zoom this >? 3.0)) ||
      (negb (City.strategic city) && (zoom this >? 4.0)) in
    if showLabel then
      let fontSize := Rmax 6 (Rmin 10 (6 + zoom this * 0.3)) in
      let textWidth := measureText fontSize false (City.name city) in
      let textHeight := fontSize in
      let positions :=
        [ {| dx := 4; dy := -2 |};
          {| dx := 4; dy := textHeight + 2 |};
          {| dx := - textWidth - 4; dy := -2 |};
          {| dx := - textWidth - 4; dy := textHeight + 2 |} ] in
      match tryPositions (x p) (y p) textWidth textHeight labelBoxes positions with
      | Some bestPos => labelBoxes ++ [box bestPos]
      | None => labelBoxes
      end
    else labelBoxes.

(** [drawCities(conflictData, labelBoxes)], lines 1336-1407: the label boxes
    it returns.  [None] is a missing [conflictData]. *)
Definition drawCities (this : Renderer) (measureText : TextMeasure)
  (conflictData : option ConflictData) (labelBoxes : list Box.t) : list Box.t :=
  match conflictData with
  | None => labelBoxes
  | Some data =>
      fold_left (drawCity this measureText)
                (getVisibleCities data (zoom this)) labelBoxes
  end.





(** [importanceOrder[zone.importance] || 1], lines 1429-1432: [low] is [0],
    which [||] replaces by [1].  This is the value for an [importance] that
    is missing, one of the three names of [importanceOrder], or any other
    string that names no property inherited from [Object.prototype]; for a
    string such as ["toString"] the lookup gives a function and the
    comparator of the sort returns [NaN]. *)
Definition importanceKey (zone : Zone.t) : nat :=
  match Zone.importance zone with
  | Some s => if String.eqb s "high" then 2%nat else 1%nat
  | None => 1%nat
  end.

(** [allZones.sort(...)], lines 1430-1434: a stable sort by [importanceKey]. *)
Fixpoint insertZone (z : Zone.t) (sorted : list Zone.t) : list Zone.t :=
  match sorted with
  | [] => [z]
  | h :: t =>
      if (importanceKey z <=? importanceKey h)%nat then z :: h :: t
      else h :: insertZone z t
  end.

Definition sortZones (zones : list Zone.t) : list Zone.t :=
  fold_right insertZone [] zones.

(** The marker pass, lines 1439-1510: the zones that receive [_screenX]. *)
Definition markZone (this : Renderer) (zone : Zone.t) : option Zone.marked :=
  let p := toCanvas this (fst (Zone.center zone)) (snd (Zone.center zone)) in
  if offScreen this (x p) (y p) then None
  else
    let importance := orDefault (Zone.importance zone) "medium" in
    let baseSize :=
      if String.eqb importance "high" then 4
      else if String.eqb importance "medium" then 3
      else 2 in
    let markerSize := Rmax 2 (baseSize * sqrt (zoom this) * 0.5) in
    Some {| Zone.zone := zone; Zone._screenX := x p; Zone._screenY := y p;
            Zone._markerSize := markerSize |}.

Fixpoint markZones (this : Renderer) (zones : list Zone.t) : list Zone.marked :=
  match zones with
  | [] => []
  | zone :: rest =>
      match markZone this zone with
      | Some m => m :: markZones this rest
      | None => markZones this rest
      end
  end.

(** The parts of the callback of [labelZones.forEach], lines 1515-1604:
    [importance] and [activityLevel] (1523-1524), [showLabel] (1527-1529),
    [fontSize] (1534), [textWidth] (1538-1539), [positions] (1543-1549),
    [bestPos] (1551-1574) and the condition of the status line (1594). *)
Definition zoneImportance (m : Zone.marked) : string :=
  orDefault (Zone.importance (Zone.zone m)) "medium".

Definition zoneActivityLevel (m : Zone.marked) : string :=
  orDefault (Zone.activityLevel (Zone.zone m)) "active".

Definition zoneShowLabel (this : Renderer) (m : Zone.marked) : bool :=
  (String.eqb (zoneImportance m) "high" && (zoom this >? 3.5)) ||
  (String.eqb (zoneImportance m) "medium" && (zoom this >? 6.0)) ||
  (String.eqb (zoneImportance m) "low" && (zoom this >? 10.0)).

Definition zoneFontSize (this : Renderer) : R :=
  Rmax 7 (Rmin 14 (6 + zoom this * 0.4)).

Definition zoneTextWidth (this : Renderer) (measureText : TextMeasure)
  (m : Zone.marked) : R :=
  measureText (zoneFontSize this) (String.eqb (zoneImportance m) "high")
              (Zone.name (Zone.zone m)).

Definition zonePositions (this : Renderer) (measureText : TextMeasure)
  (m : Zone.marked) : list Offset :=
  let markerSize := Zone._markerSize m in
  let textWidth := zoneTextWidth this measureText m in
  let textHeight := zoneFontSize this in
  [ {| dx := markerSize + 4; dy := 3 |};
    {| dx := markerSize + 4; dy := - textHeight |};
    {| dx := - textWidth - 4; dy := 3 |};
    {| dx := - textWidth - 4; dy := - textHeight |};
    {| dx := markerSize + 4; dy := textHeight + 6 |} ].

Definition zoneBestPos (this : Renderer) (measureText : TextMeasure)
  (labelBoxes : list Box.t) (m : Zone.marked) : option Placement :=
  tryPositions (Zone._screenX m) (Zone._screenY m)
               (zoneTextWidth this measureText m) (zoneFontSize this)
               labelBoxes (zonePositions this measureText m).

Definition zoneShowsStatus (this : Renderer) (m : Zone.marked) : bool :=
  String.eqb (zoneImportance m) "high" && (zoom this >? 8.0)
  && String.eqb (zoneActivityLevel m) "hot".

(** The box that the callback pushes for a placement, lines 1594-1602: with
    a status line, [box.height += fontSize + 4] makes it taller after the
    collision test. *)
Definition pushedBox (this : Renderer) (m : Zone.marked) (box : Box.t)
  : Box.t :=
  if zoneShowsStatus this m
  then {| Box.x := Box.x box; Box.y := Box.y box;
          Box.width := Box.width box;
          Box.height := Box.height box + (zoneFontSize this + 4) |}
  else box.

(** The callback of [labelZones.forEach], lines 1515-1604, as a function of the
    label boxes placed so far. *)
Definition labelZone (this : Renderer) (measureText : TextMeasure)
  (labelBoxes : list Box.t) (m : Zone.marked) : list Box.t :=
  let x := Zone._screenX m in
  let y := Zone._screenY m in
  let markerSize := Zone._markerSize m in
  if negb (zoneShowLabel this m) then labelBoxes
  else
    let fontSize := zoneFontSize this in
    let textWidth := zoneTextWidth this measureText m in
    let textHeight := fontSize in
    let bestPos := zoneBestPos this measureText labelBoxes m in
    if (match bestPos with Some _ => true | None => false end)
       || String.eqb (zoneImportance m) "high"
    then
      let labelX :=
        match bestPos with Some b => labelX b | None => x + markerSize + 4 end in
      let labelY :=
        match bestPos with Some b => labelY b | None => y + 3 end in
      let box :=
        match bestPos with
        | Some b => box b
        | None => {| Box.x := labelX - 2; Box.y := labelY - textHeight;
                     Box.width := textWidth + 4; Box.height := textHeight + 4 |}
        end in
      let box :=
        if zoneShowsStatus this m
        then {| Box.x := Box.x box; Box.y := Box.y box;
                Box.width := Box.width box;
                Box.height := Box.height box + (fontSize + 4) |}
        else box in
      labelBoxes ++ [box]
    else labelBoxes.

(** [drawBattleZones(conflictData, existingLabelBoxes)], lines 1415-1608: the
    label boxes it returns. *)
Definition drawBattleZones (this : Renderer) (measureText : TextMeasure)
  (conflictData : option ConflictData) (existingLabelBoxes : list Box.t)
  : list Box.t :=
  let labelBoxes := existingLabelBoxes in
  match conflictData with
  | None => labelBoxes
  | Some data =>
      if zoom this <? 2.5 then labelBoxes
      else
        let allZones := sortZones (battleZones data (zoom this)) in
        let labelZones := rev (markZones this allZones) in
        fold_left (labelZone this measureText) labelZones labelBoxes
  end.

(** Two boxes overlap, as a proposition. *)
Definition overlap (a b : Box.t) : Prop :=
  Box.x a < Box.x b + Box.width b /\ Box.x a + Box.width a > Box.x b /\
  Box.y a < Box.y b + Box.height b /\ Box.y a + Box.height a > Box.y b.

(** No segment of a lane is within the threshold. *)
Definition laneFar (lat lon threshold : R) (lane : Lane) : Prop :=
  forall seg, In seg (segments (coords lane)) ->
    threshold <= distanceToLineSegment lat lon (fst (fst seg)) (snd (fst seg))
                   (fst (snd seg)) (snd (snd seg)).

(** Some segment of a lane is within the threshold. *)
Definition laneNear (lat lon threshold : R) (lane : Lane) : Prop :=
  exists seg, In seg (segments (coords lane)) /\
    distanceToLineSegment lat lon (fst (fst seg)) (snd (fst seg))
      (fst (snd seg)) (snd (snd seg)) < threshold.

(** No box of the list overlaps a box placed before it. *)
Definition noOverlaps (labelBoxes : list Box.t) : Prop :=
  ForallOrdPairs (fun earlier later => ~ overlap later earlier) labelBoxes.

(** The box of a candidate offset collides with no box of the list. *)
Definition free (x y textWidth textHeight : R) (labelBoxes : list Box.t)
  (pos : Offset) : Prop :=
  Forall (fun existing =>
            ~ overlap (box (candidate x y textWidth textHeight pos)) existing)
         labelBoxes.

(** The box of a candidate offset overlaps a box of the list. *)
Definition blocked (x y textWidth textHeight : R) (labelBoxes : list Box.t)
  (pos : Offset) : Prop :=
  exists existing, In existing labelBoxes /\
    overlap (box (candidate x y textWidth textHeight pos)) existing.



(** The Euclidean distance between [(ax, ay)] and [(bx, by')], the measure
    that §4.2 names. *)
Definition euclid (ax ay bx by' : R) : R :=
  sqrt ((ax - bx) * (ax - bx) + (ay - by') * (ay - by')).

(** The point of a segment at the share [s] of the way from its first end
    to its second. *)
Definition pointOn (seg : Position * Position) (s : R) : Position :=
  (fst (fst seg) + s * (fst (snd seg) - fst (fst seg)),
   snd (fst seg) + s * (snd (snd seg) - snd (fst seg))).

(** Some point of some segment of a lane is at a Euclidean distance below
    the threshold. *)
Definition laneWithin (lat lon threshold : R) (lane : Lane) : Prop :=
  exists seg s, In seg (segments (coords lane)) /\ (0 <= s <= 1) /\
    euclid lat lon (fst (pointOn seg s)) (snd (pointOn seg s)) < threshold.

(** Every point of every segment of a lane is at a Euclidean distance of at
    least the threshold. *)
Definition laneBeyond (lat lon threshold : R) (lane : Lane) : Prop :=
  forall seg s, In seg (segments (coords lane)) -> 0 <= s <= 1 ->
    threshold <= euclid lat lon (fst (pointOn seg s)) (snd (pointOn seg s)).

(** ** Test data of the spec *)

(** The square ring of §8, property 4. *)
Definition square : Ring := [(0, 0); (0, 10); (10, 10); (10, 0)].

(** Two strategic cities on the same spot. *)
Definition sameSpot : ConflictData :=
  {| majorCities :=
       [ {| City.lat := 0; City.lon := 0; City.name := "Upper";
            City.strategic := true |};
         {| City.lat := 0; City.lon := 0; City.name := "Lower";
            City.strategic := true |} ];
     battleZones := fun _ => [] |}.

(** A high-importance zone, and a label box that covers the whole canvas. *)
Definition hotspot : Zone.t :=
  {| Zone.name := "Hotspot"; Zone.center := (0, 0);
     Zone.importance := Some "high"%string;
     Zone.activityLevel := Some "active"%string |}.

Definition banner : Box.t :=
  {| Box.x := 0; Box.y := 0; Box.width := 800; Box.height := 400 |}.

(** A high-importance zone whose activity level is ["hot"], and a label box
    below the place of its first candidate. *)
Definition hotZone : Zone.t :=
  {| Zone.name := "Hot zone"; Zone.center := (0, 0);
     Zone.importance := Some "high"%string;
     Zone.activityLevel := Some "hot"%string |}.

Definition lowerBox : Box.t :=
  {| Box.x := 408; Box.y := 210; Box.width := 44; Box.height := 10 |}.

(** ** Rounded arithmetic

    The projection and the viewport controller as the number format
    computes them: every [+], [-], [*] and [/] gives the rounding [rnd] of
    its exact result; comparisons, [Math.max], [Math.min] and changes of
    sign are exact.  In binary64, away from overflow and underflow, [rnd] is
    the rounding to the nearest number with 53 significant bits, of relative
    error at most [u = 2^-53]. *)

Module Rounded.

Definition u : R := / 9007199254740992.

(** The nearest integer, the even one of two that are equally near. *)
Definition nearestEven (q : R) : Z :=
  let n := Zfloor (q + / 2) in
  if (IZR n =? q + / 2) && Z.odd n then (n - 1)%Z else n.

(** Rounding to the nearest number with 53 significant bits, ties to even:
    the rounding of binary64 with an unbounded exponent. *)
Definition round53 (v : R) : R :=
  if v =? 0 then 0
  else
    let e := Zfloor (ln (Rabs v) / ln 2) in
    let ulp := powerRZ 2 (e - 52) in
    IZR (nearestEven (v / ulp)) * ulp.

Section Arithmetic.

Variable rnd : R -> R.

Definition add (a b : R) : R := rnd (a + b).
Definition sub (a b : R) : R := rnd (a - b).
Definition mul (a b : R) : R := rnd (a * b).
Definition div (a b : R) : R := rnd (a / b).

(** [toCanvas(lat, lon)], lines 299-312. *)
Definition toCanvas (this : Renderer) (lat lon : R) : ScreenPoint :=
  let baseX := mul (width (canvas this)) (div (add lon 180) 360) in
  let baseY := mul (height (canvas this)) (div (sub 90 lat) 180) in
  let centerX := div (width (canvas this)) 2 in
  let centerY := div (height (canvas this)) 2 in
  let x := add (add centerX (mul (sub baseX centerX) (zoom this)))
               (panX this) in
  let y := add (add centerY (mul (sub baseY centerY) (zoom this)))
               (panY this) in
  {| x := x; y := y |}.

(** [toLatLon(canvasX, canvasY)], lines 317-330. *)
Definition toLatLon (this : Renderer) (canvasX canvasY : R) : LatLon :=
  let centerX := div (width (canvas this)) 2 in
  let centerY := div (height (canvas this)) 2 in
  let baseX := add (div (sub (sub canvasX (panX this)) centerX) (zoom this))
                   centerX in
  let baseY := add (div (sub (sub canvasY (panY this)) centerY) (zoom this))
                   centerY in
  let lon := sub (mul (div baseX (width (canvas this))) 360) 180 in
  let lat := sub 90 (mul (div baseY (height (canvas this))) 180) in
  {| lat := lat; lon := lon |}.

(** [WorldMapRenderer.toCanvas(lat, lon)], lines 2231-2236. *)
Definition plainToCanvas (canvas : Canvas) (lat lon : R) : ScreenPoint :=
  {| x := mul (width canvas) (div (add lon 180) 360);
     y := mul (height canvas) (div (sub 90 lat) 180) |}.

(** [constrainPan()], lines 511-523; [Math.max], [Math.min] and the change
    of sign are exact. *)
Definition maxPanX (this : Renderer) : R :=
  div (sub (mul (width (canvas this)) (zoom this)) (width (canvas this))) 2.

Definition maxPanY (this : Renderer) : R :=
  div (sub (mul (height (canvas this)) (zoom this)) (height (canvas this))) 2.

Definition constrainPan (this : Renderer) : Renderer :=
  set_pan this (Rmax (- maxPanX this) (Rmin (maxPanX this) (panX this)))
               (Rmax (- maxPanY this) (Rmin (maxPanY this) (panY this))).

(** The [newZoom] of [handleWheel], lines 463-464. *)
Definition wheelZoom (this : Renderer) (deltaY : R) : R :=
  let zoomFactor := if deltaY >? 0 then 0.9 else 1.1 in
  Rmax (minZoom this) (Rmin (maxZoom this) (mul (zoom this) zoomFactor)).

(** Lines 468-475 of [handleWheel]. *)
Definition zoomTowards (this : Renderer) (newZoom mouseX mouseY : R) : Renderer :=
  let ll := toLatLon this mouseX mouseY in
  let this' := set_zoom this newZoom in
  let newPos := toCanvas this' (lat ll) (lon ll) in
  set_pan this' (add (panX this') (sub mouseX (x newPos)))
                (add (panY this') (sub mouseY (y newPos))).

(** [handleWheel(e, mouseX, mouseY)], lines 460-482. *)
Definition handleWheel (this : Renderer) (deltaY mouseX mouseY : R)
  : Renderer * bool :=
  let newZoom := wheelZoom this deltaY in
  if negb (newZoom =? zoom this)
  then (constrainPan (zoomTowards this newZoom mouseX mouseY), true)
  else (this, true).

(** [handleMouseMove(mouseX, mouseY)], lines 498-506. *)
Definition handleMouseMove (this : Renderer) (mouseX mouseY : R)
  : Renderer * bool :=
  if isDragging this
  then (constrainPan
          (set_pan this (add (lastPanX this) (sub mouseX (dragStartX this)))
                        (add (lastPanY this) (sub mouseY (dragStartY this)))),
        true)
  else (this, false).

(** The renderer after an event, and after a sequence of events;
    [handleMouseDown], [handleMouseUp] and [resetView] compute nothing. *)
Definition handle (this : Renderer) (e : Event) : Renderer :=
  match e with
  | Wheel deltaY mouseX mouseY => fst (handleWheel this deltaY mouseX mouseY)
  | MouseDown mouseX mouseY => handleMouseDown this mouseX mouseY
  | MouseMove mouseX mouseY => fst (handleMouseMove this mouseX mouseY)
  | MouseUp => handleMouseUp this
  | ResetView => resetView this
  end.

Definition handleAll (this : Renderer) (es : list Event) : Renderer :=
  fold_left handle es this.

(** The pan is within the bounds that [constrainPan] computes. *)
Definition panClamped (this : Renderer) : Prop :=
  Rabs (panX this) <= Rabs (maxPanX this) /\
  Rabs (panY this) <= Rabs (maxPanY this).

(** What every state reachable from [newRenderer c] satisfies. *)
Definition reachableView (c : Canvas) (this : Renderer) : Prop :=
  canvas this = c /\ minZoom this = 1.0 /\ maxZoom this = 25.0 /\
  zoomInRange this /\ panClamped this.

End Arithmetic.

End Rounded.

(** ** Further hit testing *)

(** The [for (const country of this.countries)] loop of [getCountryAtPoint];
    the outer [None] is an exception thrown by [isPointInCountry]. *)
Fixpoint countryLoop (lat lon : R) (countries : list Feature)
  : option (option Feature) :=
  match countries with
  | [] => Some None
  | country :: rest =>
      match isPointInCountry lat lon country with
      | None => None
      | Some true => Some (Some country)
      | Some false => countryLoop lat lon rest
      end
  end.

(** [getCountryAtPoint(mouseX, mouseY)], lines 441-455; [countries] is
    [this.countries], [None] before the data is loaded. *)
Definition getCountryAtPoint (this : Renderer) (countries : option (list Feature))
  (mouseX mouseY : R) : option (option Feature) :=
  match countries with
  | None => Some None
  | Some countries =>
      let ll := toLatLon this mouseX mouseY in
      countryLoop (lat ll) (lon ll) countries
  end.

(** Every polygon of a geometry has a first ring. *)
Definition hasOuterRings (g : Geometry) : Prop :=
  match g with
  | Polygon coordinates => coordinates <> []
  | MultiPolygon polygons => Forall (fun polygon => polygon <> []) polygons
  | OtherGeometry => True
  end.

(** The first ring of a polygon of the feature contains the point. *)
Definition outerRingContains (lat lon : R) (country : Feature) : bool :=
  match geometry country with
  | Polygon coordinates => rayCast lat lon (hd [] coordinates)
  | MultiPolygon polygons =>
      existsb (fun polygon => rayCast lat lon (hd [] polygon)) polygons
  | OtherGeometry => false
  end.

(** The rings of a geometry, outer rings and holes alike. *)
Definition geometryRings (g : Geometry) : list Ring :=
  match g with
  | Polygon coordinates => coordinates
  | MultiPolygon coordinates => List.concat coordinates
  | OtherGeometry => []
  end.

(** The ring of an axis-aligned rectangle. *)
Definition rectangle (x0 y0 x1 y1 : R) : Ring :=
  [(x0, y0); (x0, y1); (x1, y1); (x1, y0)].

(** The crossings along an open path that starts at [pj]. *)
Definition pathCrossings (lat lon : R) (pj : Position) (rest : list Position)
  : nat :=
  List.length (filter (fun e => intersect lat lon (fst e) (snd e))
                      (edgesFrom pj rest)).

(** ** Further lane queries *)

(** The loops of [preloadNearbyShippingLaneNews], lines 853-867: the
    arguments of the calls [preloadZone(lane.id)], in order.  The inner loop
    is that of [getShippingLaneAtPoint], leaving by [break] where that one
    returns. *)
Fixpoint preloadLoop (lat lon preloadThreshold : R) (lanes : list Lane)
  : list string :=
  match lanes with
  | [] => []
  | lane :: rest =>
      if segmentLoop lat lon preloadThreshold (coords lane)
      then id lane :: preloadLoop lat lon preloadThreshold rest
      else preloadLoop lat lon preloadThreshold rest
  end.

(** [preloadNearbyShippingLaneNews(mouseX, mouseY)], lines 845-869;
    [conflictNewsService] tells whether [window.conflictNewsService] is
    set. *)
Definition preloadNearbyShippingLaneNews (this : Renderer)
  (conflictNewsService : bool) (mouseX mouseY : R) : list string :=
  if negb conflictNewsService then []
  else
    let ll := toLatLon this mouseX mouseY in
    let lanes := getShippingLaneData in
    let preloadThreshold := 8 / zoom this in
    preloadLoop (lat ll) (lon ll) preloadThreshold lanes.


(** ** The order of the battle-zone labels *)

(** A zone whose [importance] is ['high']: the zones that
    [importanceOrder[zone.importance] || 1] ranks last. *)
Definition isHigh (zone : Zone.t) : bool := (importanceKey zone =? 2)%nat.

(** A zone whose [importance] is missing or one of the three names of
    [importanceOrder], as in the data of [ConflictZonesData]: the zones for
    which [importanceKey] is the sort key of the code. *)
Definition knownImportance (zone : Zone.t) : Prop :=
  match Zone.importance zone with
  | None => True
  | Some s => (s = "low" \/ s = "medium" \/ s = "high")%string
  end.

(** A zone of low importance. *)
Definition quietZone : Zone.t :=
  {| Zone.name := "Quiet"; Zone.center := (0, 0);
     Zone.importance := Some "low"%string;
     Zone.activityLevel := None |}.

(** ** Drawing features *)

(** [drawFeature(feature)], lines 388-398: the context calls it makes. *)
Definition drawFeature (this : Renderer) (feature : Feature) : list DrawCmd :=
  match geometry feature with
  | Polygon coordinates => drawPolygon this coordinates
  | MultiPolygon coordinates => flat_map (drawPolygon this) coordinates
  | OtherGeometry => []
  end.

(** The name of the context method that a call invokes. *)
Definition callName (cmd : DrawCmd) : string :=
  match cmd with
  | BeginPath => "beginPath"
  | MoveTo _ _ => "moveTo"
  | LineTo _ _ => "lineTo"
  | ClosePath => "closePath"
  | Fill => "fill"
  | Stroke => "stroke"
  end.

(** The number of calls of [fill] among the context calls. *)
Definition fills (cmds : list DrawCmd) : nat :=
  List.length (filter (fun cmd => match cmd with Fill => true | _ => false end)
                      cmds).

(** ** The wireframe renderer

    [WorldMapRenderer], src/simplified-world-map.js lines 2201-2456. *)

(** [s] keeps some of the elements of [l], in their order. *)
Inductive subsequence {A : Type} : list A -> list A -> Prop :=
| subsequence_nil : subsequence [] []
| subsequence_keep a s l : subsequence s l -> subsequence (a :: s) (a :: l)
| subsequence_drop a s l : subsequence s l -> subsequence s (a :: l).

Module WorldMapRenderer.

(** [WorldMapRenderer.toCanvas(lat, lon)], lines 2231-2236: the plain
    equirectangular projection, also the local [toCanvas] of
    [drawSimplifiedWorldMap], [drawShippingLanes] and [drawMapLabels]
    (lines 101-104, 132-135, 185-188). *)
Definition toCanvas (canvas : Canvas) (lat lon : R) : ScreenPoint :=
  {| x := width canvas * ((lon + 180) / 360);
     y := height canvas * ((90 - lat) / 180) |}.

(** The loop [for (let i = 0; i < ring.length; i += step)], lines 2282-2284,
    for a positive [step]: [skip] is the number of points to pass over before
    the next one is pushed. *)
Fixpoint everyNth (step skip : nat) (ring : Ring) : Ring :=
  match ring with
  | [] => []
  | point :: rest =>
      match skip with
      | O => point :: everyNth step (step - 1) rest
      | S skip' => everyNth step skip' rest
      end
  end.

(** The callback of [coordinates.map], lines 2277-2292, for a positive
    [step].  The points of a ring are distinct objects, as [response.json()]
    makes them, so the last point pushed by the loop is [ring[ring.length -
    1]] exactly when its index, the last multiple of [step] below
    [ring.length], is [ring.length - 1]; on an empty ring both sides of the
    comparison are [undefined]. *)
Definition simplifyRing (step : nat) (ring : Ring) : Ring :=
  let simplified := everyNth step 0 ring in
  match ring with
  | [] => simplified
  | _ =>
      if ((List.length ring - 1) mod step =? 0)%nat then simplified
      else simplified ++ [last ring (0, 0)]
  end.

(** [simplifyPolygon(coordinates)], lines 2276-2293, for the
    [simplificationFactor] of the renderer, which its constructor sets to
    [0.5].  [None] stands for a step [Math.ceil(1 / simplificationFactor)]
    that is not a positive integer, where the loop does not advance. *)
Definition simplifyPolygon (simplificationFactor : R) (coordinates : list Ring)
  : option (list Ring) :=
  let step := Zceil (1 / simplificationFactor) in
  if (0 <? step)%Z then Some (map (simplifyRing (Z.to_nat step)) coordinates)
  else None.

(** The polygons of a [MultiPolygon], each through [simplifyPolygon]. *)
Fixpoint simplifyPolygons (simplificationFactor : R)
  (polygons : list (list Ring)) : option (list (list Ring)) :=
  match polygons with
  | [] => Some []
  | poly :: rest =>
      match simplifyPolygon simplificationFactor poly,
            simplifyPolygons simplificationFactor rest with
      | Some poly', Some rest' => Some (poly' :: rest')
      | _, _ => None
      end
  end.

(** [simplifyGeoJSON(geojson)], lines 2241-2271: the geometries of the
    features it returns, from the geometries of [geojson.features]. *)
Fixpoint simplifyGeoJSON (simplificationFactor : R) (features : list Geometry)
  : option (list Geometry) :=
  match features with
  | [] => Some []
  | geometry :: rest =>
      match geometry with
      | Polygon coordinates =>
          match simplifyPolygon simplificationFactor coordinates,
                simplifyGeoJSON simplificationFactor rest with
          | Some coordinates', Some rest' =>
              Some (Polygon coordinates' :: rest')
          | _, _ => None
          end
      | MultiPolygon coordinates =>
          match simplifyPolygons simplificationFactor coordinates,
                simplifyGeoJSON simplificationFactor rest with
          | Some polygons, Some rest' => Some (MultiPolygon polygons :: rest')
          | _, _ => None
          end
      | OtherGeometry => simplifyGeoJSON simplificationFactor rest
      end
  end.

(** The inner [ring.forEach] of [WorldMapRenderer.drawPolygon], lines
    2327-2336: [first] tells whether [i === 0]. *)
Fixpoint ringPath (canvas : Canvas) (first : bool) (ring : Ring)
  : list DrawCmd :=
  match ring with
  | [] => []
  | (lon, lat) :: rest =>
      let p := toCanvas canvas lat lon in
      (if first then MoveTo (x p) (y p) else LineTo (x p) (y p))
      :: ringPath canvas false rest
  end.

(** One iteration of the outer [coordinates.forEach], lines 2322-2341. *)
Definition drawRing (canvas : Canvas) (ring : Ring) : list DrawCmd :=
  if (List.length ring <? 3)%nat then []
  else [BeginPath] ++ ringPath canvas true ring ++ [ClosePath; Fill; Stroke].

(** [WorldMapRenderer.drawPolygon(coordinates)], lines 2321-2342: the
    context calls it makes. *)
Definition drawPolygon (canvas : Canvas) (coordinates : list Ring)
  : list DrawCmd :=
  flat_map (drawRing canvas) coordinates.

(** The callback of [features.forEach] in [drawMap], lines 2307-2315. *)
Definition drawMapFeature (canvas : Canvas) (geometry : Geometry)
  : list DrawCmd :=
  match geometry with
  | Polygon coordinates => drawPolygon canvas coordinates
  | MultiPolygon coordinates => flat_map (drawPolygon canvas) coordinates
  | OtherGeometry => []
  end.

(** [drawMap()], lines 2298-2316: the path calls it makes; [mapData] is
    [None] while it is [null], else the geometries of its features. *)
Definition drawMap (canvas : Canvas) (mapData : option (list Geometry))
  : list DrawCmd :=
  match mapData with
  | None => []
  | Some features => flat_map (drawMapFeature canvas) features
  end.

End WorldMapRenderer.

(** A simplified ring keeps the first and the last point of the ring and, in
    between, some of its points in their order. *)
Definition simplifiedFrom (simplified ring : Ring) : Prop :=
  hd_error simplified = hd_error ring /\
  last simplified (0, 0) = last ring (0, 0) /\
  subsequence simplified ring.

(** A simplified geometry has the type, the polygons and the rings of the
    geometry, each ring simplified. *)
Inductive simplifiedGeometry : Geometry -> Geometry -> Prop :=
| simplified_Polygon coordinates' coordinates :
    Forall2 simplifiedFrom coordinates' coordinates ->
    simplifiedGeometry (Polygon coordinates') (Polygon coordinates)
| simplified_MultiPolygon polygons' polygons :
    Forall2 (Forall2 simplifiedFrom) polygons' polygons ->
    simplifiedGeometry (MultiPolygon polygons') (MultiPolygon polygons).

Definition isPolygonal (g : Geometry) : bool :=
  match g with
  | OtherGeometry => false
  | _ => true
  end.

(** ** Conflict data

    [ConflictZonesData], src/conflict-zones-data.js. *)

(** [a >= b] and [a <= b] on numbers. *)
Definition Rgeb (a b : R) : bool := if Rge_dec a b then true else false.
Definition Rleb (a b : R) : bool := if Rle_dec a b then true else false.

Infix ">=?" := Rgeb (at level 70, no associativity) : R_scope.
Infix "<=?" := Rleb (at level 70, no associativity) : R_scope.

(** [Math.atan2(y, x)]. *)
Definition atan2 (y x : R) : R :=
  if 0 <? x then atan (y / x)
  else if x <? 0 then (if y <? 0 then atan (y / x) - PI else atan (y / x) + PI)
  else if 0 <? y then PI / 2
  else if y <? 0 then - PI / 2
  else 0.

Module ConflictZonesData.

(** An entry of [occupiedTerritories]: its [coordinates] are a ring of
    [[lat, lon]] pairs; [battleZones] is [None] when the territory has
    none. *)
Record Territory := mkTerritory {
  region : string;
  color : string;
  coordinates : Ring;
  battleZones : option (list Zone.t)
}.

(** An entry of [activeConflicts]; [occupiedTerritories] is [None] when the
    conflict has none. *)
Record Conflict := mkConflict {
  id : string;
  occupiedTerritories : option (list Territory)
}.

(** An entry of [potentialConflicts]: [center] is its [coordinates], a
    [[lat, lon]] pair, [radius] is in kilometres. *)
Record Potential := mkPotential {
  potentialId : string;
  center : Position;
  radius : R
}.

(** [isPointInPolygon(lat, lon, coordinates)], src/conflict-zones-data.js
    lines 911-923, over a ring of [[lat, lon]] pairs: the loop of the
    renderer's [isPointInPolygon] with the two axes exchanged, the ray running
    along the latitude. *)
Definition isPointInPolygon (lat lon : R) (coordinates : Ring) : bool :=
  rayLoop lon lat (last coordinates (0, 0)) coordinates false.

(** [haversineDistance(lat1, lon1, lat2, lon2)], lines 928-937.  [None] is
    [NaN]: [Math.sqrt] of a negative number. *)
Definition haversineDistance (lat1 lon1 lat2 lon2 : R) : option R :=
  let earthRadius := 6371 in
  let dLat := (lat2 - lat1) * PI / 180 in
  let dLon := (lon2 - lon1) * PI / 180 in
  let a := sin (dLat / 2) * sin (dLat / 2) +
           cos (lat1 * PI / 180) * cos (lat2 * PI / 180) *
           sin (dLon / 2) * sin (dLon / 2) in
  if (a <? 0) || (1 - a <? 0) then None
  else
    let c := 2 * atan2 (sqrt a) (sqrt (1 - a)) in
    Some (earthRadius * c).

(** The object that [getConflictZoneAtPoint] returns. *)
Inductive ZoneAtPoint :=
| active (conflict : Conflict) (territory : Territory)
| potential (conflict : Potential) (distance : R).

(** The loop over [conflict.occupiedTerritories], lines 878-886. *)
Fixpoint territoryLoop (lat lon : R) (conflict : Conflict)
  (territories : list Territory) : option ZoneAtPoint :=
  match territories with
  | [] => None
  | territory :: rest =>
      if isPointInPolygon lat lon (coordinates territory)
      then Some (active conflict territory)
      else territoryLoop lat lon conflict rest
  end.

(** The loop over [this.activeConflicts], lines 876-888. *)
Fixpoint activeLoop (lat lon : R) (activeConflicts : list Conflict)
  : option ZoneAtPoint :=
  match activeConflicts with
  | [] => None
  | conflict :: rest =>
      match
        match occupiedTerritories conflict with
        | Some territories => territoryLoop lat lon conflict territories
        | None => None
        end
      with
      | Some found => Some found
      | None => activeLoop lat lon rest
      end
  end.

(** The loop over [this.potentialConflicts], lines 891-903; a [NaN] distance
    is not [<= potential.radius]. *)
Fixpoint potentialLoop (lat lon : R) (potentialConflicts : list Potential)
  : option ZoneAtPoint :=
  match potentialConflicts with
  | [] => None
  | p :: rest =>
      match haversineDistance lat lon (fst (center p)) (snd (center p)) with
      | Some distance =>
          if distance <=? radius p then Some (potential p distance)
          else potentialLoop lat lon rest
      | None => potentialLoop lat lon rest
      end
  end.

(** [getConflictZoneAtPoint(lat, lon)], lines 874-906; [None] is [null]. *)
Definition getConflictZoneAtPoint (activeConflicts : list Conflict)
  (potentialConflicts : list Potential) (lat lon : R) : option ZoneAtPoint :=
  match activeLoop lat lon activeConflicts with
  | Some found => Some found
  | None => potentialLoop lat lon potentialConflicts
  end.

(** What [getVisibleBattleZones] pushes:
    [{...zone, territoryRegion, territoryColor}]. *)
Record VisibleZone := mkVisibleZone {
  zone : Zone.t;
  territoryRegion : string;
  territoryColor : string
}.

(** The value of [shouldShow], lines 977-988. *)
Definition shouldShow (zoom : R) (zone : Zone.t) : bool :=
  let importance := orDefault (Zone.importance zone) "medium" in
  let shouldShow := false in
  let shouldShow :=
    if String.eqb importance "high" && (zoom >=? 2.5) then true
    else shouldShow in
  let shouldShow :=
    if String.eqb importance "medium" && (zoom >=? 3.5) then true
    else shouldShow in
  let shouldShow :=
    if String.eqb importance "low" && (zoom >=? 5.0) then true
    else shouldShow in
  let shouldShow :=
    if match Zone.activityLevel zone with
       | Some activityLevel => String.eqb activityLevel "hot"
       | None => false
       end && (zoom >=? 3.0)
    then true else shouldShow in
  shouldShow.

(** [getVisibleBattleZones(zoom, conflict)], lines 967-1002. *)
Definition getVisibleBattleZones (zoom : R) (conflict : Conflict)
  : list VisibleZone :=
  if zoom <? 2.5 then []
  else
    match occupiedTerritories conflict with
    | None => []
    | Some territories =>
        flat_map
          (fun territory =>
             match battleZones territory with
             | None => []
             | Some zones =>
                 map (fun zone =>
                        {| zone := zone;
                           territoryRegion := region territory;
                           territoryColor := color territory |})
                     (filter (shouldShow zoom) zones)
             end)
          territories
    end.

End ConflictZonesData.

(** Some occupied territory of some active conflict contains the position. *)
Definition insideActive (activeConflicts : list ConflictZonesData.Conflict)
  (lat lon : R) : Prop :=
  exists conflict territories territory,
    In conflict activeConflicts /\
    ConflictZonesData.occupiedTerritories conflict = Some territories /\
    In territory territories /\
    ConflictZonesData.isPointInPolygon
      lat lon (ConflictZonesData.coordinates territory) = true.

(** The circle of [ctx.arc(x, y, radiusPixels, 0, Math.PI * 2)]. *)
Record Circle := mkCircle { centerX : R; centerY : R; radiusPixels : R }.

(** [drawPotentialConflictZone(potential)], lines 1193-1224: the circle it
    strokes, if any.  [colorMatch] tells whether [potential.color] matches
    the pattern of line 1209. *)
Definition drawPotentialConflictZone (this : Renderer)
  (potential : ConflictZonesData.Potential) (colorMatch : bool)
  : option Circle :=
  let coordinates := ConflictZonesData.center potential in
  let p := toCanvas this (fst coordinates) (snd coordinates) in
  if (x p <? -200) || (x p >? width (canvas this) + 200) ||
     (y p <? -200) || (y p >? height (canvas this) + 200)
  then None
  else
    let kmPerDegree := 111 in
    let radiusInDegrees := ConflictZonesData.radius potential / kmPerDegree in
    let x2 := x (toCanvas this (fst coordinates + radiusInDegrees)
                          (snd coordinates)) in
    let radiusPixels := Rabs (x2 - x p) * zoom this in
    if negb colorMatch then None
    else Some {| centerX := x p; centerY := y p;
                 radiusPixels := radiusPixels |}.

(** ** Trails and symbols *)

(** An aircraft of [drawNuclearAircraft]: its position, its [heading] in
    degrees ([None] when it has none) and the three flags that choose its
    colours. *)
Record Aircraft := mkAircraft {
  acLat : R;
  acLon : R;
  heading : option R;
  nuclear : bool;
  nuclearC2 : bool;
  nuclearSupport : bool
}.

(** A stroked segment of a trail: the colour and the opacity of
    [strokeStyle], [lineWidth], and the points of [moveTo] and [lineTo]. *)
Record Segment := mkSegment {
  rgb : string;
  opacity : R;
  lineWidth : R;
  from : ScreenPoint;
  to : ScreenPoint
}.

(** The four [continue] tests of the trail loops, lines 1953-1956 and
    2099-2102. *)
Definition segmentOffScreen (this : Renderer) (prevPos currPos : ScreenPoint)
  : bool :=
  ((x prevPos <? -100) && (x currPos <? -100)) ||
  ((x prevPos >? width (canvas this) + 100) &&
   (x currPos >? width (canvas this) + 100)) ||
  ((y prevPos <? -100) && (y currPos <? -100)) ||
  ((y prevPos >? height (canvas this) + 100) &&
   (y currPos >? height (canvas this) + 100)).

(** The loop [for (let i = 1; i < trail.length; i++)] of
    [drawTrajectoryTrail], lines 1946-1973: [prev] is [trail[i - 1]], [rest]
    the points from index [i] on, [length] is [trail.length]. *)
Fixpoint trajectoryLoop (this : Renderer) (trailColor : string) (length i : nat)
  (prev : LatLon) (rest : list LatLon) : list Segment :=
  match rest with
  | [] => []
  | curr :: rest' =>
      let prevPos := toCanvas this (lat prev) (lon prev) in
      let currPos := toCanvas this (lat curr) (lon curr) in
      if segmentOffScreen this prevPos currPos
      then trajectoryLoop this trailColor length (S i) curr rest'
      else
        let progress := INR i / INR length in
        let opacity := 0.2 + progress * 0.6 in
        {| rgb := trailColor; opacity := opacity; lineWidth := 2;
           from := prevPos; to := currPos |}
        :: trajectoryLoop this trailColor length (S i) curr rest'
  end.

(** [drawTrajectoryTrail(trail, ac)], lines 1931-1975: the segments it
    strokes. *)
Definition drawTrajectoryTrail (this : Renderer) (trail : list LatLon)
  (ac : Aircraft) : list Segment :=
  if (List.length trail <? 2)%nat then []
  else
    let trailColor :=
      (if nuclear ac then "220, 80, 80"
       else if nuclearC2 ac then "220, 180, 60"
       else if nuclearSupport ac then "200, 140, 80"
       else "130, 180, 220")%string in
    match trail with
    | [] => []
    | first :: rest =>
        trajectoryLoop this trailColor (List.length trail) 1 first rest
    end.

(** The loop of [drawSubmarineTrail], lines 2092-2115. *)
Fixpoint submarineLoop (this : Renderer) (stroke : string) (length i : nat)
  (prev : LatLon) (rest : list LatLon) : list Segment :=
  match rest with
  | [] => []
  | curr :: rest' =>
      let prevPos := toCanvas this (lat prev) (lon prev) in
      let currPos := toCanvas this (lat curr) (lon curr) in
      if segmentOffScreen this prevPos currPos
      then submarineLoop this stroke length (S i) curr rest'
      else
        let progress := INR i / INR length in
        let opacity := 0.1 + progress * 0.25 in
        {| rgb := stroke; opacity := opacity;
           lineWidth := 1 + progress * 0.5;
           from := prevPos; to := currPos |}
        :: submarineLoop this stroke length (S i) curr rest'
  end.

(** [drawSubmarineTrail(trail, sub, countryColors)], lines 2082-2118;
    [colors] is the [stroke] of [countryColors[sub.country]], [None] when
    the country has no entry. *)
Definition drawSubmarineTrail (this : Renderer) (trail : list LatLon)
  (colors : option string) : list Segment :=
  if (List.length trail <? 2)%nat then []
  else
    let stroke :=
      match colors with
      | Some stroke => stroke
      | None => "100, 150, 190"%string
      end in
    match trail with
    | [] => []
    | first :: rest =>
        submarineLoop this stroke (List.length trail) 1 first rest
    end.

(** The symbol of an aircraft: the points of the dart, lines 1862-1879, and
    the end of the leader line, lines 1888-1892. *)
Record Dart := mkDart {
  nose : ScreenPoint;
  leftWing : ScreenPoint;
  tail : ScreenPoint;
  rightWing : ScreenPoint;
  leaderEnd : ScreenPoint;
  size : R
}.

(** The callback of [aircraft.forEach] in [drawNuclearAircraft], lines
    1815-1893, as far as the symbol goes: [None] when the aircraft is off
    screen.  [ac.heading || 0] is [0] for an aircraft without heading. *)
Definition aircraftDart (this : Renderer) (ac : Aircraft) : option Dart :=
  let p := toCanvas this (acLat ac) (acLon ac) in
  if (x p <? -50) || (x p >? width (canvas this) + 50) ||
     (y p <? -50) || (y p >? height (canvas this) + 50)
  then None
  else
    let baseSize := if nuclear ac || nuclearC2 ac then 14 else 12 in
    let markerSize := Rmax 12 (baseSize * sqrt (zoom this)) in
    let headingRad :=
      (match heading ac with Some h => h | None => 0 end) * PI / 180
      - PI / 2 in
    let noseX := x p + cos headingRad * markerSize in
    let noseY := y p + sin headingRad * markerSize in
    let wingAngle := 2.4 in
    let leftWingX := x p + cos (headingRad + wingAngle) * markerSize * 0.6 in
    let leftWingY := y p + sin (headingRad + wingAngle) * markerSize * 0.6 in
    let tailX := x p + cos (headingRad + PI) * markerSize * 0.2 in
    let tailY := y p + sin (headingRad + PI) * markerSize * 0.2 in
    let rightWingX := x p + cos (headingRad - wingAngle) * markerSize * 0.6 in
    let rightWingY := y p + sin (headingRad - wingAngle) * markerSize * 0.6 in
    let leaderLength := markerSize * 1.2 in
    Some {| nose := {| x := noseX; y := noseY |};
            leftWing := {| x := leftWingX; y := leftWingY |};
            tail := {| x := tailX; y := tailY |};
            rightWing := {| x := rightWingX; y := rightWingY |};
            leaderEnd := {| x := noseX + cos headingRad * leaderLength;
                            y := noseY + sin headingRad * leaderLength |};
            size := markerSize |}.

(** ** Wrapped text *)

(** The space character. *)
Definition space : Ascii.ascii := Ascii.ascii_of_nat 32.

(** [text.split(' ')]. *)
Fixpoint splitSpace (text : string) : list string :=
  match text with
  | EmptyString => [EmptyString]
  | String c rest =>
      if Ascii.eqb c space then EmptyString :: splitSpace rest
      else
        match splitSpace rest with
        | word :: words => String c word :: words
        | [] => [String c EmptyString]
        end
  end.

(** A call [ctx.fillText(line, x, y)]. *)
Record FillText := mkFillText { line : string; atX : R; atY : R }.

(** The loop of [wrapText], lines 1030-1041, and the [fillText] after it:
    [words] are the words from index [i] on. *)
Fixpoint wrapLoop (measureText : string -> R) (x maxWidth lineHeight : R)
  (i : nat) (words : list string) (line : string) (y : R) : list FillText :=
  match words with
  | [] => [ {| line := line; atX := x; atY := y |} ]
  | word :: rest =>
      let testLine := (line ++ word ++ " ")%string in
      if (measureText testLine >? maxWidth) && (0 <? i)%nat
      then {| line := line; atX := x; atY := y |}
           :: wrapLoop measureText x maxWidth lineHeight (S i) rest
                       (word ++ " ")%string (y + lineHeight)
      else wrapLoop measureText x maxWidth lineHeight (S i) rest testLine y
  end.

(** [wrapText(text, x, y, maxWidth, lineHeight)], lines 1026-1043: its calls
    of [fillText]; [measureText] is the width that the context measures at
    its current font. *)
Definition wrapText (measureText : string -> R) (text : string)
  (x y maxWidth lineHeight : R) : list FillText :=
  let words := splitSpace text in
  wrapLoop measureText x maxWidth lineHeight 0 words ""%string y.

(** The texts of a list of calls, one after the other. *)
Definition joinLines (calls : list FillText) : string :=
  fold_right String.append ""%string (map line calls).

(** * Properties *)

(** ** Comparison operators *)

Lemma Rltb_true (a b : R) : (a <? b) = true <-> a < b.
Proof. unfold Rltb; destruct (Rlt_dec a b); split; intros; try easy; lra. Qed.

Lemma Rltb_false (a b : R) : (a <? b) = false <-> b <= a.
Proof. unfold Rltb; destruct (Rlt_dec a b); split; intros; try easy; lra. Qed.

Lemma Rgtb_true (a b : R) : (a >? b) = true <-> b < a.
Proof. apply Rltb_true. Qed.

Lemma Rgtb_false (a b : R) : (a >? b) = false <-> a <= b.
Proof. apply Rltb_false. Qed.

Lemma Reqb_true (a b : R) : (a =? b) = true <-> a = b.
Proof. unfold Reqb; destruct (Req_dec_T a b); split; intros; easy. Qed.

Lemma Reqb_false (a b : R) : (a =? b) = false <-> a <> b.
Proof. unfold Reqb; destruct (Req_dec_T a b); split; intros; easy. Qed.

(** Decides the comparisons, [Rmax] and [Rmin] of a goal, innermost first,
    each by [lra]. *)
Ltac no_dec t :=
  lazymatch t with
  | context [Rlt_dec] => fail
  | context [Rle_dec] => fail
  | context [Req_dec_T] => fail
  | _ => idtac
  end.

Ltac js_decide :=
  repeat (unfold Rgtb, Rltb, Reqb, Rmax, Rmin;
          match goal with
          | |- context [Rlt_dec ?a ?b] =>
              no_dec a; no_dec b; destruct (Rlt_dec a b); try lra
          | |- context [Rle_dec ?a ?b] =>
              no_dec a; no_dec b; destruct (Rle_dec a b); try lra
          | |- context [Req_dec_T ?a ?b] =>
              no_dec a; no_dec b; destruct (Req_dec_T a b); try lra
          end);
  try reflexivity; try lra.

Lemma Rmax_Rmin_between (m p : R) :
  0 <= m -> - m <= Rmax (- m) (Rmin m p) <= m.
Proof. intros; js_decide. Qed.

Lemma Rmax_Rmin_id (m p : R) :
  - m <= p <= m -> Rmax (- m) (Rmin m p) = p.
Proof. intros; js_decide. Qed.

(** ** Absolute values *)

Lemma Rabs_between (m p : R) : - m <= p <= m -> Rabs p <= m.
Proof. intros; apply Rabs_le; lra. Qed.

Lemma between_Rabs (m p : R) : Rabs p <= m -> - m <= p <= m.
Proof.
  intros H. unfold Rabs in H. destruct (Rcase_abs p); lra.
Qed.

(** ** Projection round trip *)

Lemma toLatLon_toCanvas (this : Renderer) (lat lon : R) :
  zoom this <> 0 -> width (canvas this) <> 0 -> height (canvas this) <> 0 ->
  toLatLon this (x (toCanvas this lat lon)) (y (toCanvas this lat lon))
  = {| lat := lat; lon := lon |}.
Proof.
  intros Hz Hw Hh. unfold toLatLon, toCanvas; cbn.
  f_equal; field; auto.
Qed.

Lemma toCanvas_toLatLon (this : Renderer) (canvasX canvasY : R) :
  zoom this <> 0 -> width (canvas this) <> 0 -> height (canvas this) <> 0 ->
  let ll := toLatLon this canvasX canvasY in
  toCanvas this (lat ll) (lon ll) = {| x := canvasX; y := canvasY |}.
Proof.
  intros Hz Hw Hh. unfold toLatLon, toCanvas; cbn.
  f_equal; field; auto.
Qed.

(** ** Rounding *)

(** Turns bounds on absolute values into two-sided bounds. *)
Ltac unabs :=
  repeat match goal with
         | H : Rabs _ <= _ |- _ => apply between_Rabs in H
         end;
  try apply Rabs_between.

Lemma u_pos : 0 < Rounded.u.
Proof. unfold Rounded.u. apply Rinv_0_lt_compat. lra. Qed.

Lemma nearestEven_error (q : R) :
  Rabs (IZR (Rounded.nearestEven q) - q) <= / 2.
Proof.
  unfold Rounded.nearestEven.
  pose proof (Zfloor_bound (q + / 2)) as [Hl Hu].
  destruct ((IZR (Zfloor (q + / 2)) =? q + / 2) && Z.odd (Zfloor (q + / 2)))
    eqn:Ht.
  - apply andb_true_iff in Ht. destruct Ht as [Ht _]. apply Reqb_true in Ht.
    rewrite minus_IZR. apply Rabs_between. lra.
  - apply Rabs_between. lra.
Qed.

Lemma round53_error (v : R) :
  Rabs (Rounded.round53 v - v) <= Rounded.u * Rabs v.
Proof.
  unfold Rounded.round53. destruct (v =? 0) eqn:Hv.
  - apply Reqb_true in Hv. subst v.
    replace (0 - 0) with 0 by ring. rewrite Rabs_R0. lra.
  - apply Reqb_false in Hv.
    assert (Hpos : 0 < Rabs v) by (apply Rabs_pos_lt, Hv).
    set (e := Zfloor (ln (Rabs v) / ln 2)).
    set (ulp := powerRZ 2 (e - 52)).
    assert (Hulp : 0 < ulp) by (apply powerRZ_lt; lra).
    assert (Hln2 : 0 < ln 2) by (rewrite <- ln_1; apply ln_increasing; lra).
    assert (Hpow : powerRZ 2 e <= Rabs v).
    { rewrite powerRZ_Rpower by lra. unfold Rpower.
      destruct (Zfloor_bound (ln (Rabs v) / ln 2)) as [Hl _]. fold e in Hl.
      assert (H : IZR e * ln 2 <= ln (Rabs v)).
      { apply (Rmult_le_compat_r (ln 2)) in Hl; [|lra].
        unfold Rdiv in Hl. rewrite Rmult_assoc, Rinv_l in Hl by lra. lra. }
      apply Rle_trans with (exp (ln (Rabs v))); [|rewrite exp_ln; lra].
      destruct (Rle_lt_or_eq_dec _ _ H) as [Hlt|Heq].
      - left. apply exp_increasing. exact Hlt.
      - rewrite Heq. lra. }
    assert (Hsplit : ulp = powerRZ 2 e * (2 * Rounded.u)).
    { unfold ulp. replace (e - 52)%Z with (e + -52)%Z by lia.
      rewrite powerRZ_add by lra. f_equal. unfold Rounded.u.
      change (powerRZ 2 (-52)) with (/ (2 ^ 52)). rewrite pow_IZR.
      replace (2 ^ Z.of_nat 52)%Z with 4503599627370496%Z by (vm_compute; reflexivity).
      field. }
    pose proof (nearestEven_error (v / ulp)) as Hn.
    replace (IZR (Rounded.nearestEven (v / ulp)) * ulp - v)
      with ((IZR (Rounded.nearestEven (v / ulp)) - v / ulp) * ulp)
      by (field; lra).
    rewrite Rabs_mult, (Rabs_pos_eq ulp) by lra.
    apply Rle_trans with (/ 2 * ulp).
    + apply Rmult_le_compat_r; [lra|exact Hn].
    + rewrite Hsplit. pose proof u_pos.
      replace (/ 2 * (powerRZ 2 e * (2 * Rounded.u)))
        with (Rounded.u * powerRZ 2 e) by field.
      apply Rmult_le_compat_l; lra.
Qed.

Section RoundingError.

Variable rnd : R -> R.
Hypothesis rnd_error : forall v, Rabs (rnd v - v) <= Rounded.u * Rabs v.

(** A rounded value is as close to the exact one as the value it rounds,
    up to the rounding error. *)
Lemma rounded_close (y v e m : R) :
  Rabs (y - v) <= e -> Rabs v <= m ->
  Rabs (rnd y - v) <= e + Rounded.u * (m + e).
Proof.
  intros He Hm. pose proof u_pos as Hu. pose proof (rnd_error y) as Hr.
  assert (Hy : Rabs y <= m + e) by (unabs; lra).
  assert (Hr' : Rabs (rnd y - y) <= Rounded.u * (m + e)).
  { eapply Rle_trans; [exact Hr|]. apply Rmult_le_compat_l; lra. }
  unabs. lra.
Qed.

Lemma scaled_close (w a b e : R) :
  0 <= w -> Rabs (a - b) <= e -> Rabs (w * a - w * b) <= w * e.
Proof.
  intros Hw H. replace (w * a - w * b) with (w * (a - b)) by ring.
  rewrite Rabs_mult, (Rabs_pos_eq w) by exact Hw.
  apply Rmult_le_compat_l; assumption.
Qed.

Lemma zoomed_close (z a b e : R) :
  0 <= z <= 25 -> Rabs (a - b) <= e -> Rabs (a * z - b * z) <= 25 * e.
Proof.
  intros Hz H. replace (a * z - b * z) with (z * (a - b)) by ring.
  rewrite Rabs_mult, (Rabs_pos_eq z) by lra.
  pose proof (Rabs_pos (a - b)). nra.
Qed.

Lemma unzoomed_close (z a b e : R) :
  1 <= z -> Rabs (a - b) <= e -> Rabs (a / z - b / z) <= e.
Proof.
  intros Hz H. replace (a / z - b / z) with ((a - b) * / z) by (field; lra).
  rewrite Rabs_mult. assert (Hi : 0 < / z <= 1).
  { split; [apply Rinv_0_lt_compat; lra|].
    rewrite <- Rinv_1. apply Rinv_le_contravar; lra. }
  rewrite (Rabs_pos_eq (/ z)) by lra. pose proof (Rabs_pos (a - b)). nra.
Qed.

Lemma unscaled_close (w a b k : R) :
  0 < w -> Rabs (a - w * b) <= k * w -> Rabs (a / w - b) <= k.
Proof.
  intros Hw H. replace (a / w - b) with ((a - w * b) * / w) by (field; lra).
  rewrite Rabs_mult. assert (Hi : 0 < / w) by (apply Rinv_0_lt_compat; lra).
  rewrite (Rabs_pos_eq (/ w)) by lra.
  apply (Rmult_le_reg_r w); [exact Hw|].
  rewrite Rmult_assoc, Rinv_l by lra. lra.
Qed.

(** The place of a point on one axis: [t] is its exact share of the canvas
    size [w], [a2] the share as computed, [ea] the error of [a2]. *)
Lemma forward_axis (w z pan t a2 ea : R) :
  0 < w -> 1 <= z <= 25 -> Rabs pan <= 1000 * w -> 0 <= t <= 1 ->
  0 <= ea <= 1 -> Rabs (a2 - t) <= ea ->
  Rabs (Rounded.add rnd
          (Rounded.add rnd (Rounded.div rnd w 2)
             (Rounded.mul rnd
                (Rounded.sub rnd (Rounded.mul rnd w a2) (Rounded.div rnd w 2))
                z))
          pan
        - (w / 2 + (w * t - w / 2) * z + pan))
  <= (27 * ea + 1100 * Rounded.u) * w.
Proof.
  intros Hw Hz Hpan Ht Hea Ha2. pose proof u_pos as Hu.
  assert (Hu1 : Rounded.u <= / 1000000)
    by (unfold Rounded.u; apply Rinv_le_contravar; lra).
  unfold Rounded.add, Rounded.sub, Rounded.mul, Rounded.div.
  assert (HB : 0 <= w * t <= w) by nra.
  assert (Hwe : 0 <= w * ea <= w) by nra.
  set (B := w * t) in *. set (We := w * ea) in *.
  assert (Hq1 : Rounded.u * We <= / 1000000 * We)
    by (apply Rmult_le_compat_r; lra).
  assert (Hq2 : 0 <= Rounded.u * w) by nra.
  assert (Hq3 : Rounded.u * (Rounded.u * w) <= / 1000000 * (Rounded.u * w))
    by (apply Rmult_le_compat_r; lra).
  assert (H1 : Rabs (rnd (w * a2) - B) <= 1.01 * We + 1.01 * Rounded.u * w).
  { eapply Rle_trans;
      [apply (rounded_close _ B We w);
        [apply scaled_close; [lra|exact Ha2]|unabs; lra]|].
    lra. }
  assert (H2 : Rabs (rnd (w / 2) - w / 2) <= 0.5 * Rounded.u * w).
  { eapply Rle_trans;
      [apply (rounded_close _ (w / 2) 0 (w / 2)); unabs; lra|]. lra. }
  set (b := rnd (w * a2)) in *. set (c := rnd (w / 2)) in *.
  assert (H3 : Rabs (rnd (b - c) - (B - w / 2))
               <= 1.02 * We + 2.1 * Rounded.u * w).
  { eapply Rle_trans;
      [apply (rounded_close _ (B - w / 2)
                (1.01 * We + 1.51 * Rounded.u * w) (w / 2)); unabs; lra|].
    lra. }
  set (d := rnd (b - c)) in *.
  assert (HM : Rabs ((B - w / 2) * z) <= 12.5 * w) by (unabs; nra).
  assert (H4 : Rabs (rnd (d * z) - (B - w / 2) * z)
               <= 25.6 * We + 66 * Rounded.u * w).
  { eapply Rle_trans;
      [apply (rounded_close _ ((B - w / 2) * z)
                (25 * (1.02 * We + 2.1 * Rounded.u * w)) (12.5 * w));
        [apply zoomed_close; [lra|exact H3]|exact HM]|].
    lra. }
  set (M := (B - w / 2) * z) in *. set (m := rnd (d * z)) in *.
  assert (H5 : Rabs (rnd (c + m) - (w / 2 + M))
               <= 25.7 * We + 80 * Rounded.u * w).
  { eapply Rle_trans;
      [apply (rounded_close _ (w / 2 + M)
                (25.6 * We + 66.5 * Rounded.u * w) (13 * w)); unabs; lra|].
    lra. }
  set (s := rnd (c + m)) in *.
  eapply Rle_trans;
    [apply (rounded_close _ (w / 2 + M + pan)
              (25.7 * We + 80 * Rounded.u * w) (1013 * w)); unabs; lra|].
  unfold We. nra.
Qed.

(** The share of the canvas size that a place unprojects to: [X] is the
    exact place of the share [t], [xhat] a place within [ex * w] of it. *)
Lemma backward_axis (w z pan t xhat ex : R) :
  0 < w -> 1 <= z <= 25 -> Rabs pan <= 1000 * w -> 0 <= t <= 1 ->
  0 <= ex <= 1 ->
  Rabs (xhat - (w / 2 + (w * t - w / 2) * z + pan)) <= ex * w ->
  Rabs (Rounded.div rnd
          (Rounded.add rnd
             (Rounded.div rnd
                (Rounded.sub rnd (Rounded.sub rnd xhat pan)
                                 (Rounded.div rnd w 2))
                z)
             (Rounded.div rnd w 2))
          w
        - t)
  <= 1.01 * ex + 40 * Rounded.u.
Proof.
  intros Hw Hz Hpan Ht Hex Hx. pose proof u_pos as Hu.
  assert (Hu1 : Rounded.u <= / 1000000)
    by (unfold Rounded.u; apply Rinv_le_contravar; lra).
  unfold Rounded.add, Rounded.sub, Rounded.mul, Rounded.div.
  assert (HB : 0 <= w * t <= w) by nra.
  assert (Hwe : 0 <= ex * w <= w) by nra.
  set (B := w * t) in *. set (We := ex * w) in *.
  assert (Hq1 : Rounded.u * We <= / 1000000 * We)
    by (apply Rmult_le_compat_r; lra).
  assert (Hq2 : 0 <= Rounded.u * w) by nra.
  assert (Hq3 : Rounded.u * (Rounded.u * w) <= / 1000000 * (Rounded.u * w))
    by (apply Rmult_le_compat_r; lra).
  assert (HM : Rabs ((B - w / 2) * z) <= 12.5 * w) by (unabs; nra).
  set (M := (B - w / 2) * z) in *.
  assert (H2 : Rabs (rnd (w / 2) - w / 2) <= 0.5 * Rounded.u * w).
  { eapply Rle_trans;
      [apply (rounded_close _ (w / 2) 0 (w / 2)); unabs; lra|]. lra. }
  set (c := rnd (w / 2)) in *.
  assert (H7 : Rabs (rnd (xhat - pan) - (w / 2 + M))
               <= 1.001 * We + 13.1 * Rounded.u * w).
  { eapply Rle_trans;
      [apply (rounded_close _ (w / 2 + M) We (13 * w)); unabs; lra|].
    lra. }
  set (b1 := rnd (xhat - pan)) in *.
  assert (H8 : Rabs (rnd (b1 - c) - M) <= 1.002 * We + 26.2 * Rounded.u * w).
  { eapply Rle_trans;
      [apply (rounded_close _ M
                (1.001 * We + 13.6 * Rounded.u * w) (12.5 * w)); unabs; lra|].
    lra. }
  set (b2 := rnd (b1 - c)) in *.
  assert (HD : M / z = B - w / 2) by (unfold M; field; lra).
  assert (H9 : Rabs (rnd (b2 / z) - (B - w / 2))
               <= 1.003 * We + 26.8 * Rounded.u * w).
  { rewrite <- HD. eapply Rle_trans;
      [apply (rounded_close _ (M / z)
                (1.002 * We + 26.2 * Rounded.u * w) (w / 2));
        [apply unzoomed_close; [lra|exact H8]|rewrite HD; unabs; lra]|].
    lra. }
  set (b3 := rnd (b2 / z)) in *.
  assert (H10 : Rabs (rnd (b3 + c) - B) <= 1.004 * We + 28.4 * Rounded.u * w).
  { eapply Rle_trans;
      [apply (rounded_close _ B
                (1.003 * We + 27.3 * Rounded.u * w) w); unabs; lra|].
    lra. }
  set (b4 := rnd (b3 + c)) in *.
  eapply Rle_trans;
    [apply (rounded_close _ t (1.004 * ex + 28.4 * Rounded.u) 1);
      [apply unscaled_close; [exact Hw|]|unabs; lra]|].
  - fold B. unfold We in H10. eapply Rle_trans; [exact H10|]. lra.
  - nra.
Qed.

Lemma lon_roundtrip (w z pan l : R) :
  0 < w -> 1 <= z <= 25 -> Rabs pan <= 1000 * w -> -180 <= l <= 180 ->
  let c := Rounded.div rnd w 2 in
  let b := Rounded.mul rnd w (Rounded.div rnd (Rounded.add rnd l 180) 360) in
  let x := Rounded.add rnd
             (Rounded.add rnd c (Rounded.mul rnd (Rounded.sub rnd b c) z))
             pan in
  let b' := Rounded.add rnd
              (Rounded.div rnd (Rounded.sub rnd (Rounded.sub rnd x pan) c) z)
              c in
  Rabs (Rounded.sub rnd (Rounded.mul rnd (Rounded.div rnd b' w) 360) 180 - l)
  <= 450000 * Rounded.u.
Proof.
  intros Hw Hz Hpan Hl c b x b'. pose proof u_pos as Hu.
  assert (Hu1 : Rounded.u <= / 1000000)
    by (unfold Rounded.u; apply Rinv_le_contravar; lra).
  assert (Hq : Rounded.u * Rounded.u <= / 1000000 * Rounded.u)
    by (apply Rmult_le_compat_r; lra).
  set (t := (l + 180) / 360).
  assert (Ht : 0 <= t <= 1) by (unfold t; lra).
  assert (Ha1 : Rabs (Rounded.add rnd l 180 - (l + 180)) <= 360 * Rounded.u).
  { unfold Rounded.add. eapply Rle_trans;
      [apply (rounded_close _ (l + 180) 0 360); unabs; lra|]. lra. }
  assert (Ha2 : Rabs (Rounded.div rnd (Rounded.add rnd l 180) 360 - t)
                <= 3 * Rounded.u).
  { unfold Rounded.div at 1. eapply Rle_trans;
      [apply (rounded_close _ t Rounded.u 1); unfold t; unabs; lra|]. lra. }
  pose proof (forward_axis w z pan t _ (3 * Rounded.u) Hw Hz Hpan Ht
                ltac:(lra) Ha2) as Hf.
  fold c b x in Hf.
  assert (Hx : Rabs (x - (w / 2 + (w * t - w / 2) * z + pan))
               <= 1181 * Rounded.u * w)
    by (eapply Rle_trans; [exact Hf|]; nra).
  pose proof (backward_axis w z pan t x (1181 * Rounded.u) Hw Hz Hpan Ht
                ltac:(lra) Hx) as Hb.
  fold c b' in Hb.
  set (share := Rounded.div rnd b' w) in *.
  assert (Hm : Rabs (Rounded.mul rnd share 360 - (l + 180))
               <= 445000 * Rounded.u).
  { unfold Rounded.mul. eapply Rle_trans;
      [apply (rounded_close _ (l + 180) (444000 * Rounded.u) 360);
        unfold t in Hb; unabs; lra|]. lra. }
  unfold Rounded.sub. eapply Rle_trans;
    [apply (rounded_close _ l (445000 * Rounded.u) 180); unabs; lra|]. lra.
Qed.

Lemma lat_roundtrip (h z pan l : R) :
  0 < h -> 1 <= z <= 25 -> Rabs pan <= 1000 * h -> -90 <= l <= 90 ->
  let c := Rounded.div rnd h 2 in
  let b := Rounded.mul rnd h (Rounded.div rnd (Rounded.sub rnd 90 l) 180) in
  let y := Rounded.add rnd
             (Rounded.add rnd c (Rounded.mul rnd (Rounded.sub rnd b c) z))
             pan in
  let b' := Rounded.add rnd
              (Rounded.div rnd (Rounded.sub rnd (Rounded.sub rnd y pan) c) z)
              c in
  Rabs (Rounded.sub rnd 90 (Rounded.mul rnd (Rounded.div rnd b' h) 180) - l)
  <= 225000 * Rounded.u.
Proof.
  intros Hh Hz Hpan Hl c b y b'. pose proof u_pos as Hu.
  assert (Hu1 : Rounded.u <= / 1000000)
    by (unfold Rounded.u; apply Rinv_le_contravar; lra).
  assert (Hq : Rounded.u * Rounded.u <= / 1000000 * Rounded.u)
    by (apply Rmult_le_compat_r; lra).
  set (t := (90 - l) / 180).
  assert (Ht : 0 <= t <= 1) by (unfold t; lra).
  assert (Ha1 : Rabs (Rounded.sub rnd 90 l - (90 - l)) <= 180 * Rounded.u).
  { unfold Rounded.sub. eapply Rle_trans;
      [apply (rounded_close _ (90 - l) 0 180); unabs; lra|]. lra. }
  assert (Ha2 : Rabs (Rounded.div rnd (Rounded.sub rnd 90 l) 180 - t)
                <= 3 * Rounded.u).
  { unfold Rounded.div at 1. eapply Rle_trans;
      [apply (rounded_close _ t Rounded.u 1); unfold t; unabs; lra|]. lra. }
  pose proof (forward_axis h z pan t _ (3 * Rounded.u) Hh Hz Hpan Ht
                ltac:(lra) Ha2) as Hf.
  fold c b y in Hf.
  assert (Hy : Rabs (y - (h / 2 + (h * t - h / 2) * z + pan))
               <= 1181 * Rounded.u * h)
    by (eapply Rle_trans; [exact Hf|]; nra).
  pose proof (backward_axis h z pan t y (1181 * Rounded.u) Hh Hz Hpan Ht
                ltac:(lra) Hy) as Hb.
  fold c b' in Hb.
  set (share := Rounded.div rnd b' h) in *.
  assert (Hm : Rabs (Rounded.mul rnd share 180 - (90 - l))
               <= 223000 * Rounded.u).
  { unfold Rounded.mul. eapply Rle_trans;
      [apply (rounded_close _ (90 - l) (222000 * Rounded.u) 180);
        unfold t in Hb; unabs; lra|]. lra. }
  unfold Rounded.sub. eapply Rle_trans;
    [apply (rounded_close _ l (223000 * Rounded.u) 90); unabs; lra|]. lra.
Qed.

End RoundingError.

Lemma tolerance_covers_rounding : 450000 * Rounded.u <= 1e-6.
Proof. unfold Rounded.u. lra. Qed.

(** C1.  The round trip of the projection, with every operation of
    [toCanvas] and [toLatLon] rounded with relative error at most [2^-53]
    as binary64 does when nothing overflows or underflows: for every
    geographic point with [lat] in [-90, 90] and [lon] in [-180, 180] and
    every renderer whose zoom lies between [minZoom >= 1] and
    [maxZoom <= 25], whose canvas is between 1 and 1e9 pixels wide and high,
    and whose pan is at most a thousand canvas sizes, unprojecting the
    projection of the point gives the point back within [1e-6] on both
    coordinates.  [constrainPan] keeps the pan within twelve canvas sizes;
    without a bound on the pan the round trip leaves the tolerance. *)
Theorem unproject_project_roundtrip
  (rnd : R -> R) (this : Renderer) (p : LatLon) :
  (forall v, Rabs (rnd v - v) <= Rounded.u * Rabs v) ->
  -90 <= lat p <= 90 -> -180 <= lon p <= 180 ->
  1 <= minZoom this -> maxZoom this <= 25 ->
  minZoom this <= zoom this <= maxZoom this ->
  1 <= width (canvas this) <= 1e9 -> 1 <= height (canvas this) <= 1e9 ->
  Rabs (panX this) <= 1000 * width (canvas this) ->
  Rabs (panY this) <= 1000 * height (canvas this) ->
  let q := Rounded.toCanvas rnd this (lat p) (lon p) in
  let p' := Rounded.toLatLon rnd this (x q) (y q) in
  Rabs (lat p' - lat p) <= 1e-6 /\ Rabs (lon p' - lon p) <= 1e-6.
Proof.
  intros Hr Hlat Hlon Hmin Hmax Hz Hw Hh HpanX HpanY q p'.
  pose proof tolerance_covers_rounding as Htol. pose proof u_pos as Hu.
  split.
  - eapply Rle_trans;
      [apply (lat_roundtrip rnd Hr (height (canvas this)) (zoom this)
                (panY this) (lat p)); lra|lra].
  - eapply Rle_trans;
      [apply (lon_roundtrip rnd Hr (width (canvas this)) (zoom this)
                (panX this) (lon p)); lra|lra].
Qed.

Lemma unproject_project_roundtrip_witness :
  let this := newRenderer (mkCanvas 800 400) in
  let p := {| lat := 48; lon := 2 |} in
  let q := Rounded.toCanvas Rounded.round53 this (lat p) (lon p) in
  let p' := Rounded.toLatLon Rounded.round53 this (x q) (y q) in
  Rabs (lat p' - lat p) <= 1e-6 /\ Rabs (lon p' - lon p) <= 1e-6.
Proof.
  apply (unproject_project_roundtrip Rounded.round53
           (newRenderer (mkCanvas 800 400)) {| lat := 48; lon := 2 |}
           round53_error); cbn; try lra;
    rewrite Rabs_R0; lra.
Defined.

(** C1, counterexample.  On binary64 numbers, with a canvas of 800 by 400
    pixels at zoom 1 and a vertical pan of [1e11] pixels, the round trip of
    48 degrees north, 2 degrees east comes back more than [1e-6] degrees
    away in latitude. *)
Lemma roundtrip_lost_at_large_pan :
  let q := IEEE.toCanvas 800 400 1 0 100000000000 48 2 in
  let p' := IEEE.toLatLon 800 400 1 0 100000000000 (fst q) (snd q) in
  (1 / 1000000 <? abs (fst p' - 48))%float = true.
Proof. vm_compute. reflexivity. Qed.

(** At the largest pan that the bound above allows, a thousand canvas sizes,
    the same round trip on binary64 numbers stays within the tolerance. *)
Lemma roundtrip_kept_at_bounded_pan :
  let q := IEEE.toCanvas 800 400 1 800000 400000 48 2 in
  let p' := IEEE.toLatLon 800 400 1 800000 400000 (fst q) (snd q) in
  (abs (fst p' - 48) <=? 1 / 1000000)%float = true /\
  (abs (snd p' - 2) <=? 1 / 1000000)%float = true.
Proof. vm_compute. split; reflexivity. Qed.

(** ** The viewport invariant *)

Lemma constrainPan_clamped (this : Renderer) :
  0 <= width (canvas this) -> 0 <= height (canvas this) -> 1 <= zoom this ->
  panClamped (constrainPan this).
Proof.
  intros Hw Hh Hz. unfold panClamped, constrainPan; cbn.
  split; apply Rabs_between, Rmax_Rmin_between; nra.
Qed.

Lemma wheelZoom_in_range (this : Renderer) (deltaY : R) :
  minZoom this <= maxZoom this ->
  minZoom this <= wheelZoom this deltaY <= maxZoom this.
Proof. intros; unfold wheelZoom; js_decide. Qed.

Section Invariant.

Variable c : Canvas.
Hypothesis width_nonneg : 0 <= width c.
Hypothesis height_nonneg : 0 <= height c.

Lemma newRenderer_reachableView : reachableView c (newRenderer c).
Proof.
  unfold reachableView, zoomInRange, panClamped; cbn.
  repeat split; try lra;
    match goal with |- Rabs 0 <= _ => rewrite Rabs_R0; lra end.
Qed.

Lemma constrainPan_reachableView (this : Renderer) :
  canvas this = c -> minZoom this = 1.0 -> maxZoom this = 25.0 ->
  zoomInRange this -> reachableView c (constrainPan this).
Proof.
  intros Hc Hmin Hmax Hz. unfold zoomInRange in Hz.
  repeat split; cbn; try assumption; try lra;
    apply constrainPan_clamped; rewrite ?Hc; try assumption; lra.
Qed.

Lemma handle_reachableView (this : Renderer) (e : Event) :
  reachableView c this -> reachableView c (handle this e).
Proof.
  intros (Hc & Hmin & Hmax & Hz & Hp). destruct e as [dY mX mY|mX mY|mX mY| |]; cbn.
  - unfold handleWheel.
    destruct (negb (wheelZoom this dY =? zoom this)); cbn;
      [|unfold reachableView; tauto].
    apply constrainPan_reachableView; cbn; try assumption.
    unfold zoomInRange; cbn. apply wheelZoom_in_range. lra.
  - repeat split; cbn; try assumption; apply Hz || apply Hp.
  - unfold handleMouseMove. destruct (isDragging this); cbn;
      [|unfold reachableView; tauto].
    apply constrainPan_reachableView; cbn; assumption.
  - repeat split; cbn; try assumption; apply Hz || apply Hp.
  - unfold resetView, reachableView, zoomInRange, panClamped; cbn.
    rewrite Hc, Hmin, Hmax.
    repeat split; try lra;
      match goal with |- Rabs 0 <= _ => rewrite Rabs_R0; lra end.
Qed.

Lemma handleAll_reachableView (es : list Event) (this : Renderer) :
  reachableView c this -> reachableView c (handleAll this es).
Proof.
  revert this. induction es as [|e es IH]; intros this H; cbn.
  - exact H.
  - apply IH, handle_reachableView, H.
Qed.

End Invariant.

(** C3.  From the constructor's state, on a canvas of non-negative width and
    height, after every finite sequence of [handleWheel], [handleMouseDown],
    [handleMouseMove], [handleMouseUp] and [resetView] calls the zoom lies in
    [[minZoom, maxZoom]], [|panX| <= (width*zoom - width)/2] and
    [|panY| <= (height*zoom - height)/2]; and when the zoom equals [minZoom]
    the pan is [(0, 0)]. *)
Theorem pan_clamp_invariant (c : Canvas) (es : list Event) :
  0 <= width c -> 0 <= height c ->
  let this := handleAll (newRenderer c) es in
  minZoom this <= zoom this <= maxZoom this /\
  Rabs (panX this) <= (width c * zoom this - width c) / 2 /\
  Rabs (panY this) <= (height c * zoom this - height c) / 2 /\
  (zoom this = minZoom this -> panX this = 0 /\ panY this = 0).
Proof.
  intros Hw Hh this.
  destruct (handleAll_reachableView c Hw Hh es (newRenderer c)
              (newRenderer_reachableView c)) as (Hc & Hmin & Hmax & Hz & Hp).
  fold this in Hc, Hmin, Hmax, Hz, Hp.
  unfold zoomInRange in Hz. destruct Hp as [Hx Hy]. rewrite Hc in Hx, Hy.
  split; [exact Hz|]. split; [exact Hx|]. split; [exact Hy|].
  intros Heq. apply between_Rabs in Hx. apply between_Rabs in Hy.
  rewrite Heq, Hmin in Hx, Hy. split; lra.
Qed.

Lemma pan_clamp_invariant_witness :
  let this :=
    handleAll (newRenderer (mkCanvas 800 400))
      [Wheel (-1) 400 200; MouseDown 10 10; MouseMove 50 60; MouseUp;
       Wheel 1 0 0; ResetView] in
  minZoom this <= zoom this <= maxZoom this /\
  Rabs (panX this) <= (800 * zoom this - 800) / 2 /\
  Rabs (panY this) <= (400 * zoom this - 400) / 2 /\
  (zoom this = minZoom this -> panX this = 0 /\ panY this = 0).
Proof.
  apply (pan_clamp_invariant (mkCanvas 800 400)
           [Wheel (-1) 400 200; MouseDown 10 10; MouseMove 50 60; MouseUp;
            Wheel 1 0 0; ResetView]); cbn; lra.
Defined.

(** ** Wheel zoom *)

Lemma handleWheel_same (this : Renderer) (deltaY mouseX mouseY : R) :
  wheelZoom this deltaY = zoom this ->
  handleWheel this deltaY mouseX mouseY = (this, true).
Proof.
  intros H. unfold handleWheel. rewrite H.
  replace (zoom this =? zoom this) with true; [reflexivity|].
  symmetry; apply Reqb_true; reflexivity.
Qed.


Lemma wheelZoom_at_maxZoom (this : Renderer) (deltaY : R) :
  0 <= maxZoom this -> minZoom this <= maxZoom this ->
  zoom this = maxZoom this -> deltaY <= 0 ->
  wheelZoom this deltaY = zoom this.
Proof. intros ? ? Hz ?. unfold wheelZoom. rewrite Hz. js_decide. Qed.

Lemma wheelZoom_at_minZoom (this : Renderer) (deltaY : R) :
  0 <= minZoom this -> minZoom this <= maxZoom this ->
  zoom this = minZoom this -> 0 < deltaY ->
  wheelZoom this deltaY = zoom this.
Proof. intros ? ? Hz ?. unfold wheelZoom. rewrite Hz. js_decide. Qed.

(** C10.  When the scaled and clamped zoom of a wheel event equals the current
    zoom - as it does when the zoom is already [maxZoom] and the event zooms
    in, or already [minZoom] and the event zooms out, for limits
    [0 <= minZoom <= maxZoom] - [handleWheel] returns the renderer as it was:
    zoom, pan and every other field keep their values. *)
Theorem saturated_wheel_changes_nothing
  (this : Renderer) (deltaY mouseX mouseY : R) :
  wheelZoom this deltaY = zoom this \/
  (0 <= minZoom this <= maxZoom this /\
   ((zoom this = maxZoom this /\ deltaY <= 0) \/
    (zoom this = minZoom this /\ 0 < deltaY))) ->
  handleWheel this deltaY mouseX mouseY = (this, true).
Proof.
  intros [H|[Hlim [[Hz Hd]|[Hz Hd]]]]; apply handleWheel_same.
  - exact H.
  - apply wheelZoom_at_maxZoom; lra.
  - apply wheelZoom_at_minZoom; lra.
Qed.

Lemma saturated_wheel_changes_nothing_witness :
  let this :=
    {| canvas := mkCanvas 800 400; zoom := 25.0; minZoom := 1.0;
       maxZoom := 25.0; panX := 120; panY := -35; isDragging := false;
       dragStartX := 0; dragStartY := 0; lastPanX := 0; lastPanY := 0 |} in
  handleWheel this (-100) 300 250 = (this, true).
Proof.
  intros this.
  apply (saturated_wheel_changes_nothing this (-100) 300 250).
  right. cbn. split; [lra|]. left. split; [reflexivity|lra].
Defined.

(** ** Zoom anchoring *)





Lemma set_pan_same (this : Renderer) :
  set_pan this (panX this) (panY this) = this.
Proof. destruct this; reflexivity. Qed.

Lemma constrainPan_inactive (this : Renderer) :
  let maxPanX := (width (canvas this) * zoom this - width (canvas this)) / 2 in
  let maxPanY := (height (canvas this) * zoom this - height (canvas this)) / 2 in
  - maxPanX <= panX this <= maxPanX -> - maxPanY <= panY this <= maxPanY ->
  constrainPan this = this.
Proof.
  intros mx my Hx Hy. unfold constrainPan.
  fold mx my. rewrite (Rmax_Rmin_id mx), (Rmax_Rmin_id my) by assumption.
  apply set_pan_same.
Qed.







(** ** Antimeridian adjustment *)

Lemma adjustedLon_cases (prev : Position) (lon : R) :
  let adj := adjustedLon (Some prev) lon in
  (180 < lon - fst prev /\ adj = lon - 360) \/
  (lon - fst prev < -180 /\ adj = lon + 360) \/
  (-180 <= lon - fst prev <= 180 /\ adj = lon).
Proof.
  destruct prev as [prevLon prevLat]; cbn.
  destruct (lon - prevLon >? 180) eqn:Hgt.
  - apply Rgtb_true in Hgt. left; split; [lra|reflexivity].
  - apply Rgtb_false in Hgt.
    destruct (lon - prevLon <? -180) eqn:Hlt.
    + apply Rltb_true in Hlt. right; left; split; [lra|reflexivity].
    + apply Rltb_false in Hlt. right; right; split; [lra|reflexivity].
Qed.

Lemma adjustedLons_split (prev : option Position) (pre : Ring) (p q : Position)
  (post : Ring) :
  adjustedLons prev (pre ++ p :: q :: post)
  = adjustedLons prev (pre ++ [p])
    ++ adjustedLon (Some p) (fst q) :: adjustedLons (Some q) post.
Proof.
  revert prev. induction pre as [|[lon lat] pre IH]; intros prev.
  - destruct p as [plon plat], q as [qlon qlat]; reflexivity.
  - cbn. rewrite IH. reflexivity.
Qed.

Lemma adjustedLons_offsets (prev : option Position) (ring : Ring) :
  Forall2 (fun adj p => adj = fst p \/ adj = fst p - 360 \/ adj = fst p + 360)
          (adjustedLons prev ring) ring.
Proof.
  revert prev. induction ring as [|[lon lat] ring IH]; intros prev; cbn.
  - constructor.
  - constructor; [|apply IH].
    destruct prev as [prev|]; [|left; reflexivity].
    destruct (adjustedLon_cases prev lon) as [[_ H]|[[_ H]|[_ H]]];
      cbn in *; rewrite H; auto.
Qed.

Lemma ringPath_xs (this : Renderer) (prev : option Position) (ring : Ring) :
  pathXs (ringPath this prev ring)
  = map (fun q => x (toCanvas this (snd (snd q)) (fst q)))
        (combine (adjustedLons prev ring) ring).
Proof.
  revert prev. induction ring as [|[lon lat] ring IH]; intros prev; cbn.
  - reflexivity.
  - destruct prev; cbn; rewrite IH; reflexivity.
Qed.

Lemma toCanvas_x_diff (this : Renderer) (latA lonA latB lonB : R) :
  x (toCanvas this latB lonB) - x (toCanvas this latA lonA)
  = width (canvas this) * zoom this * ((lonB - lonA) / 360).
Proof. unfold toCanvas; cbn. field. Qed.

(** What [drawPolygon] does at the antimeridian.  Each point of a ring is
    drawn at its own longitude or at that longitude ∓360°, and the choice
    depends on the raw longitude of the point before it alone: a delta above
    180° subtracts 360°, a delta below -180° adds 360°, any other delta leaves
    the longitude as it is, whatever happened earlier in the ring (no offset
    is carried on).  Where the first two points of a ring, both with
    longitudes in [-180, 180], cross the antimeridian, the second is drawn on
    the same side as the first, less than half the scaled map width away.
    The ring is only read. *)
Lemma antimeridian_adjustment_per_point
  (this : Renderer) (pre post : Ring) (p q : Position)
  (lon0 lat0 lon1 lat1 : R) (rest : Ring) :
  0 < width (canvas this) -> 0 < zoom this ->
  -180 <= lon0 <= 180 -> -180 <= lon1 <= 180 ->
  let ring := pre ++ p :: q :: post in
  let adj := adjustedLon (Some (lon0, lat0)) lon1 in
  let x0 := x (toCanvas this lat0 lon0) in
  let x1 := x (toCanvas this lat1 adj) in
  let half := width (canvas this) * zoom this / 2 in
  Forall2 (fun a r => a = fst r \/ a = fst r - 360 \/ a = fst r + 360)
          (adjustedLons None ring) ring /\
  adjustedLons None ring
  = adjustedLons None (pre ++ [p])
    ++ adjustedLon (Some p) (fst q) :: adjustedLons (Some q) post /\
  pathXs (drawPolygon this [ring])
  = (if (List.length ring <? 3)%nat then []
     else map (fun a => x (toCanvas this (snd (snd a)) (fst a)))
              (combine (adjustedLons None ring) ring)) /\
  (-180 <= lon1 - lon0 <= 180 -> adj = lon1) /\
  (lon1 - lon0 < -180 -> adj = lon1 + 360 /\ x0 <= x1 < x0 + half) /\
  (180 < lon1 - lon0 -> adj = lon1 - 360 /\ x0 - half < x1 <= x0) /\
  pathXs (ringPath this None ((lon0, lat0) :: (lon1, lat1) :: rest))
  = x0 :: x1 :: pathXs (ringPath this (Some (lon1, lat1)) rest).
Proof.
  intros Hw Hz H0 H1 ring adj x0 x1 half.
  assert (Hwz : 0 < width (canvas this) * zoom this)
    by (apply Rmult_lt_0_compat; assumption).
  assert (Hd : x1 - x0 = width (canvas this) * zoom this * ((adj - lon0) / 360))
    by apply toCanvas_x_diff.
  assert (Hpath : pathXs (ringPath this None ((lon0, lat0) :: (lon1, lat1) :: rest))
                  = x0 :: x1 :: pathXs (ringPath this (Some (lon1, lat1)) rest))
    by reflexivity.
  pose proof (adjustedLon_cases (lon0, lat0) lon1) as Hcases.
  cbn [fst] in Hcases.
  change (adjustedLon (Some (lon0, lat0)) lon1) with adj in Hcases.
  clearbody x0 x1 adj. unfold half.
  split; [apply adjustedLons_offsets|].
  split; [apply adjustedLons_split|].
  split.
  { unfold drawPolygon, drawRing; cbn [flat_map].
    destruct (List.length ring <? 3)%nat; [reflexivity|].
    rewrite app_nil_r. cbn [app pathXs].
    assert (Htail : forall l, pathXs (l ++ [ClosePath; Fill; Stroke]) = pathXs l).
    { induction l as [|[] l IH]; cbn; rewrite ?IH; reflexivity. }
    rewrite Htail. apply ringPath_xs. }
  split; [|split; [|split; [|exact Hpath]]]; intros Hcase;
    destruct Hcases as [[Hc Ha]|[[Hc Ha]|[Hc Ha]]];
    try (exfalso; lra); try exact Ha;
    (split; [exact Ha|rewrite Ha in Hd; nra]).
Qed.

Lemma antimeridian_adjustment_at_179 :
  let this := newRenderer (mkCanvas 720 360) in
  let adj := adjustedLon (Some (179, 10)) (-179) in
  let x0 := x (toCanvas this 10 179) in
  let x1 := x (toCanvas this 12 adj) in
  adj = -179 + 360 /\ x0 <= x1 < x0 + 720 * 1.0 / 2.
Proof.
  intros this adj x0 x1.
  assert (Hw : 0 < width (canvas this)) by (cbn; lra).
  assert (Hz : 0 < zoom this) by (cbn; lra).
  assert (H0 : -180 <= 179 <= 180) by lra.
  assert (H1 : -180 <= -179 <= 180) by lra.
  destruct (antimeridian_adjustment_per_point this [] [(-178, 14)]
              (179, 10) (-179, 12) 179 10 (-179) 12 [(-178, 14)] Hw Hz H0 H1)
    as (_ & _ & _ & _ & Heast & _).
  apply Heast. lra.
Defined.

(** C2 fails on the code.  In the ring with longitudes 179°, -179°, -178° the
    second point is drawn at 181°, and the third at its raw -178°, where the
    running adjustment of the claim gives 182°: on a 720 pixel wide canvas the
    path goes from x = 718 to 722 and then back across the map to 4. *)
Theorem antimeridian_adjustment_not_cumulative :
  let ring := [(179, 0); (-179, 0); (-178, 0)] in
  adjustedLons None ring = [179; 181; -178] /\
  cumulativeLons 0 None ring = [179; 181; 182] /\
  adjustedLons None ring <> cumulativeLons 0 None ring /\
  pathXs (drawPolygon (newRenderer (mkCanvas 720 360)) [ring]) = [718; 722; 4].
Proof.
  intros ring.
  assert (Ha : adjustedLons None ring = [179; 181; -178]).
  { cbn. js_decide. repeat f_equal; lra. }
  assert (Hc : cumulativeLons 0 None ring = [179; 181; 182]).
  { cbn. js_decide. repeat f_equal; lra. }
  split; [exact Ha|]. split; [exact Hc|]. split.
  - rewrite Ha, Hc. intros H. injection H as H. lra.
  - unfold drawPolygon, drawRing, toCanvas; cbn. js_decide.
    repeat f_equal; lra.
Qed.

(** ** Ray casting *)

Lemma straddles_sym (lat yi yj : R) : straddles lat yi yj = straddles lat yj yi.
Proof.
  unfold straddles. destruct (yi >? lat), (yj >? lat); reflexivity.
Qed.

Lemma straddles_divisor (lat yi yj : R) :
  straddles lat yi yj = true -> yj - yi <> 0.
Proof.
  unfold straddles. intros H Heq.
  assert (yj = yi) by lra. subst yj.
  destruct (yi >? lat); discriminate.
Qed.

Lemma intersect_sym (lat lon : R) (a b : Position) :
  intersect lat lon a b = intersect lat lon b a.
Proof.
  destruct a as [xa ya], b as [xb yb]. unfold intersect.
  rewrite (straddles_sym lat yb ya).
  destruct (straddles lat ya yb) eqn:Hs; [|reflexivity].
  apply straddles_divisor in Hs. cbn [andb]. f_equal.
  field. split; lra.
Qed.

Lemma rayLoop_parity (lat lon : R) (pj : Position) (rest : list Position)
  (inside : bool) :
  rayLoop lat lon pj rest inside
  = xorb inside
      (Nat.odd (List.length
         (filter (fun e => intersect lat lon (fst e) (snd e)) (edgesFrom pj rest)))).
Proof.
  revert pj inside. induction rest as [|pi rest IH]; intros pj inside; cbn.
  - destruct inside; reflexivity.
  - rewrite IH. destruct (intersect lat lon pi pj); cbn [List.length].
    + rewrite Nat.odd_succ, <- Nat.negb_odd.
      destruct inside, (Nat.odd _); reflexivity.
    + reflexivity.
Qed.

Lemma rayCast_parity (lat lon : R) (ring : Ring) :
  rayCast lat lon ring = Nat.odd (crossings lat lon ring).
Proof. unfold rayCast, crossings, edges. rewrite rayLoop_parity. reflexivity. Qed.

Lemma rayCast_degenerate (lat lon : R) (ring : Ring) :
  (List.length ring < 3)%nat -> rayCast lat lon ring = false.
Proof.
  intros Hlen. destruct ring as [|a [|b [|c ring]]]; cbn in Hlen; try lia.
  - reflexivity.
  - unfold rayCast; cbn. destruct a as [xa ya]; unfold intersect, straddles.
    destruct (ya >? lat); reflexivity.
  - unfold rayCast; cbn. rewrite (intersect_sym lat lon b a).
    destruct (intersect lat lon a b); reflexivity.
Qed.

Lemma anyPolygon_outer_rings (lat lon : R) (parts : list (Ring * list Ring)) :
  anyPolygon lat lon (map (fun part => fst part :: snd part) parts)
  = Some (existsb (fun part => rayCast lat lon (fst part)) parts).
Proof.
  induction parts as [|[ring holes] parts IH]; cbn [map anyPolygon existsb].
  - reflexivity.
  - unfold isPointInPolygon. cbn [fst snd].
    destruct (rayCast lat lon ring); [reflexivity|exact IH].
Qed.

Lemma square_contains_5_5 : rayCast 5 5 square = true.
Proof.
  unfold rayCast, square; cbn. unfold intersect, straddles.
  js_decide.
Qed.

Lemma square_excludes_15_15 : rayCast 15 15 square = false.
Proof.
  unfold rayCast, square; cbn. unfold intersect, straddles.
  js_decide.
Qed.

(** C5.  The point-in-polygon test is the parity of the number of edges of the
    first ring that the ray from the point crosses; the rings after the first
    have no influence; a [Polygon] feature contains a point when its first
    ring does, and a [MultiPolygon] feature when the first ring of at least
    one of its parts does; the square ring [(0,0),(0,10),(10,10),(10,0)]
    contains (5,5) and does not contain (15,15), over the reals and on
    binary64 numbers alike. *)
Theorem point_in_polygon_outer_ring_even_odd
  (lat lon : R) (ring : Ring) (holes holes' : list Ring)
  (parts : list (Ring * list Ring)) (name : string) :
  let partCoordinates := map (fun part => fst part :: snd part) parts in
  isPointInPolygon lat lon (ring :: holes)
  = Some (Nat.odd (crossings lat lon ring)) /\
  isPointInPolygon lat lon (ring :: holes)
  = isPointInPolygon lat lon (ring :: holes') /\
  isPointInCountry lat lon (mkFeature name (Polygon (ring :: holes)))
  = Some (rayCast lat lon ring) /\
  isPointInCountry lat lon (mkFeature name (MultiPolygon partCoordinates))
  = Some (existsb (fun part => rayCast lat lon (fst part)) parts) /\
  (isPointInCountry lat lon (mkFeature name (MultiPolygon partCoordinates))
   = Some true
   <-> exists part, In part parts /\ rayCast lat lon (fst part) = true) /\
  isPointInPolygon 5 5 [square] = Some true /\
  isPointInPolygon 15 15 [square] = Some false /\
  IEEE.isPointInPolygon 5 5 [IEEE.square] = Some true /\
  IEEE.isPointInPolygon 15 15 [IEEE.square] = Some false.
Proof.
  intros partCoordinates. subst partCoordinates.
  unfold isPointInCountry; cbn [geometry].
  rewrite anyPolygon_outer_rings. unfold isPointInPolygon.
  rewrite square_contains_5_5, square_excludes_15_15, rayCast_parity.
  repeat split; try reflexivity.
  - intros H. injection H as H. apply existsb_exists in H. exact H.
  - intros H. f_equal. apply existsb_exists. exact H.
Qed.

(** Over the reals a ring with fewer than three points contains no point: the
    hit tests of the renderer and of the frontline data both return [false]
    without failing; wherever the parity condition of an edge holds, the
    divisor [yj - yi] of that edge is not zero; and the drawing path skips
    such a ring. *)
Lemma degenerate_ring_exact_arithmetic
  (this : Renderer) (lat lon : R) (ring : Ring) (holes : list Ring) :
  (List.length ring < 3)%nat ->
  isPointInPolygon lat lon (ring :: holes) = Some false /\
  UkraineFrontlineData.pointInPolygon (lon, lat) ring = false /\
  (forall yi yj, straddles lat yi yj = true -> yj - yi <> 0) /\
  drawPolygon this [ring] = [].
Proof.
  intros Hlen. split; [|split; [|split]].
  - unfold isPointInPolygon. rewrite rayCast_degenerate by exact Hlen.
    reflexivity.
  - apply (rayCast_degenerate lat lon ring Hlen).
  - intros yi yj. apply straddles_divisor.
  - unfold drawPolygon, drawRing; cbn [flat_map].
    apply Nat.ltb_lt in Hlen. rewrite Hlen. reflexivity.
Qed.

(** C9 fails on binary64 numbers.  For the two-point ring [[0,0],[1,3]] and
    the point at lat 1, lon 1/3 (the number [0.3333333333333333]) both hit
    tests return [true].  The loop visits the one edge of the ring twice, once
    from each end, and the parity condition holds both times; the intercept
    computed from [(0,0)] is [1*1/3 + 0 = 0.3333333333333333], the one
    computed from [(1,3)] is [(-1)*(-2)/(-3) + 1 = 0.33333333333333337], and
    the longitude is below the second only, so [inside] is toggled once. *)
Theorem two_point_ring_contains_binary64 :
  let ring := [(0, 0); (1, 3)]%float in
  let lat := 1%float in
  let lon := (1 / 3)%float in
  List.length ring = 2%nat /\
  IEEE.intersect lat lon (0, 0)%float (1, 3)%float = false /\
  IEEE.intersect lat lon (1, 3)%float (0, 0)%float = true /\
  IEEE.isPointInPolygon lat lon [ring] = Some true /\
  IEEE.pointInPolygon (lon, lat) ring = true.
Proof. vm_compute. repeat split; reflexivity. Qed.

(** ** Distance to a segment *)

Lemma sum_squares_zero (a b : R) : a * a + b * b = 0 -> a = 0 /\ b = 0.
Proof. intros H. split; nra. Qed.

(** The squared distance from the point to the point of the line at
    parameter [u], compared at two parameters. *)
Lemma squared_distance_diff (px py x1 y1 dx dy s t : R) :
  ((px - (x1 + s * dx)) * (px - (x1 + s * dx))
   + (py - (y1 + s * dy)) * (py - (y1 + s * dy)))
  - ((px - (x1 + t * dx)) * (px - (x1 + t * dx))
     + (py - (y1 + t * dy)) * (py - (y1 + t * dy)))
  = (s - t) * ((s + t) * (dx * dx + dy * dy)
               - 2 * ((px - x1) * dx + (py - y1) * dy)).
Proof. ring. Qed.

Lemma clamped_projection_minimal (L q s : R) :
  0 < L -> 0 <= s <= 1 ->
  let t := Rmax 0 (Rmin 1 (q / L)) in
  0 <= t <= 1 /\ 0 <= (s - t) * ((s + t) * L - 2 * q).
Proof.
  intros HL Hs t.
  assert (Hq : q = q / L * L) by (field; lra).
  set (t0 := q / L) in *. subst t. clearbody t0.
  unfold Rmax, Rmin.
  destruct (Rle_dec 1 t0) as [H1|H1];
    [destruct (Rle_dec 0 1) as [H0|H0]|destruct (Rle_dec 0 t0) as [H0|H0]];
    try lra; (split; [lra|]); rewrite Hq.
  - replace ((s - 1) * ((s + 1) * L - 2 * (t0 * L)))
      with ((1 - s) * L * ((1 - s) + 2 * (t0 - 1))) by ring.
    apply Rmult_le_pos; [apply Rmult_le_pos|]; lra.
  - replace ((s - t0) * ((s + t0) * L - 2 * (t0 * L)))
      with ((s - t0) * (s - t0) * L) by ring.
    apply Rmult_le_pos; [apply (Rle_0_sqr (s - t0))|lra].
  - replace ((s - 0) * ((s + 0) * L - 2 * (t0 * L)))
      with (s * L * (s + 2 * (- t0))) by ring.
    apply Rmult_le_pos; [apply Rmult_le_pos|]; lra.
Qed.

Lemma distance_nondegenerate (px py x1 y1 x2 y2 : R) :
  (x2 - x1) * (x2 - x1) + (y2 - y1) * (y2 - y1) <> 0 ->
  let t := Rmax 0 (Rmin 1 (((px - x1) * (x2 - x1) + (py - y1) * (y2 - y1))
                           / ((x2 - x1) * (x2 - x1) + (y2 - y1) * (y2 - y1)))) in
  distanceToLineSegment px py x1 y1 x2 y2
  = euclid px py (x1 + t * (x2 - x1)) (y1 + t * (y2 - y1)).
Proof.
  intros HL t. unfold distanceToLineSegment.
  apply Reqb_false in HL. rewrite HL. reflexivity.
Qed.

Lemma distance_degenerate (px py x1 y1 x2 y2 : R) :
  (x2 - x1) * (x2 - x1) + (y2 - y1) * (y2 - y1) = 0 ->
  distanceToLineSegment px py x1 y1 x2 y2 = euclid px py x1 y1.
Proof.
  intros HL. unfold distanceToLineSegment.
  apply Reqb_true in HL. rewrite HL. reflexivity.
Qed.

Lemma distance_attained (px py x1 y1 x2 y2 : R) :
  exists t, 0 <= t <= 1 /\
    distanceToLineSegment px py x1 y1 x2 y2
    = euclid px py (x1 + t * (x2 - x1)) (y1 + t * (y2 - y1)).
Proof.
  destruct (Req_dec_T ((x2 - x1) * (x2 - x1) + (y2 - y1) * (y2 - y1)) 0)
    as [HL|HL].
  - exists 0. split; [lra|]. rewrite distance_degenerate by exact HL.
    unfold euclid. f_equal. ring.
  - eexists. split; [|apply distance_nondegenerate; exact HL]. js_decide.
Qed.

Lemma distance_minimal (px py x1 y1 x2 y2 s : R) :
  0 <= s <= 1 ->
  distanceToLineSegment px py x1 y1 x2 y2
  <= euclid px py (x1 + s * (x2 - x1)) (y1 + s * (y2 - y1)).
Proof.
  intros Hs.
  destruct (Req_dec_T ((x2 - x1) * (x2 - x1) + (y2 - y1) * (y2 - y1)) 0)
    as [HL|HL].
  - rewrite distance_degenerate by exact HL.
    destruct (sum_squares_zero _ _ HL) as [Hx Hy]. rewrite Hx, Hy.
    unfold euclid. apply sqrt_le_1_alt. lra.
  - rewrite distance_nondegenerate by exact HL.
    set (L := (x2 - x1) * (x2 - x1) + (y2 - y1) * (y2 - y1)) in *.
    set (q := (px - x1) * (x2 - x1) + (py - y1) * (y2 - y1)).
    assert (HLpos : 0 < L).
    { pose proof (Rle_0_sqr (x2 - x1)) as Hx.
      pose proof (Rle_0_sqr (y2 - y1)) as Hy.
      unfold Rsqr in Hx, Hy. unfold L in *. lra. }
    destruct (clamped_projection_minimal L q s HLpos Hs) as [_ Hmin].
    unfold euclid. apply sqrt_le_1_alt.
    pose proof (squared_distance_diff px py x1 y1 (x2 - x1) (y2 - y1) s
                  (Rmax 0 (Rmin 1 (q / L)))) as Hd.
    fold L q in Hd. lra.
Qed.

Lemma sqrt_of_square (v a : R) : 0 <= a -> v = a * a -> sqrt v = a.
Proof. intros Ha Hv. rewrite Hv. apply sqrt_square, Ha. Qed.

Lemma distance_example_above : distanceToLineSegment 5 5 0 0 10 0 = 5.
Proof.
  unfold distanceToLineSegment. js_decide; apply sqrt_of_square; lra.
Qed.

Lemma distance_example_before : distanceToLineSegment (-5) 0 0 0 10 0 = 5.
Proof.
  unfold distanceToLineSegment. js_decide; apply sqrt_of_square; lra.
Qed.

Lemma distance_example_degenerate : distanceToLineSegment 3 7 3 3 3 3 = 4.
Proof.
  unfold distanceToLineSegment. js_decide; apply sqrt_of_square; lra.
Qed.

(** C6.  [distanceToLineSegment] returns the Euclidean distance from the point
    to the point of the segment at the scalar projection clamped to [0, 1],
    which is the least distance to any point of the segment; for coinciding
    endpoints it returns the distance to that point; from the segment
    (0,0)-(10,0) the points (5,5) and (-5,0) both have distance 5, and from
    the degenerate segment (3,3)-(3,3) the point (3,7) has distance 4. *)
Theorem distance_to_segment_clamped_projection (px py x1 y1 x2 y2 s : R) :
  0 <= s <= 1 ->
  let d := distanceToLineSegment px py x1 y1 x2 y2 in
  let lengthSquared := (x2 - x1) * (x2 - x1) + (y2 - y1) * (y2 - y1) in
  let t :=
    Rmax 0 (Rmin 1 (((px - x1) * (x2 - x1) + (py - y1) * (y2 - y1))
                    / lengthSquared)) in
  0 <= t <= 1 /\
  (lengthSquared <> 0 ->
   d = euclid px py (x1 + t * (x2 - x1)) (y1 + t * (y2 - y1))) /\
  d <= euclid px py (x1 + s * (x2 - x1)) (y1 + s * (y2 - y1)) /\
  distanceToLineSegment px py x1 y1 x1 y1 = euclid px py x1 y1 /\
  distanceToLineSegment 5 5 0 0 10 0 = 5 /\
  distanceToLineSegment (-5) 0 0 0 10 0 = 5 /\
  distanceToLineSegment 3 7 3 3 3 3 = 4.
Proof.
  intros Hs d lengthSquared t.
  split; [subst t; js_decide|].
  split; [intros HL; apply distance_nondegenerate; exact HL|].
  split; [apply distance_minimal; exact Hs|].
  split; [apply distance_degenerate; ring|].
  split; [apply distance_example_above|].
  split; [apply distance_example_before|apply distance_example_degenerate].
Qed.

Lemma distance_to_segment_clamped_projection_witness :
  distanceToLineSegment 5 5 0 0 10 0
  <= euclid 5 5 (0 + 0.25 * (10 - 0)) (0 + 0.25 * (0 - 0)).
Proof.
  assert (Hs : 0 <= 0.25 <= 1) by lra.
  destruct (distance_to_segment_clamped_projection 5 5 0 0 10 0 0.25 Hs)
    as (_ & _ & Hmin & _).
  exact Hmin.
Defined.

(** ** Lane hover query *)

Lemma segmentLoop_existsb (lat lon threshold : R) (coords : list Position) :
  segmentLoop lat lon threshold coords
  = existsb (nearSegment lat lon threshold) (segments coords).
Proof.
  induction coords as [|p1 [|p2 rest] IH]; try reflexivity.
  change (segments (p1 :: p2 :: rest)) with ((p1, p2) :: segments (p2 :: rest)).
  cbn [existsb]. rewrite <- IH. reflexivity.
Qed.

Lemma laneLoop_findNearestPolyline (lat lon threshold : R) (lanes : list Lane) :
  laneLoop lat lon threshold lanes
  = findNearestPolyline lat lon lanes threshold.
Proof.
  unfold findNearestPolyline.
  induction lanes as [|lane lanes IH]; cbn [laneLoop find].
  - reflexivity.
  - rewrite segmentLoop_existsb, IH. reflexivity.
Qed.

Lemma nearSegment_true (lat lon threshold : R) (seg : Position * Position) :
  nearSegment lat lon threshold seg = true
  <-> distanceToLineSegment lat lon (fst (fst seg)) (snd (fst seg))
        (fst (snd seg)) (snd (snd seg)) < threshold.
Proof. apply Rltb_true. Qed.

Lemma nearSegment_false (lat lon threshold : R) (seg : Position * Position) :
  nearSegment lat lon threshold seg = false
  <-> threshold <= distanceToLineSegment lat lon (fst (fst seg)) (snd (fst seg))
        (fst (snd seg)) (snd (snd seg)).
Proof. apply Rltb_false. Qed.

Lemma existsb_near (lat lon threshold : R) (lane : Lane) :
  existsb (nearSegment lat lon threshold) (segments (coords lane)) = true
  <-> laneNear lat lon threshold lane.
Proof.
  rewrite existsb_exists. unfold laneNear.
  split; intros [seg [Hin H]]; exists seg; split; try exact Hin;
    apply nearSegment_true; exact H.
Qed.

Lemma existsb_far (lat lon threshold : R) (lane : Lane) :
  existsb (nearSegment lat lon threshold) (segments (coords lane)) = false
  <-> laneFar lat lon threshold lane.
Proof.
  unfold laneFar. split.
  - intros H seg Hin. apply nearSegment_false.
    destruct (nearSegment lat lon threshold seg) eqn:Hn; [|reflexivity].
    assert (Ht : existsb (nearSegment lat lon threshold) (segments (coords lane)) = true)
      by (apply existsb_exists; exists seg; auto).
    congruence.
  - intros H. destruct (existsb _ _) eqn:He; [|reflexivity].
    apply existsb_exists in He. destruct He as [seg [Hin Hn]].
    apply nearSegment_true in Hn. specialize (H seg Hin). lra.
Qed.

Lemma laneLoop_some (lat lon threshold : R) (lanes : list Lane) (lane : Lane) :
  laneLoop lat lon threshold lanes = Some lane <->
  exists before after, lanes = before ++ lane :: after /\
    laneNear lat lon threshold lane /\
    Forall (laneFar lat lon threshold) before.
Proof.
  induction lanes as [|l lanes IH]; cbn [laneLoop].
  - split; [discriminate|]. intros (before & after & H & _).
    destruct before; discriminate.
  - rewrite segmentLoop_existsb.
    destruct (existsb _ (segments (coords l))) eqn:He.
    + split.
      * intros H. injection H as <-. exists [], lanes.
        split; [reflexivity|]. split; [apply existsb_near, He|constructor].
      * intros (before & after & Heq & Hnear & Hfar).
        destruct before as [|b before]; cbn in Heq; injection Heq as <- _.
        -- reflexivity.
        -- apply Forall_inv in Hfar. apply existsb_far in Hfar. congruence.
    + rewrite IH. split.
      * intros (before & after & -> & Hnear & Hfar).
        exists (l :: before), after. split; [reflexivity|].
        split; [exact Hnear|]. constructor; [apply existsb_far, He|exact Hfar].
      * intros (before & after & Heq & Hnear & Hfar).
        destruct before as [|b before]; cbn in Heq; injection Heq as <- ->.
        -- apply existsb_near in Hnear. congruence.
        -- exists before, after. split; [reflexivity|].
           split; [exact Hnear|]. apply Forall_inv_tail in Hfar. exact Hfar.
Qed.

Lemma laneLoop_none (lat lon threshold : R) (lanes : list Lane) :
  laneLoop lat lon threshold lanes = None <->
  Forall (laneFar lat lon threshold) lanes.
Proof.
  induction lanes as [|l lanes IH]; cbn [laneLoop].
  - split; [constructor|reflexivity].
  - rewrite segmentLoop_existsb.
    destruct (existsb _ (segments (coords l))) eqn:He.
    + split; [discriminate|]. intros H. apply Forall_inv in H.
      apply existsb_far in H. congruence.
    + rewrite IH. split.
      * intros H. constructor; [apply existsb_far, He|exact H].
      * intros H. apply Forall_inv_tail in H. exact H.
Qed.

(** The code's distance is the Euclidean distance to the nearest point of
    the segment, so its comparison with the threshold is a statement about
    the points of the segment. *)
Lemma laneNear_laneWithin (lat lon threshold : R) (lane : Lane) :
  laneNear lat lon threshold lane <-> laneWithin lat lon threshold lane.
Proof.
  unfold laneNear, laneWithin, pointOn. split.
  - intros (seg & Hin & Hd).
    destruct (distance_attained lat lon (fst (fst seg)) (snd (fst seg))
                (fst (snd seg)) (snd (snd seg))) as (t & Ht & Heq).
    exists seg, t. cbn [fst snd]. rewrite <- Heq. auto.
  - intros (seg & s & Hin & Hs & Hd). exists seg. split; [exact Hin|].
    cbn [fst snd] in Hd.
    pose proof (distance_minimal lat lon (fst (fst seg)) (snd (fst seg))
                  (fst (snd seg)) (snd (snd seg)) s Hs). lra.
Qed.

Lemma laneFar_laneBeyond (lat lon threshold : R) (lane : Lane) :
  laneFar lat lon threshold lane <-> laneBeyond lat lon threshold lane.
Proof.
  unfold laneFar, laneBeyond, pointOn. split.
  - intros H seg s Hin Hs. cbn [fst snd]. specialize (H seg Hin).
    pose proof (distance_minimal lat lon (fst (fst seg)) (snd (fst seg))
                  (fst (snd seg)) (snd (snd seg)) s Hs). lra.
  - intros H seg Hin.
    destruct (distance_attained lat lon (fst (fst seg)) (snd (fst seg))
                (fst (snd seg)) (snd (snd seg))) as (t & Ht & Heq).
    rewrite Heq. specialize (H seg t Hin Ht). exact H.
Qed.

Lemma Forall_laneFar_laneBeyond (lat lon threshold : R) (lanes : list Lane) :
  Forall (laneFar lat lon threshold) lanes
  <-> Forall (laneBeyond lat lon threshold) lanes.
Proof.
  rewrite !Forall_forall. split; intros H lane Hin;
    apply laneFar_laneBeyond, H, Hin.
Qed.

Lemma euclid_ge_first (ax ay bx by' : R) : ax - bx <= euclid ax ay bx by'.
Proof.
  unfold euclid.
  destruct (Rle_dec (ax - bx) 0) as [Hn|Hp].
  - pose proof (sqrt_pos ((ax - bx) * (ax - bx) + (ay - by') * (ay - by'))).
    lra.
  - rewrite <- (sqrt_square (ax - bx)) at 1 by lra.
    apply sqrt_le_1_alt. pose proof (Rle_0_sqr (ay - by')) as H.
    unfold Rsqr in H. lra.
Qed.

(** A lane all of whose points lie south of a latitude stays as far from a
    position as the position lies north of that latitude. *)
Lemma laneBeyond_south (lat lon threshold south : R) (lane : Lane) :
  Forall (fun p => fst p <= south) (coords lane) ->
  threshold <= lat - south ->
  laneBeyond lat lon threshold lane.
Proof.
  intros Hall Hth seg s Hin Hs. rewrite Forall_forall in Hall.
  unfold segments in Hin. destruct seg as [a b].
  pose proof (Hall _ (in_combine_l _ _ _ _ Hin)) as H1.
  assert (H2 : fst b <= south).
  { apply Hall. apply in_combine_r in Hin.
    destruct (coords lane); [destruct Hin|right; exact Hin]. }
  destruct a as [a1 a2], b as [b1 b2]. unfold pointOn. cbn [fst snd] in *.
  pose proof (euclid_ge_first lat lon (a1 + s * (b1 - a1))
                (a2 + s * (b2 - a2))) as He.
  assert (a1 + s * (b1 - a1) <= south) by nra.
  lra.
Qed.

(** On an 800 by 400 canvas at zoom 1 the cursor at (400, 120) is over
    36°N 0°E, a vertex of the first lane. *)
Lemma hover_suez_canal :
  exists lane,
    getShippingLaneAtPoint (newRenderer (mkCanvas 800 400)) 400 120 = Some lane /\
    id lane = "suez-canal"%string /\ hd_error getShippingLaneData = Some lane.
Proof.
  eexists. split.
  - unfold getShippingLaneAtPoint.
    assert (Hll : toLatLon (newRenderer (mkCanvas 800 400)) 400 120
                  = {| lat := 36; lon := 0 |})
      by (unfold toLatLon; cbn; f_equal; lra).
    rewrite Hll. cbn [lat lon zoom newRenderer].
    unfold getShippingLaneData. cbn [laneLoop coords segmentLoop fst snd].
    assert (Hd : distanceToLineSegment 36 0 35 (-6) 36 0 = 0)
      by (unfold distanceToLineSegment; js_decide; apply sqrt_of_square; lra).
    rewrite Hd.
    replace (0 <? 3 / 1.0) with true by (symmetry; apply Rltb_true; lra).
    reflexivity.
  - split; reflexivity.
Qed.

Lemma hover_first_lane :
  getShippingLaneAtPoint (newRenderer (mkCanvas 800 400)) 400 120
  = hd_error getShippingLaneData.
Proof.
  destruct hover_suez_canal as (lane & H1 & _ & H2). congruence.
Qed.

(** On an 800 by 400 canvas at zoom 1 the cursor at (400, 50) is over
    67.5°N 0°E, in the Norwegian Sea; no lane reaches north of 51°N. *)
Lemma hover_norwegian_sea :
  getShippingLaneAtPoint (newRenderer (mkCanvas 800 400)) 400 50 = None.
Proof.
  unfold getShippingLaneAtPoint.
  assert (Hll : toLatLon (newRenderer (mkCanvas 800 400)) 400 50
                = {| lat := 67.5; lon := 0 |})
    by (unfold toLatLon; cbn; f_equal; lra).
  rewrite Hll. cbn [lat lon zoom newRenderer].
  apply laneLoop_none, Forall_laneFar_laneBeyond.
  unfold getShippingLaneData.
  repeat (constructor;
          [apply (laneBeyond_south _ _ _ 51);
           [cbn [coords]; repeat (constructor; [cbn [fst]; lra|]); constructor
           |lra]|]).
  constructor.
Qed.

(** C8.  [getShippingLaneAtPoint] returns the first lane, in the order of
    [getShippingLaneData()], that has a point of a segment at a Euclidean
    distance below [3 / zoom] from the unprojected cursor position, every
    point of every segment of the lanes before it being at least that far,
    and [null] when every point of every segment of every lane is at least
    that far; the threshold times the zoom is the constant 3.  Over 36°N 0°E
    the query returns the first lane, over 67.5°N 0°E it returns [null]. *)
Theorem lane_hover_first_within_threshold
  (this : Renderer) (mouseX mouseY : R) (lane : Lane) :
  let ll := toLatLon this mouseX mouseY in
  let threshold := 3 / zoom this in
  let lanes := getShippingLaneData in
  getShippingLaneAtPoint this mouseX mouseY
  = findNearestPolyline (lat ll) (lon ll) lanes threshold /\
  (getShippingLaneAtPoint this mouseX mouseY = Some lane <->
   exists before after, lanes = before ++ lane :: after /\
     laneWithin (lat ll) (lon ll) threshold lane /\
     Forall (laneBeyond (lat ll) (lon ll) threshold) before) /\
  (getShippingLaneAtPoint this mouseX mouseY = None <->
   Forall (laneBeyond (lat ll) (lon ll) threshold) lanes) /\
  (zoom this <> 0 -> threshold * zoom this = 3) /\
  getShippingLaneAtPoint (newRenderer (mkCanvas 800 400)) 400 120
  = hd_error getShippingLaneData /\
  getShippingLaneAtPoint (newRenderer (mkCanvas 800 400)) 400 50 = None.
Proof.
  intros ll threshold lanes. unfold getShippingLaneAtPoint at 1 2 3.
  fold ll threshold lanes.
  split; [apply laneLoop_findNearestPolyline|].
  split.
  { rewrite laneLoop_some. split;
      intros (before & after & Heq & Hnear & Hfar); exists before, after;
      (split; [exact Heq|split;
         [apply laneNear_laneWithin, Hnear
         |apply Forall_laneFar_laneBeyond, Hfar]]). }
  split.
  { rewrite laneLoop_none. apply Forall_laneFar_laneBeyond. }
  split.
  { intros Hz. unfold threshold. field. exact Hz. }
  split; [apply hover_first_lane|apply hover_norwegian_sea].
Qed.

Lemma lane_hover_first_within_threshold_witness :
  let this := newRenderer (mkCanvas 800 400) in
  let ll := toLatLon this 400 120 in
  exists lane before after,
    getShippingLaneData = before ++ lane :: after /\
    laneWithin (lat ll) (lon ll) (3 / zoom this) lane /\
    Forall (laneBeyond (lat ll) (lon ll) (3 / zoom this)) before.
Proof.
  intros this ll. destruct hover_suez_canal as (lane & Hlane & _).
  exists lane.
  destruct (lane_hover_first_within_threshold this 400 120 lane)
    as (_ & Hsome & _).
  apply Hsome. exact Hlane.
Defined.

(** ** Label layout *)

Lemma collides_overlap (a b : Box.t) : collides a b = true <-> overlap a b.
Proof.
  unfold collides, overlap.
  rewrite !andb_true_iff, !Rltb_true, !Rgtb_true. tauto.
Qed.

Lemma hasCollision_false (labelBoxes : list Box.t) (b : Box.t) :
  hasCollision labelBoxes b = false
  <-> Forall (fun existing => ~ overlap b existing) labelBoxes.
Proof.
  unfold hasCollision. induction labelBoxes as [|e l IH]; cbn [existsb].
  - split; [constructor|reflexivity].
  - rewrite orb_false_iff, IH. split.
    + intros [Hc Hl]. constructor; [|exact Hl].
      rewrite <- collides_overlap. congruence.
    + intros H. inversion H as [|? ? He Hl]; subst. split; [|exact Hl].
      destruct (collides b e) eqn:Hc; [|reflexivity].
      apply collides_overlap in Hc. contradiction.
Qed.

Lemma hasCollision_true (labelBoxes : list Box.t) (b : Box.t) :
  hasCollision labelBoxes b = true
  <-> exists existing, In existing labelBoxes /\ overlap b existing.
Proof.
  unfold hasCollision. rewrite existsb_exists.
  split; intros [e [Hin H]]; exists e; split; try exact Hin;
    apply collides_overlap; exact H.
Qed.

Section TryPositions.

Variables x y textWidth textHeight : R.
Variable labelBoxes : list Box.t.

Let cand := candidate x y textWidth textHeight.
Let colliding (pos : Offset) : Prop :=
  hasCollision labelBoxes (box (cand pos)) = true.

Lemma tryPositions_some (positions : list Offset) (best : Placement) :
  tryPositions x y textWidth textHeight labelBoxes positions = Some best <->
  exists before pos after,
    positions = before ++ pos :: after /\ best = cand pos /\
    free x y textWidth textHeight labelBoxes pos /\ Forall colliding before.
Proof.
  unfold free. fold cand.
  induction positions as [|p positions IH]; cbn [tryPositions].
  - split; [discriminate|]. intros (before & pos & after & H & _).
    destruct before; discriminate.
  - fold cand. destruct (hasCollision labelBoxes (box (cand p))) eqn:Hc; cbn [negb].
    + rewrite IH. split.
      * intros (before & pos & after & -> & Hb & Hf & Hbl).
        exists (p :: before), pos, after. repeat split; try assumption.
        constructor; assumption.
      * intros (before & pos & after & Heq & Hb & Hf & Hbl).
        destruct before as [|b before]; cbn in Heq; injection Heq as <- ->.
        -- apply hasCollision_false in Hf. congruence.
        -- exists before, pos, after. repeat split; try assumption.
           apply Forall_inv_tail in Hbl. exact Hbl.
    + split.
      * intros H. injection H as <-. exists [], p, positions.
        repeat split; [apply hasCollision_false, Hc|constructor].
      * intros (before & pos & after & Heq & Hb & Hf & Hbl).
        destruct before as [|b before]; cbn in Heq; injection Heq as <- ->.
        -- rewrite Hb. reflexivity.
        -- apply Forall_inv in Hbl. unfold colliding in Hbl. congruence.
Qed.



End TryPositions.













Lemma free_blocked (x y textWidth textHeight : R) (labelBoxes : list Box.t)
  (pos : Offset) :
  hasCollision labelBoxes (box (candidate x y textWidth textHeight pos)) = true
  <-> blocked x y textWidth textHeight labelBoxes pos.
Proof. apply hasCollision_true. Qed.

Lemma Forall_blocked (x y textWidth textHeight : R) (labelBoxes : list Box.t)
  (l : list Offset) :
  Forall (fun pos => hasCollision labelBoxes
            (box (candidate x y textWidth textHeight pos)) = true) l
  <-> Forall (blocked x y textWidth textHeight labelBoxes) l.
Proof. split; apply Forall_impl; intros pos; apply free_blocked. Qed.

(** The loop read forwards: the first free candidate after blocked ones is
    the result, and there is none when all are blocked. *)
Lemma tryPositions_first_free (x y textWidth textHeight : R)
  (labelBoxes : list Box.t) (before after : list Offset) (pos : Offset) :
  free x y textWidth textHeight labelBoxes pos ->
  Forall (blocked x y textWidth textHeight labelBoxes) before ->
  tryPositions x y textWidth textHeight labelBoxes (before ++ pos :: after)
  = Some (candidate x y textWidth textHeight pos).
Proof.
  intros Hf Hb. apply tryPositions_some. exists before, pos, after.
  split; [reflexivity|]. split; [reflexivity|]. split; [exact Hf|].
  apply Forall_blocked, Hb.
Qed.



(** [labelZone] in its parts. *)
Lemma labelZone_parts (this : Renderer) (measureText : TextMeasure)
  (labelBoxes : list Box.t) (m : Zone.marked) :
  labelZone this measureText labelBoxes m
  = if zoneShowLabel this m
    then match zoneBestPos this measureText labelBoxes m with
         | Some bestPos => labelBoxes ++ [pushedBox this m (box bestPos)]
         | None =>
             if String.eqb (zoneImportance m) "high"
             then labelBoxes
                  ++ [pushedBox this m
                        (box (candidate (Zone._screenX m) (Zone._screenY m)
                                (zoneTextWidth this measureText m)
                                (zoneFontSize this)
                                {| dx := Zone._markerSize m + 4; dy := 3 |}))]
             else labelBoxes
         end
    else labelBoxes.
Proof.
  unfold labelZone, pushedBox.
  destruct (zoneShowLabel this m); [|reflexivity]. cbn [negb].
  destruct (zoneBestPos this measureText labelBoxes m) as [b|]; cbn [orb].
  - reflexivity.
  - destruct (String.eqb (zoneImportance m) "high"); [|reflexivity].
    unfold candidate; cbn [box labelX labelY dx dy].
    replace (Zone._screenX m + Zone._markerSize m + 4 - 2)
      with (Zone._screenX m + (Zone._markerSize m + 4) - 2) by ring.
    reflexivity.
Qed.


(** Two markers on the same spot: the second label goes to the second
    candidate, below the first. *)
Lemma two_city_labels :
  drawCities (set_zoom (newRenderer (mkCanvas 800 400)) 5) (fun _ _ _ => 30)
             (Some sameSpot) []
  = [ {| Box.x := 402; Box.y := 190.5; Box.width := 34; Box.height := 11.5 |};
      {| Box.x := 402; Box.y := 202; Box.width := 34; Box.height := 11.5 |} ].
Proof.
  unfold drawCities, getVisibleCities, sameSpot.
  cbn [zoom set_zoom majorCities].
  replace (5 <? 2.0) with false by (symmetry; apply Rltb_false; lra).
  replace (5 <? 3.0) with false by (symmetry; apply Rltb_false; lra).
  cbn [fold_left]. 
  unfold drawCity, offScreen, toCanvas, set_zoom; cbn.
  unfold hasCollision, collides; cbn.
  js_decide. cbn. js_decide. cbn.
  repeat f_equal; lra.
Qed.



Lemma sqrt_9 : sqrt 9 = 3.
Proof. apply sqrt_of_square; lra. Qed.

(** The status line.  At zoom 9 on an 800 by 400 canvas a hot zone of high
    importance finds its first candidate free of the box placed before, is
    labelled there, and pushes the box made taller by the status line: the
    pushed box overlaps the box placed before. *)
Lemma status_line_box_overlaps :
  let this := set_zoom (newRenderer (mkCanvas 800 400)) 9 in
  let measureText : TextMeasure := fun _ _ _ => 40 in
  let data := {| majorCities := []; battleZones := fun _ => [hotZone] |} in
  let m := {| Zone.zone := hotZone; Zone._screenX := 400; Zone._screenY := 200;
              Zone._markerSize := 6 |} in
  let pushed :=
    {| Box.x := 408; Box.y := 193.4; Box.width := 44; Box.height := 27.2 |} in
  free 400 200 40 (zoneFontSize this) [lowerBox]
       {| dx := Zone._markerSize m + 4; dy := 3 |} /\
  labelZone this measureText [lowerBox] m = [lowerBox; pushed] /\
  drawBattleZones this measureText (Some data) [lowerBox] = [lowerBox; pushed] /\
  overlap pushed lowerBox /\
  ~ noOverlaps (drawBattleZones this measureText (Some data) [lowerBox]).
Proof.
  intros this measureText data m pushed.
  assert (Hov : overlap pushed lowerBox) by (unfold overlap; cbn; lra).
  assert (Hfont : zoneFontSize this = 9.6)
    by (unfold zoneFontSize, this; cbn; js_decide).
  assert (Hfree : free 400 200 40 (zoneFontSize this) [lowerBox]
                    {| dx := Zone._markerSize m + 4; dy := 3 |}).
  { rewrite Hfont. unfold free. constructor; [|constructor].
    unfold overlap, lowerBox; cbn. lra. }
  assert (Hlabel : labelZone this measureText [lowerBox] m = [lowerBox; pushed]).
  { rewrite labelZone_parts.
    assert (Hshow : zoneShowLabel this m = true).
    { unfold zoneShowLabel, zoneImportance, this, m, hotZone; cbn.
      js_decide; reflexivity. }
    rewrite Hshow. unfold zoneBestPos.
    change (zonePositions this measureText m)
      with ([] ++ {| dx := Zone._markerSize m + 4; dy := 3 |}
               :: tl (zonePositions this measureText m)).
    rewrite (tryPositions_first_free _ _ _ _ _ [] _ _ Hfree (Forall_nil _)).
    unfold pushedBox.
    assert (Hst : zoneShowsStatus this m = true).
    { unfold zoneShowsStatus, zoneImportance, zoneActivityLevel, this, m,
        hotZone; cbn. js_decide; reflexivity. }
    rewrite Hst, Hfont. unfold candidate, pushed, lowerBox; cbn.
    repeat f_equal; lra. }
  assert (Hmark : markZones this (sortZones [hotZone]) = [m]).
  { unfold sortZones, this, hotZone; cbn [fold_right insertZone markZones].
    unfold markZone, offScreen, toCanvas; cbn. rewrite sqrt_9.
    js_decide; cbn; unfold m, hotZone; repeat f_equal; js_decide. }
  assert (Hdraw : drawBattleZones this measureText (Some data) [lowerBox]
                  = [lowerBox; pushed]).
  { unfold drawBattleZones. cbn [battleZones data].
    replace (zoom this <? 2.5) with false
      by (symmetry; apply Rltb_false; cbn; lra).
    rewrite Hmark. cbn [rev app fold_left]. exact Hlabel. }
  split; [exact Hfree|]. split; [exact Hlabel|].
  split; [exact Hdraw|]. split; [exact Hov|].
  rewrite Hdraw. unfold noOverlaps. intros H.
  inversion H as [|? ? Hf _]; subst. apply Forall_inv in Hf. contradiction.
Qed.


(** ** The viewport stays inside the map *)

Section RoundedViewport.

Variable rnd : R -> R.
Hypothesis rnd_error : forall v, Rabs (rnd v - v) <= Rounded.u * Rabs v.

Lemma quotient_bound (n z k : R) :
  1 <= z -> Rabs n <= z * k -> Rabs (n / z) <= k.
Proof.
  intros Hz Hn. unfold Rdiv. rewrite Rabs_mult.
  assert (Hi : 0 < / z) by (apply Rinv_0_lt_compat; lra).
  rewrite (Rabs_pos_eq (/ z)) by lra.
  apply (Rmult_le_reg_r z); [lra|].
  rewrite Rmult_assoc, Rinv_l by lra. lra.
Qed.

(** The bound that [constrainPan] computes is the exact one up to
    rounding. *)
Lemma maxPan_close (w z : R) :
  0 < w -> 1 <= z <= 25 ->
  Rabs (Rounded.div rnd (Rounded.sub rnd (Rounded.mul rnd w z) w) 2
        - (w * z - w) / 2)
  <= 40 * Rounded.u * w.
Proof.
  intros Hw Hz. pose proof u_pos as Hu.
  assert (Hu1 : Rounded.u <= / 1000000)
    by (unfold Rounded.u; apply Rinv_le_contravar; lra).
  assert (Hq1 : Rounded.u * w <= / 1000000 * w)
    by (apply Rmult_le_compat_r; lra).
  assert (Hq2 : 0 <= Rounded.u * w) by nra.
  assert (Hq3 : Rounded.u * (Rounded.u * w) <= / 1000000 * (Rounded.u * w))
    by (apply Rmult_le_compat_r; lra).
  assert (Hwz : w <= w * z <= 25 * w) by nra.
  unfold Rounded.div, Rounded.sub, Rounded.mul.
  set (P := w * z) in *.
  assert (H1 : Rabs (rnd P - P) <= 25 * Rounded.u * w).
  { eapply Rle_trans;
      [apply (rounded_close rnd rnd_error _ P 0 (25 * w)); unabs; lra|]. lra. }
  set (p := rnd P) in *.
  assert (H2 : Rabs (rnd (p - w) - (P - w)) <= 49.1 * Rounded.u * w).
  { eapply Rle_trans;
      [apply (rounded_close rnd rnd_error _ (P - w) (25 * Rounded.u * w)
                (24 * w)); unabs; lra|]. lra. }
  set (d := rnd (p - w)) in *.
  eapply Rle_trans;
    [apply (rounded_close rnd rnd_error _ ((P - w) / 2)
              (24.55 * Rounded.u * w) (12 * w)); unabs; lra|]. lra.
Qed.

(** One axis of [toLatLon] for a place on the canvas, under a clamped pan:
    the share of the canvas size that the place unprojects to leaves
    [[0, 1]] by rounding errors only. *)
Lemma unproject_axis_inside (w z pan s : R) :
  0 < w -> 1 <= z <= 25 ->
  Rabs pan
  <= Rabs (Rounded.div rnd (Rounded.sub rnd (Rounded.mul rnd w z) w) 2) ->
  0 <= s <= w ->
  - (80 * Rounded.u)
  <= Rounded.div rnd
       (Rounded.add rnd
          (Rounded.div rnd
             (Rounded.sub rnd (Rounded.sub rnd s pan) (Rounded.div rnd w 2))
             z)
          (Rounded.div rnd w 2))
       w
  <= 1 + 80 * Rounded.u.
Proof.
  intros Hw Hz Hpan Hs. pose proof u_pos as Hu.
  assert (Hu1 : Rounded.u <= / 1000000)
    by (unfold Rounded.u; apply Rinv_le_contravar; lra).
  assert (Hq1 : Rounded.u * w <= / 1000000 * w)
    by (apply Rmult_le_compat_r; lra).
  assert (Hq2 : 0 <= Rounded.u * w) by nra.
  assert (Hq3 : Rounded.u * (Rounded.u * w) <= / 1000000 * (Rounded.u * w))
    by (apply Rmult_le_compat_r; lra).
  assert (Hq4 : Rounded.u * Rounded.u <= / 1000000 * Rounded.u)
    by (apply Rmult_le_compat_r; lra).
  pose proof (maxPan_close w z Hw Hz) as Hm.
  set (m := Rounded.div rnd (Rounded.sub rnd (Rounded.mul rnd w z) w) 2) in *.
  assert (Hwz : w <= w * z <= 25 * w) by nra.
  set (P := w * z) in *.
  assert (Hp : Rabs pan <= (P - w) / 2 + 40 * Rounded.u * w).
  { eapply Rle_trans; [exact Hpan|]. unfold Rabs. destruct (Rcase_abs m);
      unabs; lra. }
  clearbody m. clear Hm Hpan.
  unfold Rounded.add, Rounded.sub, Rounded.div.
  assert (H0 : Rabs (rnd (w / 2) - w / 2) <= 0.5 * Rounded.u * w).
  { eapply Rle_trans;
      [apply (rounded_close rnd rnd_error _ (w / 2) 0 (w / 2)); unabs; lra|].
    lra. }
  set (c := rnd (w / 2)) in *.
  assert (H1 : Rabs (rnd (s - pan) - (s - pan)) <= 14 * Rounded.u * w).
  { eapply Rle_trans;
      [apply (rounded_close rnd rnd_error _ (s - pan) 0 (13.1 * w));
        unabs; lra|]. lra. }
  set (b1 := rnd (s - pan)) in *.
  assert (H2 : Rabs (rnd (b1 - c) - (s - pan - w / 2)) <= 29 * Rounded.u * w).
  { eapply Rle_trans;
      [apply (rounded_close rnd rnd_error _ (s - pan - w / 2)
                (14.5 * Rounded.u * w) (13.1 * w)); unabs; lra|]. lra. }
  set (b2 := rnd (b1 - c)) in *.
  set (N := s - pan - w / 2) in *.
  assert (HT : Rabs (N / z) <= w / 2 + 40 * Rounded.u * w).
  { apply quotient_bound; [lra|]. unfold N.
    assert (z * (40 * Rounded.u * w) >= 40 * Rounded.u * w) by nra.
    unfold P in *. unabs; nra. }
  assert (H3 : Rabs (rnd (b2 / z) - N / z) <= 30 * Rounded.u * w).
  { eapply Rle_trans;
      [apply (rounded_close rnd rnd_error _ (N / z) (29 * Rounded.u * w)
                (w / 2 + 40 * Rounded.u * w));
        [apply (unzoomed_close z b2 N); [lra|exact H2]|exact HT]|]. lra. }
  set (b3 := rnd (b2 / z)) in *. set (T := N / z) in *.
  assert (H4 : Rabs (rnd (b3 + c) - (T + w / 2)) <= 32 * Rounded.u * w).
  { eapply Rle_trans;
      [apply (rounded_close rnd rnd_error _ (T + w / 2)
                (30.5 * Rounded.u * w) (w + 40 * Rounded.u * w));
        unabs; lra|]. lra. }
  set (b4 := rnd (b3 + c)) in *.
  assert (H5 : - (72 * Rounded.u) * w <= b4 <= (1 + 72 * Rounded.u) * w)
    by (unabs; lra).
  assert (H6 : - (72 * Rounded.u) <= b4 / w <= 1 + 72 * Rounded.u).
  { assert (Hi : 0 < / w) by (apply Rinv_0_lt_compat; lra).
    split.
    - apply (Rmult_le_reg_r w); [lra|]. unfold Rdiv.
      rewrite Rmult_assoc, Rinv_l by lra. lra.
    - apply (Rmult_le_reg_r w); [lra|]. unfold Rdiv.
      rewrite Rmult_assoc, Rinv_l by lra. lra. }
  pose proof (rnd_error (b4 / w)) as H7.
  assert (H8 : Rabs (b4 / w) <= 1 + 72 * Rounded.u) by (unabs; lra).
  assert (H9 : Rounded.u * Rabs (b4 / w) <= 1.1 * Rounded.u).
  { eapply Rle_trans; [apply Rmult_le_compat_l; [lra|exact H8]|]. lra. }
  unabs. lra.
Qed.

Lemma rounded_between (v lo hi m : R) :
  lo <= v <= hi -> Rabs v <= m ->
  lo - Rounded.u * m <= rnd v <= hi + Rounded.u * m.
Proof.
  intros Hv Hm. pose proof u_pos as Hu. pose proof (rnd_error v) as Hr.
  assert (Hr' : Rabs (rnd v - v) <= Rounded.u * m).
  { eapply Rle_trans; [exact Hr|]. apply Rmult_le_compat_l; lra. }
  unabs. lra.
Qed.

Lemma toLatLon_inside (this : Renderer) (canvasX canvasY : R) :
  0 < width (canvas this) -> 0 < height (canvas this) ->
  1 <= zoom this <= 25 -> Rounded.panClamped rnd this ->
  0 <= canvasX <= width (canvas this) -> 0 <= canvasY <= height (canvas this) ->
  let ll := Rounded.toLatLon rnd this canvasX canvasY in
  -90 - 1e-9 <= lat ll <= 90 + 1e-9 /\ -180 - 1e-9 <= lon ll <= 180 + 1e-9.
Proof.
  intros Hw Hh Hz [Hpx Hpy] Hx Hy. pose proof u_pos as Hu.
  assert (Hu9 : 40000 * Rounded.u <= 1e-9) by (unfold Rounded.u; lra).
  assert (Hu1 : Rounded.u <= / 1000000)
    by (unfold Rounded.u; apply Rinv_le_contravar; lra).
  assert (Hq4 : Rounded.u * Rounded.u <= / 1000000 * Rounded.u)
    by (apply Rmult_le_compat_r; lra).
  unfold Rounded.panClamped, Rounded.maxPanX, Rounded.maxPanY in Hpx, Hpy.
  pose proof (unproject_axis_inside _ _ _ _ Hw Hz Hpx Hx) as Bx.
  pose proof (unproject_axis_inside _ _ _ _ Hh Hz Hpy Hy) as By.
  unfold Rounded.toLatLon; cbn [lat lon].
  set (sx := Rounded.div rnd _ (width (canvas this))) in *.
  set (sy := Rounded.div rnd _ (height (canvas this))) in *.
  clearbody sx sy. unfold Rounded.sub, Rounded.mul. split.
  - assert (H1 : -(14400 * Rounded.u) - Rounded.u * 181 <= rnd (sy * 180)
                 <= 180 + 14400 * Rounded.u + Rounded.u * 181)
      by (apply rounded_between; [|unabs]; lra).
    assert (H2 : -90 - 14581 * Rounded.u - Rounded.u * 91
                 <= rnd (90 - rnd (sy * 180))
                 <= 90 + 14581 * Rounded.u + Rounded.u * 91)
      by (apply rounded_between; [|unabs]; lra).
    lra.
  - assert (H1 : -(28800 * Rounded.u) - Rounded.u * 361 <= rnd (sx * 360)
                 <= 360 + 28800 * Rounded.u + Rounded.u * 361)
      by (apply rounded_between; [|unabs]; lra).
    assert (H2 : -180 - 29161 * Rounded.u - Rounded.u * 181
                 <= rnd (rnd (sx * 360) - 180)
                 <= 180 + 29161 * Rounded.u + Rounded.u * 181)
      by (apply rounded_between; [|unabs]; lra).
    lra.
Qed.

Lemma clamp_within (m p : R) : Rabs (Rmax (- m) (Rmin m p)) <= Rabs m.
Proof.
  unfold Rmax, Rmin, Rabs.
  repeat match goal with
         | |- context [Rle_dec ?a ?b] => destruct (Rle_dec a b)
         | |- context [Rcase_abs ?a] => destruct (Rcase_abs a)
         end; lra.
Qed.

Lemma constrainPan_panClamped (this : Renderer) :
  Rounded.panClamped rnd (Rounded.constrainPan rnd this).
Proof. split; apply clamp_within. Qed.

Lemma wheelZoom_inRange (this : Renderer) (deltaY : R) :
  minZoom this <= maxZoom this ->
  minZoom this <= Rounded.wheelZoom rnd this deltaY <= maxZoom this.
Proof.
  intros H. unfold Rounded.wheelZoom, Rmax, Rmin.
  repeat match goal with
         | |- context [Rle_dec ?a ?b] => destruct (Rle_dec a b)
         end; lra.
Qed.

Lemma rounded_handle_reachable (c : Canvas) (this : Renderer) (e : Event) :
  Rounded.reachableView rnd c this ->
  Rounded.reachableView rnd c (Rounded.handle rnd this e).
Proof.
  intros (Hc & Hmin & Hmax & Hz & Hp).
  destruct e as [deltaY mouseX mouseY|mouseX mouseY|mouseX mouseY| |];
    cbn [Rounded.handle].
  - unfold Rounded.handleWheel.
    destruct (negb _); cbn [fst];
      [|split; [exact Hc|split; [exact Hmin|split; [exact Hmax|split;
          [exact Hz|exact Hp]]]]].
    split; [exact Hc|]. split; [exact Hmin|]. split; [exact Hmax|].
    split; [|apply constrainPan_panClamped].
    unfold zoomInRange. cbn [zoom minZoom maxZoom Rounded.constrainPan
      Rounded.zoomTowards set_pan set_zoom].
    apply wheelZoom_inRange. rewrite Hmin, Hmax. lra.
  - split; [exact Hc|split; [exact Hmin|split; [exact Hmax|split;
      [exact Hz|exact Hp]]]].
  - unfold Rounded.handleMouseMove.
    destruct (isDragging this); cbn [fst];
      [|split; [exact Hc|split; [exact Hmin|split; [exact Hmax|split;
          [exact Hz|exact Hp]]]]].
    split; [exact Hc|]. split; [exact Hmin|]. split; [exact Hmax|].
    split; [exact Hz|apply constrainPan_panClamped].
  - split; [exact Hc|split; [exact Hmin|split; [exact Hmax|split;
      [exact Hz|exact Hp]]]].
  - split; [exact Hc|]. split; [exact Hmin|]. split; [exact Hmax|].
    split.
    + unfold zoomInRange. cbn. rewrite Hmin, Hmax. lra.
    + split; cbn [panX panY resetView set_pan]; rewrite Rabs_R0;
        apply Rabs_pos.
Qed.

Lemma rounded_handleAll_reachable (c : Canvas) (es : list Event)
  (this : Renderer) :
  Rounded.reachableView rnd c this ->
  Rounded.reachableView rnd c (Rounded.handleAll rnd this es).
Proof.
  revert this. induction es as [|e es IH]; intros this H; [exact H|].
  cbn [Rounded.handleAll fold_left]. apply IH, rounded_handle_reachable, H.
Qed.

Lemma rounded_newRenderer_reachable (c : Canvas) :
  Rounded.reachableView rnd c (newRenderer c).
Proof.
  split; [reflexivity|]. split; [reflexivity|]. split; [reflexivity|].
  split; [unfold zoomInRange; cbn; lra|].
  split; cbn [panX panY newRenderer]; rewrite Rabs_R0; apply Rabs_pos.
Qed.

End RoundedViewport.

(** X1.  With every operation rounded as binary64 rounds it, after any
    sequence of wheel, mouse and reset events from the constructor's state,
    on a canvas between 1 and 1e9 pixels wide and high, every point of the
    canvas unprojects to a latitude within [1e-9] of [[-90, 90]] and a
    longitude within [1e-9] of [[-180, 180]]: the clamped pan never lets the
    viewport leave the map by more than the rounding of [toLatLon]. *)
Theorem viewport_never_leaves_map
  (rnd : R -> R) (c : Canvas) (es : list Event) (canvasX canvasY : R) :
  (forall v, Rabs (rnd v - v) <= Rounded.u * Rabs v) ->
  1 <= width c <= 1e9 -> 1 <= height c <= 1e9 ->
  0 <= canvasX <= width c -> 0 <= canvasY <= height c ->
  let ll := Rounded.toLatLon rnd (Rounded.handleAll rnd (newRenderer c) es)
                             canvasX canvasY in
  -90 - 1e-9 <= lat ll <= 90 + 1e-9 /\ -180 - 1e-9 <= lon ll <= 180 + 1e-9.
Proof.
  intros Hr Hw Hh Hx Hy.
  destruct (rounded_handleAll_reachable rnd c es (newRenderer c)
              (rounded_newRenderer_reachable rnd c)) as (Hc & Hmin & Hmax & Hz & Hp).
  unfold zoomInRange in Hz. rewrite Hmin, Hmax in Hz.
  apply (toLatLon_inside rnd Hr); rewrite ?Hc; try assumption; lra.
Qed.

Lemma viewport_never_leaves_map_witness :
  let ll :=
    Rounded.toLatLon Rounded.round53
      (Rounded.handleAll Rounded.round53 (newRenderer (mkCanvas 800 400))
         [Wheel (-1) 0 0; Wheel (-1) 0 0; Wheel (-1) 0 0; MouseDown 5 5;
          MouseMove 700 300])
      0 0 in
  -90 - 1e-9 <= lat ll <= 90 + 1e-9 /\ -180 - 1e-9 <= lon ll <= 180 + 1e-9.
Proof.
  apply (viewport_never_leaves_map Rounded.round53 (mkCanvas 800 400)
           [Wheel (-1) 0 0; Wheel (-1) 0 0; Wheel (-1) 0 0; MouseDown 5 5;
            MouseMove 700 300] 0 0 round53_error); cbn; lra.
Defined.

(** ** Clamping and dragging *)

Lemma Rmax_Rmin_idem (m p : R) :
  Rmax (- m) (Rmin m (Rmax (- m) (Rmin m p))) = Rmax (- m) (Rmin m p).
Proof. js_decide. Qed.

(** X2.  [constrainPan] is idempotent, for every state: clamping a clamped pan
    changes nothing. *)
Theorem constrainPan_idempotent (this : Renderer) :
  constrainPan (constrainPan this) = constrainPan this.
Proof.
  unfold constrainPan; cbn. rewrite !Rmax_Rmin_idem. reflexivity.
Qed.

Lemma constrainPan_frame (this : Renderer) :
  let this' := constrainPan this in
  canvas this' = canvas this /\ zoom this' = zoom this /\
  isDragging this' = isDragging this /\
  dragStartX this' = dragStartX this /\ dragStartY this' = dragStartY this /\
  lastPanX this' = lastPanX this /\ lastPanY this' = lastPanY this /\
  minZoom this' = minZoom this /\ maxZoom this' = maxZoom this.
Proof. cbn. repeat split. Qed.

(** X3.  While the mouse is held down, the state after a mouse move depends on
    the last cursor position only, not on the moves before it; and moving back
    to the point where the button went down restores the pan of that moment,
    when it was within its bounds. *)
Theorem drag_depends_on_last_position
  (this : Renderer) (downX downY midX midY mouseX mouseY : R) :
  panClamped this ->
  let pressed := handleMouseDown this downX downY in
  handleMouseMove (fst (handleMouseMove pressed midX midY)) mouseX mouseY
  = handleMouseMove pressed mouseX mouseY /\
  fst (handleMouseMove pressed downX downY) = pressed.
Proof.
  intros [Hx Hy] pressed. split.
  - unfold handleMouseMove, pressed; cbn. reflexivity.
  - unfold handleMouseMove, pressed; cbn [isDragging handleMouseDown fst].
    apply between_Rabs in Hx. apply between_Rabs in Hy.
    rewrite constrainPan_inactive.
    + unfold set_pan, handleMouseDown; cbn. f_equal; ring.
    + cbn. lra.
    + cbn. lra.
Qed.

Lemma drag_depends_on_last_position_witness :
  let pressed := handleMouseDown (newRenderer (mkCanvas 800 400)) 10 20 in
  handleMouseMove (fst (handleMouseMove pressed 300 40)) 55 66
  = handleMouseMove pressed 55 66 /\
  fst (handleMouseMove pressed 10 20) = pressed.
Proof.
  apply (drag_depends_on_last_position (newRenderer (mkCanvas 800 400))
           10 20 300 40 55 66).
  unfold panClamped; cbn. rewrite Rabs_R0. lra.
Defined.

(** X4.  A wheel event never moves the zoom against its direction and never
    by more than its factor: with the zoom in range and a positive minimum,
    scrolling up ([deltaY <= 0]) gives a zoom between the current one and 1.1
    times it, scrolling down a zoom between 0.9 times the current one and the
    current one. *)
Theorem wheel_zoom_direction (this : Renderer) (deltaY : R) :
  0 < minZoom this -> zoomInRange this ->
  (deltaY <= 0 ->
   zoom this <= wheelZoom this deltaY <= 1.1 * zoom this) /\
  (0 < deltaY ->
   0.9 * zoom this <= wheelZoom this deltaY <= zoom this).
Proof.
  unfold zoomInRange, wheelZoom. intros Hmin Hz.
  split; intros Hd; js_decide.
Qed.

Lemma wheel_zoom_direction_witness :
  let this := newRenderer (mkCanvas 800 400) in
  zoom this <= wheelZoom this (-3) <= 1.1 * zoom this.
Proof.
  intros this.
  assert (Hmin : 0 < minZoom this) by (cbn; lra).
  assert (Hz : zoomInRange this) by (unfold zoomInRange; cbn; lra).
  destruct (wheel_zoom_direction this (-3) Hmin Hz) as [Hin _].
  apply Hin. lra.
Defined.



Section RoundedRoundTrip.

Variable rnd : R -> R.
Hypothesis rnd_error : forall v, Rabs (rnd v - v) <= Rounded.u * Rabs v.

Lemma rnd_zero : rnd 0 = 0.
Proof.
  pose proof (rnd_error 0) as H. rewrite Rabs_R0, Rmult_0_r in H.
  apply between_Rabs in H. lra.
Qed.

(** The abscissa of a canvas place that shows a point of the map, unprojected
    and projected again. *)
Lemma unproject_project_x (w z pan s : R) :
  0 < w -> 1 <= z <= 25 -> Rabs pan <= 1000 * w ->
  0 <= (((s - pan) - w / 2) / z + w / 2) / w <= 1 ->
  let c := Rounded.div rnd w 2 in
  let share :=
    Rounded.div rnd
      (Rounded.add rnd
         (Rounded.div rnd (Rounded.sub rnd (Rounded.sub rnd s pan) c) z) c)
      w in
  let l := Rounded.sub rnd (Rounded.mul rnd share 360) 180 in
  let b := Rounded.mul rnd w (Rounded.div rnd (Rounded.add rnd l 180) 360) in
  Rabs (Rounded.add rnd
          (Rounded.add rnd c (Rounded.mul rnd (Rounded.sub rnd b c) z)) pan
        - s)
  <= 3000 * Rounded.u * w.
Proof.
  intros Hw Hz Hpan Ht c share l b. pose proof u_pos as Hu.
  assert (Hu1 : Rounded.u <= / 1000000)
    by (unfold Rounded.u; apply Rinv_le_contravar; lra).
  assert (Hq : Rounded.u * Rounded.u <= / 1000000 * Rounded.u)
    by (apply Rmult_le_compat_r; lra).
  set (t := (((s - pan) - w / 2) / z + w / 2) / w) in *.
  assert (Hs : s = w / 2 + (w * t - w / 2) * z + pan)
    by (unfold t; field; lra).
  assert (H0 : Rabs (s - (w / 2 + (w * t - w / 2) * z + pan)) <= 0 * w).
  { rewrite <- Hs. replace (s - s) with 0 by ring. rewrite Rabs_R0. lra. }
  pose proof (backward_axis rnd rnd_error w z pan t s 0 Hw Hz Hpan Ht
                ltac:(lra) H0) as Hb.
  fold c share in Hb.
  assert (H1 : Rabs (Rounded.mul rnd share 360 - 360 * t)
               <= 14800 * Rounded.u).
  { unfold Rounded.mul. eapply Rle_trans;
      [apply (rounded_close rnd rnd_error _ (360 * t) (14400 * Rounded.u) 360);
        unabs; lra|]. lra. }
  assert (H2 : Rabs (l - (360 * t - 180)) <= 15000 * Rounded.u).
  { unfold l, Rounded.sub. eapply Rle_trans;
      [apply (rounded_close rnd rnd_error _ (360 * t - 180)
                (14800 * Rounded.u) 180); unabs; lra|]. lra. }
  assert (H3 : Rabs (Rounded.add rnd l 180 - 360 * t) <= 15400 * Rounded.u).
  { unfold Rounded.add. eapply Rle_trans;
      [apply (rounded_close rnd rnd_error _ (360 * t)
                (15000 * Rounded.u) 360); unabs; lra|]. lra. }
  assert (H4 : Rabs (Rounded.div rnd (Rounded.add rnd l 180) 360 - t)
               <= 45 * Rounded.u).
  { unfold Rounded.div at 1. eapply Rle_trans;
      [apply (rounded_close rnd rnd_error _ t (43 * Rounded.u) 1);
        unabs; lra|]. lra. }
  pose proof (forward_axis rnd rnd_error w z pan t _ (45 * Rounded.u)
                Hw Hz Hpan Ht ltac:(lra) H4) as Hf.
  fold b c in Hf. rewrite <- Hs in Hf.
  eapply Rle_trans; [exact Hf|]. nra.
Qed.

(** The same for the ordinate. *)
Lemma unproject_project_y (h z pan s : R) :
  0 < h -> 1 <= z <= 25 -> Rabs pan <= 1000 * h ->
  0 <= (((s - pan) - h / 2) / z + h / 2) / h <= 1 ->
  let c := Rounded.div rnd h 2 in
  let share :=
    Rounded.div rnd
      (Rounded.add rnd
         (Rounded.div rnd (Rounded.sub rnd (Rounded.sub rnd s pan) c) z) c)
      h in
  let l := Rounded.sub rnd 90 (Rounded.mul rnd share 180) in
  let b := Rounded.mul rnd h (Rounded.div rnd (Rounded.sub rnd 90 l) 180) in
  Rabs (Rounded.add rnd
          (Rounded.add rnd c (Rounded.mul rnd (Rounded.sub rnd b c) z)) pan
        - s)
  <= 3000 * Rounded.u * h.
Proof.
  intros Hh Hz Hpan Ht c share l b. pose proof u_pos as Hu.
  assert (Hu1 : Rounded.u <= / 1000000)
    by (unfold Rounded.u; apply Rinv_le_contravar; lra).
  assert (Hq : Rounded.u * Rounded.u <= / 1000000 * Rounded.u)
    by (apply Rmult_le_compat_r; lra).
  set (t := (((s - pan) - h / 2) / z + h / 2) / h) in *.
  assert (Hs : s = h / 2 + (h * t - h / 2) * z + pan)
    by (unfold t; field; lra).
  assert (H0 : Rabs (s - (h / 2 + (h * t - h / 2) * z + pan)) <= 0 * h).
  { rewrite <- Hs. replace (s - s) with 0 by ring. rewrite Rabs_R0. lra. }
  pose proof (backward_axis rnd rnd_error h z pan t s 0 Hh Hz Hpan Ht
                ltac:(lra) H0) as Hb.
  fold c share in Hb.
  assert (H1 : Rabs (Rounded.mul rnd share 180 - 180 * t)
               <= 7400 * Rounded.u).
  { unfold Rounded.mul. eapply Rle_trans;
      [apply (rounded_close rnd rnd_error _ (180 * t) (7200 * Rounded.u) 180);
        unabs; lra|]. lra. }
  assert (H2 : Rabs (l - (90 - 180 * t)) <= 7500 * Rounded.u).
  { unfold l, Rounded.sub. eapply Rle_trans;
      [apply (rounded_close rnd rnd_error _ (90 - 180 * t)
                (7400 * Rounded.u) 90); unabs; lra|]. lra. }
  assert (H3 : Rabs (Rounded.sub rnd 90 l - 180 * t) <= 7700 * Rounded.u).
  { unfold Rounded.sub at 1. eapply Rle_trans;
      [apply (rounded_close rnd rnd_error _ (180 * t)
                (7500 * Rounded.u) 180); unabs; lra|]. lra. }
  assert (H4 : Rabs (Rounded.div rnd (Rounded.sub rnd 90 l) 180 - t)
               <= 45 * Rounded.u).
  { unfold Rounded.div at 1. eapply Rle_trans;
      [apply (rounded_close rnd rnd_error _ t (43 * Rounded.u) 1);
        unabs; lra|]. lra. }
  pose proof (forward_axis rnd rnd_error h z pan t _ (45 * Rounded.u)
                Hh Hz Hpan Ht ltac:(lra) H4) as Hf.
  fold b c in Hf. rewrite <- Hs in Hf.
  eapply Rle_trans; [exact Hf|]. nra.
Qed.

(** The plain projection of one axis, against the exact place. *)
Lemma plain_axis (w t a2 : R) :
  0 < w -> 0 <= t <= 1 -> Rabs (a2 - t) <= 3 * Rounded.u ->
  Rabs (Rounded.mul rnd w a2 - w * t) <= 5 * Rounded.u * w.
Proof.
  intros Hw Ht Ha. pose proof u_pos as Hu.
  assert (Hu1 : Rounded.u <= / 1000000)
    by (unfold Rounded.u; apply Rinv_le_contravar; lra).
  assert (Hq2 : 0 <= Rounded.u * w) by nra.
  assert (Hq3 : Rounded.u * (Rounded.u * w) <= / 1000000 * (Rounded.u * w))
    by (apply Rmult_le_compat_r; lra).
  assert (HB : 0 <= w * t <= w) by nra.
  unfold Rounded.mul. eapply Rle_trans;
    [apply (rounded_close rnd rnd_error _ (w * t) (w * (3 * Rounded.u)) w);
      [apply scaled_close; [lra|exact Ha]|unabs; lra]|]. lra.
Qed.

Lemma lon_share (l : R) :
  -180 <= l <= 180 ->
  Rabs (Rounded.div rnd (Rounded.add rnd l 180) 360 - (l + 180) / 360)
  <= 3 * Rounded.u.
Proof.
  intros Hl. pose proof u_pos as Hu.
  assert (Hu1 : Rounded.u <= / 1000000)
    by (unfold Rounded.u; apply Rinv_le_contravar; lra).
  assert (Hq : Rounded.u * Rounded.u <= / 1000000 * Rounded.u)
    by (apply Rmult_le_compat_r; lra).
  assert (Ha1 : Rabs (Rounded.add rnd l 180 - (l + 180)) <= 360 * Rounded.u).
  { unfold Rounded.add. eapply Rle_trans;
      [apply (rounded_close rnd rnd_error _ (l + 180) 0 360); unabs; lra|].
    lra. }
  unfold Rounded.div. eapply Rle_trans;
    [apply (rounded_close rnd rnd_error _ ((l + 180) / 360) Rounded.u 1);
      unabs; lra|]. lra.
Qed.

Lemma lat_share (l : R) :
  -90 <= l <= 90 ->
  Rabs (Rounded.div rnd (Rounded.sub rnd 90 l) 180 - (90 - l) / 180)
  <= 3 * Rounded.u.
Proof.
  intros Hl. pose proof u_pos as Hu.
  assert (Hu1 : Rounded.u <= / 1000000)
    by (unfold Rounded.u; apply Rinv_le_contravar; lra).
  assert (Hq : Rounded.u * Rounded.u <= / 1000000 * Rounded.u)
    by (apply Rmult_le_compat_r; lra).
  assert (Ha1 : Rabs (Rounded.sub rnd 90 l - (90 - l)) <= 180 * Rounded.u).
  { unfold Rounded.sub. eapply Rle_trans;
      [apply (rounded_close rnd rnd_error _ (90 - l) 0 180); unabs; lra|].
    lra. }
  unfold Rounded.div. eapply Rle_trans;
    [apply (rounded_close rnd rnd_error _ ((90 - l) / 180) Rounded.u 1);
      unabs; lra|]. lra.
Qed.

(** At zoom 1 and pan 0 the zoomed projection of one axis is the plain one
    up to rounding. *)
Lemma unzoomed_axis (w t a2 : R) :
  0 < w -> 0 <= t <= 1 -> Rabs (a2 - t) <= 3 * Rounded.u ->
  let c := Rounded.div rnd w 2 in
  let b := Rounded.mul rnd w a2 in
  Rabs (Rounded.add rnd
          (Rounded.add rnd c (Rounded.mul rnd (Rounded.sub rnd b c) 1.0)) 0
        - b)
  <= 1200 * Rounded.u * w.
Proof.
  intros Hw Ht Ha c b. pose proof u_pos as Hu.
  assert (Hu1 : Rounded.u <= / 1000000)
    by (unfold Rounded.u; apply Rinv_le_contravar; lra).
  assert (Hq2 : 0 <= Rounded.u * w) by nra.
  pose proof (plain_axis w t a2 Hw Ht Ha) as Hp. fold b in Hp.
  assert (Hpan : Rabs 0 <= 1000 * w) by (rewrite Rabs_R0; lra).
  pose proof (forward_axis rnd rnd_error w 1.0 0 t a2 (3 * Rounded.u)
                Hw ltac:(lra) Hpan Ht ltac:(lra) Ha) as Hf.
  fold b c in Hf. unabs. lra.
Qed.

End RoundedRoundTrip.

Lemma pixel_tolerance (w : R) : 0 < w -> 3000 * Rounded.u * w <= 1e-12 * w.
Proof.
  intros Hw. apply Rmult_le_compat_r; [lra|]. unfold Rounded.u. lra.
Qed.

(** X6.  With every operation rounded as binary64 rounds it, projecting the
    unprojection of a canvas place that shows a point of the map gives the
    place back within [1e-12] of the canvas size, for a zoom between 1 and
    25, a canvas between 1 and 1e9 pixels wide and high and a pan of at most
    a thousand canvas sizes: [toCanvas] inverts [toLatLon] as well as the
    other way round, up to rounding. *)
Theorem project_unproject_roundtrip
  (rnd : R -> R) (this : Renderer) (canvasX canvasY : R) :
  (forall v, Rabs (rnd v - v) <= Rounded.u * Rabs v) ->
  1 <= zoom this <= 25 ->
  1 <= width (canvas this) <= 1e9 -> 1 <= height (canvas this) <= 1e9 ->
  Rabs (panX this) <= 1000 * width (canvas this) ->
  Rabs (panY this) <= 1000 * height (canvas this) ->
  -90 <= lat (toLatLon this canvasX canvasY) <= 90 ->
  -180 <= lon (toLatLon this canvasX canvasY) <= 180 ->
  let ll := Rounded.toLatLon rnd this canvasX canvasY in
  let q := Rounded.toCanvas rnd this (lat ll) (lon ll) in
  Rabs (x q - canvasX) <= 1e-12 * width (canvas this) /\
  Rabs (y q - canvasY) <= 1e-12 * height (canvas this).
Proof.
  intros Hr Hz Hw Hh Hpx Hpy Hlat Hlon ll q.
  unfold toLatLon in Hlat, Hlon. cbn [lat lon] in Hlat, Hlon.
  split.
  - eapply Rle_trans; [|apply pixel_tolerance; lra].
    apply (unproject_project_x rnd Hr (width (canvas this)) (zoom this)
             (panX this) canvasX); try lra.
  - eapply Rle_trans; [|apply pixel_tolerance; lra].
    apply (unproject_project_y rnd Hr (height (canvas this)) (zoom this)
             (panY this) canvasY); try lra.
Qed.

Lemma project_unproject_roundtrip_witness :
  let this := set_pan (set_zoom (newRenderer (mkCanvas 800 400)) 3) 40 (-25) in
  let ll := Rounded.toLatLon Rounded.round53 this 123 45 in
  let q := Rounded.toCanvas Rounded.round53 this (lat ll) (lon ll) in
  Rabs (x q - 123) <= 1e-12 * 800 /\ Rabs (y q - 45) <= 1e-12 * 400.
Proof.
  apply (project_unproject_roundtrip Rounded.round53
           (set_pan (set_zoom (newRenderer (mkCanvas 800 400)) 3) 40 (-25))
           123 45 round53_error); cbn; try lra;
    unfold Rabs; destruct (Rcase_abs _); lra.
Defined.

Lemma set_zoom_same (this : Renderer) : set_zoom this (zoom this) = this.
Proof. destruct this; reflexivity. Qed.

(** X7.  A wheel event in the middle of a drag changes the zoom, but the pan
    it computes is dropped by the next mouse move, which starts again from
    the pan at mouse-down: the move gives the state it would give had the zoom
    alone been replaced. *)
Theorem wheel_pan_lost_during_drag
  (this : Renderer) (deltaY wheelX wheelY mouseX mouseY : R) :
  isDragging this = true ->
  handleMouseMove (fst (handleWheel this deltaY wheelX wheelY)) mouseX mouseY
  = handleMouseMove (set_zoom this (wheelZoom this deltaY)) mouseX mouseY.
Proof.
  intros Hd. unfold handleWheel.
  destruct (wheelZoom this deltaY =? zoom this) eqn:He; cbn [negb fst].
  - apply Reqb_true in He. rewrite He, set_zoom_same. reflexivity.
  - unfold handleMouseMove. cbn. rewrite Hd. reflexivity.
Qed.

Lemma wheel_pan_lost_during_drag_witness :
  let this := handleMouseDown (newRenderer (mkCanvas 800 400)) 10 20 in
  handleMouseMove (fst (handleWheel this (-1) 700 300)) 30 40
  = handleMouseMove (set_zoom this (wheelZoom this (-1))) 30 40.
Proof.
  apply (wheel_pan_lost_during_drag
           (handleMouseDown (newRenderer (mkCanvas 800 400)) 10 20)
           (-1) 700 300 30 40).
  reflexivity.
Defined.

(** X8.  With every operation rounded as binary64 rounds it, in the view
    that [resetView] restores, and in the constructor's, the zoomed
    projection of a point of the map lies within [1e-12] of the canvas size
    of its plain equirectangular projection by [WorldMapRenderer], which
    maps the map corner (90, -180) on the canvas corner (0, 0) exactly. *)
Theorem reset_view_is_plain_projection
  (rnd : R -> R) (this : Renderer) (lat lon : R) :
  (forall v, Rabs (rnd v - v) <= Rounded.u * Rabs v) ->
  -90 <= lat <= 90 -> -180 <= lon <= 180 ->
  1 <= width (canvas this) <= 1e9 -> 1 <= height (canvas this) <= 1e9 ->
  let plain := Rounded.plainToCanvas rnd (canvas this) lat lon in
  let reset := Rounded.toCanvas rnd (resetView this) lat lon in
  let fresh := Rounded.toCanvas rnd (newRenderer (canvas this)) lat lon in
  Rabs (x reset - x plain) <= 1e-12 * width (canvas this) /\
  Rabs (y reset - y plain) <= 1e-12 * height (canvas this) /\
  fresh = reset /\
  Rounded.plainToCanvas rnd (canvas this) 90 (-180) = {| x := 0; y := 0 |}.
Proof.
  intros Hr Hlat Hlon Hw Hh plain reset fresh.
  assert (Htx : 0 <= (lon + 180) / 360 <= 1) by lra.
  assert (Hty : 0 <= (90 - lat) / 180 <= 1) by lra.
  split; [|split; [|split]].
  - eapply Rle_trans; [|apply pixel_tolerance; lra].
    eapply Rle_trans;
      [apply (unzoomed_axis rnd Hr (width (canvas this)) ((lon + 180) / 360));
        [lra|exact Htx|apply lon_share; assumption]|].
    pose proof u_pos. nra.
  - eapply Rle_trans; [|apply pixel_tolerance; lra].
    eapply Rle_trans;
      [apply (unzoomed_axis rnd Hr (height (canvas this)) ((90 - lat) / 180));
        [lra|exact Hty|apply lat_share; assumption]|].
    pose proof u_pos. nra.
  - reflexivity.
  - unfold Rounded.plainToCanvas, Rounded.mul, Rounded.div, Rounded.add,
      Rounded.sub.
    replace (-180 + 180) with 0 by ring. replace (90 - 90) with 0 by ring.
    rewrite (rnd_zero rnd Hr).
    replace (0 / 360) with 0 by (unfold Rdiv; ring).
    replace (0 / 180) with 0 by (unfold Rdiv; ring).
    rewrite (rnd_zero rnd Hr), !Rmult_0_r, (rnd_zero rnd Hr). reflexivity.
Qed.

Lemma reset_view_is_plain_projection_witness :
  let this := set_pan (set_zoom (newRenderer (mkCanvas 800 400)) 3) 40 (-25) in
  let plain := Rounded.plainToCanvas Rounded.round53 (canvas this) 48 2 in
  let reset := Rounded.toCanvas Rounded.round53 (resetView this) 48 2 in
  Rabs (x reset - x plain) <= 1e-12 * 800.
Proof.
  refine (proj1 (reset_view_is_plain_projection Rounded.round53
                   (set_pan (set_zoom (newRenderer (mkCanvas 800 400)) 3)
                            40 (-25))
                   48 2 round53_error _ _ _ _)); cbn; lra.
Defined.

(** ** Ray casting: the shape of the ring *)

Lemma edgesFrom_snoc (pj : Position) (l : list Position) (a : Position) :
  edgesFrom pj (l ++ [a]) = edgesFrom pj l ++ [(a, last (pj :: l) (0, 0))].
Proof.
  revert pj. induction l as [|b l IH]; intros pj.
  - reflexivity.
  - cbn [app edgesFrom]. rewrite IH. reflexivity.
Qed.

Lemma last_cons_default (a : Position) (l : list Position) (d d' : Position) :
  last (a :: l) d = last (a :: l) d'.
Proof.
  revert a. induction l as [|b l IH]; intros a; [reflexivity|].
  change (last (a :: b :: l) d) with (last (b :: l) d).
  change (last (a :: b :: l) d') with (last (b :: l) d'). apply IH.
Qed.

Lemma pathCrossings_cons (lat lon : R) (pj pi : Position) (rest : list Position) :
  pathCrossings lat lon pj (pi :: rest)
  = ((if intersect lat lon pi pj then 1 else 0)
     + pathCrossings lat lon pi rest)%nat.
Proof.
  unfold pathCrossings. cbn [edgesFrom filter fst snd].
  destruct (intersect lat lon pi pj); reflexivity.
Qed.

Lemma pathCrossings_snoc (lat lon : R) (pj : Position) (l : list Position)
  (a : Position) :
  pathCrossings lat lon pj (l ++ [a])
  = (pathCrossings lat lon pj l
     + (if intersect lat lon a (last (pj :: l) (0, 0)%R) then 1 else 0))%nat.
Proof.
  unfold pathCrossings. rewrite edgesFrom_snoc, filter_app, length_app.
  cbn [filter fst snd]. destruct (intersect _ _ _ _); reflexivity.
Qed.

Lemma crossings_cons (lat lon : R) (a : Position) (l : list Position) :
  crossings lat lon (a :: l)
  = ((if intersect lat lon a (last (a :: l) (0, 0)%R) then 1 else 0)
     + pathCrossings lat lon a l)%nat.
Proof.
  unfold crossings, edges. apply (pathCrossings_cons lat lon _ a l).
Qed.

Lemma crossings_rotate1 (lat lon : R) (a : Position) (l : list Position) :
  crossings lat lon (l ++ [a]) = crossings lat lon (a :: l).
Proof.
  rewrite crossings_cons.
  unfold crossings, edges. rewrite last_last.
  change (List.length (filter _ (edgesFrom a (l ++ [a]))))
    with (pathCrossings lat lon a (l ++ [a])).
  rewrite pathCrossings_snoc. lia.
Qed.

Lemma crossings_rotate (lat lon : R) (l1 l2 : list Position) :
  crossings lat lon (l2 ++ l1) = crossings lat lon (l1 ++ l2).
Proof.
  revert l2. induction l1 as [|a l1 IH]; intros l2.
  - rewrite app_nil_r. reflexivity.
  - replace (l2 ++ a :: l1) with ((l2 ++ [a]) ++ l1)
      by (rewrite <- app_assoc; reflexivity).
    rewrite IH, app_assoc, crossings_rotate1. reflexivity.
Qed.

Lemma intersect_same (lat lon : R) (a : Position) : intersect lat lon a a = false.
Proof.
  destruct a as [xa ya]. unfold intersect, straddles.
  destruct (ya >? lat); reflexivity.
Qed.

Lemma crossings_closed (lat lon : R) (a : Position) (l : list Position) :
  crossings lat lon ((a :: l) ++ [a]) = crossings lat lon (a :: l).
Proof.
  rewrite crossings_rotate1, !crossings_cons, pathCrossings_cons.
  rewrite intersect_same.
  change (last (a :: a :: l) (0, 0)) with (last (a :: l) (0, 0)). lia.
Qed.

(** The same on binary64 numbers: the loop only folds the edge tests, so
    where the ring starts does not matter whatever the rounding. *)
Lemma binary64_rayLoop_flip (lat lon : float) (pj : IEEE.Position)
  (rest : list IEEE.Position) (inside : bool) :
  IEEE.rayLoop lat lon pj rest inside
  = xorb inside (IEEE.rayLoop lat lon pj rest false).
Proof.
  revert pj inside. induction rest as [|pi rest IH]; intros pj inside.
  - cbn. destruct inside; reflexivity.
  - cbn [IEEE.rayLoop]. rewrite IH.
    rewrite (IH pi (if IEEE.intersect lat lon pi pj then negb false else false)).
    destruct (IEEE.intersect lat lon pi pj), inside,
      (IEEE.rayLoop lat lon pi rest false); reflexivity.
Qed.

Lemma binary64_last_default (l : list IEEE.Position) (d d' : IEEE.Position) :
  l <> [] -> last l d = last l d'.
Proof.
  intros H. destruct (exists_last H) as (l' & a & ->).
  rewrite !last_last. reflexivity.
Qed.

Lemma binary64_rayLoop_app (lat lon : float) (pj : IEEE.Position)
  (l1 l2 : list IEEE.Position) (inside : bool) :
  IEEE.rayLoop lat lon pj (l1 ++ l2) inside
  = IEEE.rayLoop lat lon (last l1 pj) l2 (IEEE.rayLoop lat lon pj l1 inside).
Proof.
  revert pj inside. induction l1 as [|a l1 IH]; intros pj inside.
  - reflexivity.
  - cbn [app IEEE.rayLoop]. rewrite IH. f_equal.
    destruct l1 as [|b l1]; [reflexivity|].
    change (last (a :: b :: l1) pj) with (last (b :: l1) pj).
    apply binary64_last_default. discriminate.
Qed.

Lemma binary64_last_app (l1 l2 : list IEEE.Position) (d : IEEE.Position) :
  l2 <> [] -> last (l1 ++ l2) d = last l2 d.
Proof.
  intros H2. destruct (exists_last H2) as (l & a & ->).
  rewrite app_assoc, !last_last. reflexivity.
Qed.

Lemma binary64_rotate (lat lon : float) (l1 l2 : list IEEE.Position) :
  IEEE.rayLoop lat lon (last (l2 ++ l1) (0, 0)%float) (l2 ++ l1) false
  = IEEE.rayLoop lat lon (last (l1 ++ l2) (0, 0)%float) (l1 ++ l2) false.
Proof.
  destruct l1 as [|a1 l1]; [rewrite app_nil_r; reflexivity|].
  destruct l2 as [|a2 l2]; [rewrite app_nil_r; reflexivity|].
  rewrite !binary64_rayLoop_app.
  rewrite (binary64_last_app (a2 :: l2) (a1 :: l1)) by discriminate.
  rewrite (binary64_last_app (a1 :: l1) (a2 :: l2)) by discriminate.
  rewrite (binary64_last_default (a2 :: l2) (last (a1 :: l1) (0, 0)%float)
             (0, 0)%float) by discriminate.
  rewrite (binary64_last_default (a1 :: l1) (last (a2 :: l2) (0, 0)%float)
             (0, 0)%float) by discriminate.
  rewrite (binary64_rayLoop_flip lat lon _ (a1 :: l1) (IEEE.rayLoop _ _ _ _ _)).
  rewrite (binary64_rayLoop_flip lat lon _ (a2 :: l2) (IEEE.rayLoop _ _ _ _ _)).
  apply xorb_comm.
Qed.

Lemma binary64_intersect_same (lat lon : float) (a : IEEE.Position) :
  IEEE.intersect lat lon a a = false.
Proof.
  destruct a as [xa ya]. unfold IEEE.intersect.
  destruct (lat <? ya)%float; reflexivity.
Qed.

Lemma binary64_closed (lat lon : float) (a : IEEE.Position)
  (l : list IEEE.Position) :
  IEEE.rayLoop lat lon (last ((a :: l) ++ [a]) (0, 0)%float)
    ((a :: l) ++ [a]) false
  = IEEE.rayLoop lat lon (last (a :: l) (0, 0)%float) (a :: l) false.
Proof.
  rewrite last_last, binary64_rayLoop_app.
  rewrite (binary64_last_default (a :: l) a (0, 0)%float) by discriminate.
  set (z := last (a :: l) (0, 0)%float).
  cbn [IEEE.rayLoop]. rewrite binary64_intersect_same.
  rewrite (binary64_rayLoop_flip lat lon a l
             (if IEEE.intersect lat lon a z then negb false else false)).
  destruct (IEEE.intersect lat lon a z),
    (IEEE.rayLoop lat lon a l false); reflexivity.
Qed.

(** X9.  The result of the hit test does not depend on where in its cycle
    the outer ring starts, nor on whether the first point is repeated at the
    end; both hold as well on binary64 numbers, where every edge test is
    computed on the same pair of points either way. *)
Theorem hit_test_independent_of_ring_start
  (lat lon : R) (before after ring : Ring) (first : Position)
  (holes : list Ring)
  (flat flon : float) (fbefore fafter fring : list IEEE.Position)
  (ffirst : IEEE.Position) (fholes : list (list IEEE.Position)) :
  isPointInPolygon lat lon ((after ++ before) :: holes)
  = isPointInPolygon lat lon ((before ++ after) :: holes) /\
  isPointInPolygon lat lon (((first :: ring) ++ [first]) :: holes)
  = isPointInPolygon lat lon ((first :: ring) :: holes) /\
  IEEE.isPointInPolygon flat flon ((fafter ++ fbefore) :: fholes)
  = IEEE.isPointInPolygon flat flon ((fbefore ++ fafter) :: fholes) /\
  IEEE.isPointInPolygon flat flon (((ffirst :: fring) ++ [ffirst]) :: fholes)
  = IEEE.isPointInPolygon flat flon ((ffirst :: fring) :: fholes).
Proof.
  split; [|split; [|split]].
  - unfold isPointInPolygon. rewrite !rayCast_parity, crossings_rotate.
    reflexivity.
  - unfold isPointInPolygon. rewrite !rayCast_parity, crossings_closed.
    reflexivity.
  - unfold IEEE.isPointInPolygon. rewrite binary64_rotate. reflexivity.
  - unfold IEEE.isPointInPolygon. rewrite binary64_closed. reflexivity.
Qed.

Lemma rayCast_rectangle (lat lon x0 y0 x1 y1 : R) :
  x0 < x1 -> y0 < y1 ->
  (rayCast lat lon (rectangle x0 y0 x1 y1) = true
   <-> x0 <= lon < x1 /\ y0 <= lat < y1).
Proof.
  intros Hx Hy. unfold rayCast, rectangle. cbn [last rayLoop intersect].
  unfold straddles.
  replace ((x0 - x0) * (lat - y1) / (y0 - y1) + x0) with x0
    by (unfold Rdiv; ring).
  replace ((x1 - x1) * (lat - y0) / (y1 - y0) + x1) with x1
    by (unfold Rdiv; ring).
  destruct (Rlt_dec lat y0) as [H0|H0];
    [rewrite (proj2 (Rgtb_true y0 lat)) by lra | rewrite (proj2 (Rgtb_false y0 lat)) by lra];
  (destruct (Rlt_dec lat y1) as [H1|H1];
    [rewrite (proj2 (Rgtb_true y1 lat)) by lra | rewrite (proj2 (Rgtb_false y1 lat)) by lra]);
  (destruct (Rlt_dec lon x0) as [H2|H2];
    [rewrite (proj2 (Rltb_true lon x0)) by lra | rewrite (proj2 (Rltb_false lon x0)) by lra]);
  (destruct (Rlt_dec lon x1) as [H3|H3];
    [rewrite (proj2 (Rltb_true lon x1)) by lra | rewrite (proj2 (Rltb_false lon x1)) by lra]);
  cbn; split; intros H; try discriminate; try reflexivity; try lra.
Qed.

(** X10.  For an axis-aligned rectangle the three hit tests of the repository
    agree with the half-open box: the low edges belong to the rectangle, the
    high edges do not. *)
Theorem rectangle_hit_test_is_half_open (lat lon x0 y0 x1 y1 : R)
  (holes : list Ring) :
  x0 < x1 -> y0 < y1 ->
  (isPointInPolygon lat lon (rectangle x0 y0 x1 y1 :: holes) = Some true
   <-> x0 <= lon < x1 /\ y0 <= lat < y1) /\
  (UkraineFrontlineData.pointInPolygon (lon, lat) (rectangle x0 y0 x1 y1) = true
   <-> x0 <= lon < x1 /\ y0 <= lat < y1) /\
  (ConflictZonesData.isPointInPolygon lat lon (rectangle x0 y0 x1 y1) = true
   <-> x0 <= lat < x1 /\ y0 <= lon < y1).
Proof.
  intros Hx Hy. split; [|split].
  - unfold isPointInPolygon. rewrite <- (rayCast_rectangle lat lon) by assumption.
    split; [intros H; injection H as H; exact H | intros H; f_equal; exact H].
  - apply (rayCast_rectangle lat lon); assumption.
  - apply (rayCast_rectangle lon lat); assumption.
Qed.

Lemma rectangle_hit_test_is_half_open_witness :
  (isPointInPolygon 0 0 (rectangle 0 0 10 10 :: []) = Some true
   <-> 0 <= 0 < 10 /\ 0 <= 0 < 10) /\
  (UkraineFrontlineData.pointInPolygon (10, 10) (rectangle 0 0 10 10) = true
   <-> 0 <= 10 < 10 /\ 0 <= 10 < 10).
Proof.
  destruct (rectangle_hit_test_is_half_open 0 0 0 0 10 10 []) as (H1 & _ & _);
    [lra | lra |].
  destruct (rectangle_hit_test_is_half_open 10 10 0 0 10 10 []) as (_ & H2 & _);
    [lra | lra |].
  split; assumption.
Defined.

(** ** Ray casting: the latitude band *)

Lemma intersect_straddles (lat lon : R) (pi pj : Position) :
  intersect lat lon pi pj = true -> straddles lat (snd pi) (snd pj) = true.
Proof.
  destruct pi as [xi yi], pj as [xj yj]. unfold intersect. cbn [snd].
  intros H. apply andb_true_iff in H. tauto.
Qed.

Lemma straddles_cases (lat yi yj : R) :
  straddles lat yi yj = true ->
  (yj <= lat < yi) \/ (yi <= lat < yj).
Proof.
  unfold straddles.
  destruct (Rlt_dec lat yi) as [Hi|Hi];
    [rewrite (proj2 (Rgtb_true yi lat)) by lra | rewrite (proj2 (Rgtb_false yi lat)) by lra];
  (destruct (Rlt_dec lat yj) as [Hj|Hj];
    [rewrite (proj2 (Rgtb_true yj lat)) by lra | rewrite (proj2 (Rgtb_false yj lat)) by lra]);
  cbn; intros H; try discriminate; lra.
Qed.

Lemma edgesFrom_In (pj : Position) (rest : list Position) (e : Position * Position) :
  In e (edgesFrom pj rest) -> In (fst e) rest /\ In (snd e) (pj :: rest).
Proof.
  revert pj. induction rest as [|pi rest IH]; intros pj H; [destruct H|].
  cbn [edgesFrom] in H. destruct H as [H|H].
  - subst e. cbn. auto.
  - apply IH in H. destruct H as [H1 H2]. split; [right; exact H1|].
    right. exact H2.
Qed.

Lemma edges_In (ring : Ring) (e : Position * Position) :
  In e (edges ring) -> In (fst e) ring /\ In (snd e) ring.
Proof.
  unfold edges. intros H. apply edgesFrom_In in H. destruct H as [H1 H2].
  split; [exact H1|]. destruct H2 as [H2|H2]; [|exact H2].
  destruct ring as [|a l]; [destruct H1|].
  rewrite <- H2.
  destruct (@exists_last _ (a :: l)) as (l' & z & Hz); [discriminate|].
  rewrite Hz, last_last. apply in_or_app. right. left. reflexivity.
Qed.

(** On binary64 numbers: a flip of [inside] comes from an edge whose end
    points compare differently with the latitude. *)
Lemma binary64_crossing_edge (lat lon : float) (pj : IEEE.Position)
  (rest : list IEEE.Position) (inside : bool) :
  IEEE.rayLoop lat lon pj rest inside = true ->
  inside = true \/
  exists p q, In p (pj :: rest) /\ In q (pj :: rest) /\
    (lat <? snd p)%float = false /\ (lat <? snd q)%float = true.
Proof.
  revert pj inside. induction rest as [|pi rest IH]; intros pj inside H.
  - left. exact H.
  - cbn [IEEE.rayLoop] in H. apply IH in H. destruct H as [H|H].
    + destruct (IEEE.intersect lat lon pi pj) eqn:Hi; [|left; exact H].
      right. destruct pi as [xi yi], pj as [xj yj].
      unfold IEEE.intersect in Hi. apply andb_true_iff in Hi.
      destruct Hi as [Hs _].
      destruct (lat <? yi)%float eqn:Hyi, (lat <? yj)%float eqn:Hyj;
        try discriminate.
      * exists (xj, yj), (xi, yi). cbn [snd In]. auto.
      * exists (xi, yi), (xj, yj). cbn [snd In]. auto.
    + right. destruct H as (p & q & Hp & Hq & H1 & H2).
      exists p, q. split; [right; exact Hp|]. split; [right; exact Hq|]. auto.
Qed.

Lemma binary64_last_In (ring : list IEEE.Position) (d : IEEE.Position) :
  ring <> [] -> In (last ring d) ring.
Proof.
  intros H. destruct (exists_last H) as (l & a & ->).
  rewrite last_last. apply in_or_app. right. left. reflexivity.
Qed.

(** X11.  A point that the hit test accepts lies in the latitude band of the
    outer ring: some vertex is at or below its latitude and some vertex
    strictly above it, so a point north or south of all the vertices is
    never reported as inside.  On binary64 numbers the same holds with the
    comparison [lat < y] of the code. *)
Theorem hit_lies_in_latitude_band (lat lon : R) (ring : Ring)
  (holes : list Ring) (flat flon : float) (fring : list IEEE.Position)
  (fholes : list (list IEEE.Position)) :
  (isPointInPolygon lat lon (ring :: holes) = Some true ->
   exists p q, In p ring /\ In q ring /\ snd p <= lat < snd q) /\
  (IEEE.isPointInPolygon flat flon (fring :: fholes) = Some true ->
   exists p q, In p fring /\ In q fring /\
     (flat <? snd p)%float = false /\ (flat <? snd q)%float = true).
Proof.
  split.
  - unfold isPointInPolygon. intros H. injection H as H.
    rewrite rayCast_parity in H.
    assert (Hex : exists e, In e (edges ring)
                            /\ intersect lat lon (fst e) (snd e) = true).
    { unfold crossings in H.
      destruct (filter (fun e => intersect lat lon (fst e) (snd e)) (edges ring))
        as [|e l] eqn:Hf; [discriminate|].
      exists e.
      apply (proj1 (filter_In (fun e => intersect lat lon (fst e) (snd e))
                              e (edges ring))).
      rewrite Hf. left. reflexivity. }
    destruct Hex as (e & He & Hi). apply edges_In in He. destruct He as [H1 H2].
    pose proof (intersect_straddles _ _ _ _ Hi) as Hs.
    apply straddles_cases in Hs. destruct Hs as [Hs|Hs].
    + exists (snd e), (fst e). auto.
    + exists (fst e), (snd e). auto.
  - unfold IEEE.isPointInPolygon. intros H. injection H as H.
    destruct fring as [|a l]; [discriminate|].
    apply binary64_crossing_edge in H. destruct H as [H|H]; [discriminate|].
    destruct H as (p & q & Hp & Hq & H1 & H2).
    assert (Hlast : In (last (a :: l) (0, 0)%float) (a :: l))
      by (apply binary64_last_In; discriminate).
    exists p, q. split; [destruct Hp as [<-|Hp]; assumption|].
    split; [destruct Hq as [<-|Hq]; assumption|]. auto.
Qed.

Lemma hit_lies_in_latitude_band_witness :
  (exists p q, In p (rectangle 0 0 10 10) /\ In q (rectangle 0 0 10 10)
               /\ snd p <= 5 < snd q) /\
  (exists p q, In p IEEE.square /\ In q IEEE.square /\
     (5 <? snd p)%float = false /\ (5 <? snd q)%float = true).
Proof.
  destruct (hit_lies_in_latitude_band 5 5 (rectangle 0 0 10 10) []
              5 5 IEEE.square []) as [H1 H2].
  split.
  - apply H1. unfold isPointInPolygon. f_equal. apply rayCast_rectangle; lra.
  - apply H2. vm_compute. reflexivity.
Defined.

(** ** Countries under the pointer *)

Lemma isPointInCountry_outerRingContains (lat lon : R) (country : Feature) :
  hasOuterRings (geometry country) ->
  isPointInCountry lat lon country = Some (outerRingContains lat lon country).
Proof.
  unfold isPointInCountry, outerRingContains, hasOuterRings.
  destruct (geometry country) as [coordinates|polygons|]; intros H.
  - destruct coordinates as [|ring holes]; [contradiction|reflexivity].
  - induction polygons as [|polygon rest IH]; [reflexivity|].
    apply Forall_cons_iff in H. destruct H as [Hp Hrest].
    destruct polygon as [|ring holes]; [contradiction|].
    cbn [anyPolygon isPointInPolygon existsb hd].
    destruct (rayCast lat lon ring); [reflexivity|]. cbn [orb]. apply IH, Hrest.
  - reflexivity.
Qed.

Lemma countryLoop_find (lat lon : R) (countries : list Feature) :
  Forall (fun country => hasOuterRings (geometry country)) countries ->
  countryLoop lat lon countries = Some (find (outerRingContains lat lon) countries).
Proof.
  induction 1 as [|country rest Hc Hrest IH]; [reflexivity|].
  cbn [countryLoop find]. rewrite (isPointInCountry_outerRingContains _ _ _ Hc).
  destruct (outerRingContains lat lon country); [reflexivity|exact IH].
Qed.

Lemma find_first {A : Type} (f : A -> bool) (l : list A) (a : A) :
  find f l = Some a <->
  exists before after, l = before ++ a :: after /\ f a = true /\
    Forall (fun b => f b = false) before.
Proof.
  induction l as [|h t IH]; cbn [find].
  - split; [discriminate|]. intros (before & after & H & _).
    destruct before; discriminate.
  - destruct (f h) eqn:Hh.
    + split.
      * intros H. injection H as <-. exists [], t. auto.
      * intros (before & after & Heq & Ha & Hb).
        destruct before as [|b before]; cbn in Heq; injection Heq as <- _.
        -- reflexivity.
        -- apply Forall_inv in Hb. congruence.
    + rewrite IH. split.
      * intros (before & after & -> & Ha & Hb).
        exists (h :: before), after. auto.
      * intros (before & after & Heq & Ha & Hb).
        destruct before as [|b before]; cbn in Heq; injection Heq as <- ->.
        -- congruence.
        -- exists before, after. split; [reflexivity|].
           split; [exact Ha|]. apply Forall_inv_tail in Hb. exact Hb.
Qed.

(** X12.  [getCountryAtPoint] returns the first country, in the order of the
    data, one of whose outer rings contains the position that [toLatLon]
    gives for the pointer, or [null] when there is none; holes play no
    part, and every polygon of the data is to have a ring. *)
Theorem country_under_pointer (this : Renderer) (countries : list Feature)
  (mouseX mouseY : R) (country : Feature) :
  Forall (fun country => hasOuterRings (geometry country)) countries ->
  let ll := toLatLon this mouseX mouseY in
  (getCountryAtPoint this (Some countries) mouseX mouseY = Some (Some country)
   <-> exists before after, countries = before ++ country :: after /\
         outerRingContains (lat ll) (lon ll) country = true /\
         Forall (fun c => outerRingContains (lat ll) (lon ll) c = false)
                before) /\
  (getCountryAtPoint this (Some countries) mouseX mouseY = Some None
   <-> Forall (fun c => outerRingContains (lat ll) (lon ll) c = false)
              countries).
Proof.
  intros Hc ll. unfold getCountryAtPoint. fold ll.
  rewrite (countryLoop_find _ _ _ Hc). split.
  - rewrite <- find_first. split; [intros H; injection H as H; exact H|].
    intros ->. reflexivity.
  - split.
    + intros H. injection H as H. apply Forall_forall. intros c Hin.
      apply (find_none _ _ H c Hin).
    + intros H. f_equal.
      destruct (find _ countries) as [c|] eqn:Hf; [|reflexivity].
      apply find_some in Hf. destruct Hf as [Hin Ht].
      rewrite Forall_forall in H. rewrite (H c Hin) in Ht. discriminate.
Qed.

Lemma country_under_pointer_witness :
  let this := newRenderer (mkCanvas 800 400) in
  let country := mkFeature "Square" (Polygon [square]) in
  getCountryAtPoint this (Some [country]) 420 180 = Some (Some country).
Proof.
  intros this country.
  assert (Hll : toLatLon this 420 180 = {| lat := 9; lon := 9 |})
    by (unfold toLatLon, this; cbn; f_equal; lra).
  destruct (country_under_pointer this [country] 420 180 country) as [H _].
  - repeat constructor. cbn. discriminate.
  - apply H. exists [], []. split; [reflexivity|]. split; [|constructor].
    rewrite Hll. cbn [lat lon]. unfold outerRingContains, country.
    cbn [geometry hd]. apply (rayCast_rectangle 9 9 0 0 10 10); lra.
Defined.

(** ** Occupied territory *)

Lemma pointInPolygon_rayCast (lat lon : R) (ring : Ring) :
  UkraineFrontlineData.pointInPolygon (lon, lat) ring = rayCast lat lon ring.
Proof. reflexivity. Qed.

Lemma ringsOf_geometryRings (g : Geometry) :
  UkraineFrontlineData.ringsOf (Some g) = geometryRings g.
Proof. destruct g; reflexivity. Qed.

(** X13.  A position counts as occupied exactly when some ring of some
    feature contains it, outer rings and holes alike: a position inside a
    hole of the occupied area is reported as occupied. *)
Theorem occupied_iff_inside_any_ring
  (features : list (option Geometry)) (lat lon : R) :
  UkraineFrontlineData.isPointOccupied
    (Some (UkraineFrontlineData.mkFeatureCollection (Some features))) lat lon
  = true
  <-> exists g ring, In (Some g) features /\ In ring (geometryRings g)
                     /\ rayCast lat lon ring = true.
Proof.
  unfold UkraineFrontlineData.isPointOccupied,
    UkraineFrontlineData.getOccupiedTerritoryPolygons.
  rewrite existsb_exists. split.
  - intros (ring & Hin & Hr). apply in_flat_map in Hin.
    destruct Hin as (og & Hog & Hring). destruct og as [g|]; [|destruct Hring].
    exists g, ring. rewrite <- ringsOf_geometryRings. auto.
  - intros (g & ring & Hg & Hring & Hr). exists ring. split; [|exact Hr].
    apply in_flat_map. exists (Some g). rewrite ringsOf_geometryRings. auto.
Qed.

Lemma frontlinesOf_ringsOf (g : option Geometry) :
  incl (UkraineFrontlineData.frontlinesOf g) (UkraineFrontlineData.ringsOf g).
Proof.
  destruct g as [[coordinates|coordinates|]|]; cbn; intros r Hr;
    try (destruct Hr; fail).
  - destruct coordinates as [|ring rest]; [destruct Hr|].
    destruct Hr as [<-|[]]. left. reflexivity.
  - apply in_flat_map in Hr. destruct Hr as (polygon & Hp & Hr).
    apply in_concat. exists polygon. split; [exact Hp|].
    destruct polygon as [|ring rest]; [destruct Hr|].
    destruct ring as [|pt ring]; cbn in Hr; [destruct Hr|].
    destruct Hr as [<-|[]]. left. reflexivity.
Qed.

(** X14.  Wherever the country hit test of the map accepts a position for a
    geometry, the occupied-territory test accepts it for the same geometry;
    and every ring drawn as a front line is one of the rings tested, is not
    empty when it comes from a [MultiPolygon], and is the first ring of its
    polygon. *)
Theorem occupied_test_covers_country_test
  (features : list (option Geometry)) (country : Feature) (lat lon : R) :
  let territory :=
    Some (UkraineFrontlineData.mkFeatureCollection (Some features)) in
  (In (Some (geometry country)) features ->
   isPointInCountry lat lon country = Some true ->
   UkraineFrontlineData.isPointOccupied territory lat lon = true) /\
  incl (UkraineFrontlineData.getFrontlineCoordinates territory)
       (UkraineFrontlineData.getOccupiedTerritoryPolygons territory) /\
  (forall ring,
     In ring (UkraineFrontlineData.getFrontlineCoordinates territory) ->
     exists g, In (Some g) features /\
       match g with
       | Polygon coordinates => hd_error coordinates = Some ring
       | MultiPolygon coordinates =>
           ring <> [] /\
           exists polygon, In polygon coordinates /\ hd_error polygon = Some ring
       | OtherGeometry => False
       end).
Proof.
  intros territory. split; [|split].
  - intros Hin Hc. apply occupied_iff_inside_any_ring.
    exists (geometry country). unfold isPointInCountry in Hc.
    destruct (geometry country) as [coordinates|polygons|]; [| |discriminate].
    + destruct coordinates as [|ring holes]; [discriminate|].
      injection Hc as Hc. exists ring. cbn. auto.
    + assert (Hex : exists polygon ring holes, In polygon polygons
                      /\ polygon = ring :: holes /\ rayCast lat lon ring = true).
      { clear Hin. induction polygons as [|polygon rest IH]; [discriminate|].
        cbn [anyPolygon] in Hc. destruct polygon as [|ring holes]; [discriminate|].
        cbn [isPointInPolygon] in Hc. destruct (rayCast lat lon ring) eqn:Hr.
        - exists (ring :: holes), ring, holes. cbn. auto.
        - destruct (IH Hc) as (p & r & h & Hp & He & Hr').
          exists p, r, h. cbn. auto. }
      destruct Hex as (polygon & ring & holes & Hp & He & Hr).
      exists ring. split; [exact Hin|]. split; [|exact Hr].
      cbn. apply in_concat. exists polygon. subst polygon. cbn. auto.
  - unfold territory. cbn. intros r Hr. apply in_flat_map in Hr.
    destruct Hr as (g & Hg & Hr). apply in_flat_map. exists g.
    split; [exact Hg|]. apply frontlinesOf_ringsOf, Hr.
  - unfold territory. cbn. intros ring Hr. apply in_flat_map in Hr.
    destruct Hr as ([g|] & Hg & Hr); [|destruct Hr]. exists g.
    split; [exact Hg|]. destruct g as [coordinates|coordinates|]; cbn in Hr.
    + destruct coordinates as [|r rest]; [destruct Hr|].
      destruct Hr as [<-|[]]. reflexivity.
    + apply in_flat_map in Hr. destruct Hr as (polygon & Hp & Hr).
      destruct polygon as [|r rest]; [destruct Hr|].
      destruct r as [|pt r']; cbn in Hr; [destruct Hr|].
      destruct Hr as [<-|[]]. split; [discriminate|].
      exists ((pt :: r') :: rest). auto.
    + destruct Hr.
Qed.

Lemma occupied_test_covers_country_test_witness :
  UkraineFrontlineData.isPointOccupied
    (Some (UkraineFrontlineData.mkFeatureCollection
             (Some [Some (Polygon [square])]))) 5 5 = true.
Proof.
  refine (proj1 (occupied_test_covers_country_test
                   [Some (Polygon [square])]
                   (mkFeature "Square" (Polygon [square])) 5 5) _ _).
  - left. reflexivity.
  - cbn [isPointInCountry geometry isPointInPolygon]. f_equal.
    apply (rayCast_rectangle 5 5 0 0 10 10); lra.
Defined.

(** ** The distance to a segment *)





(** ** Lanes under the pointer *)


Lemma segmentLoop_wider (lat lon t1 t2 : R) (coords : list Position) :
  t1 <= t2 ->
  segmentLoop lat lon t1 coords = true -> segmentLoop lat lon t2 coords = true.
Proof.
  intros Ht. rewrite !segmentLoop_existsb, !existsb_exists.
  intros (seg & Hin & Hn). exists seg. split; [exact Hin|].
  apply nearSegment_true in Hn. apply nearSegment_true. lra.
Qed.

Lemma preloadLoop_In (lat lon threshold : R) (lanes : list Lane) (i : string) :
  In i (preloadLoop lat lon threshold lanes)
  <-> exists lane, In lane lanes /\ id lane = i
                   /\ segmentLoop lat lon threshold (coords lane) = true.
Proof.
  induction lanes as [|lane rest IH].
  - cbn. split; [intros []|intros (l & [] & _)].
  - cbn [preloadLoop].
    destruct (segmentLoop lat lon threshold (coords lane)) eqn:Hs.
    + cbn [In]. rewrite IH. split.
      * intros [H|(l & Hin & Hid & Hl)].
        -- exists lane. auto.
        -- exists l. auto.
      * intros (l & [<-|Hin] & Hid & Hl); [left; exact Hid|].
        right. exists l. auto.
    + rewrite IH. split.
      * intros (l & Hin & Hid & Hl). exists l. cbn. auto.
      * intros (l & [<-|Hin] & Hid & Hl); [congruence|]. exists l. auto.
Qed.



(** X17.  The lane that the hover query returns is among the lanes whose news
    the preloading pass requests at the same pointer position; the pass
    requests only lanes of the table that lie within [8 / zoom], and nothing
    without a news service. *)
Theorem hovered_lane_is_preloaded (this : Renderer) (mouseX mouseY : R)
  (lane : Lane) :
  0 < zoom this ->
  (getShippingLaneAtPoint this mouseX mouseY = Some lane ->
   In (id lane) (preloadNearbyShippingLaneNews this true mouseX mouseY)) /\
  (forall i, In i (preloadNearbyShippingLaneNews this true mouseX mouseY) ->
     exists l, In l getShippingLaneData /\ id l = i /\
       laneNear (lat (toLatLon this mouseX mouseY))
                (lon (toLatLon this mouseX mouseY)) (8 / zoom this) l) /\
  preloadNearbyShippingLaneNews this false mouseX mouseY = [].
Proof.
  intros Hz. split; [|split].
  - unfold getShippingLaneAtPoint, preloadNearbyShippingLaneNews. cbn [negb].
    intros H. apply laneLoop_some in H.
    destruct H as (before & after & Hl & Hnear & _).
    apply preloadLoop_In. exists lane. split; [|split; [reflexivity|]].
    + rewrite Hl. apply in_or_app. right. left. reflexivity.
    + apply (segmentLoop_wider _ _ (3 / zoom this)).
      * unfold Rdiv. assert (0 < / zoom this) by (apply Rinv_0_lt_compat; lra).
        nra.
      * rewrite segmentLoop_existsb. apply existsb_near. exact Hnear.
  - unfold preloadNearbyShippingLaneNews. cbn [negb]. intros i Hi.
    apply preloadLoop_In in Hi. destruct Hi as (l & Hin & Hid & Hl).
    exists l. split; [exact Hin|]. split; [exact Hid|].
    apply existsb_near. rewrite <- segmentLoop_existsb. exact Hl.
  - reflexivity.
Qed.

Lemma hovered_lane_is_preloaded_witness :
  preloadNearbyShippingLaneNews (newRenderer (mkCanvas 800 400)) false 0 0 = [].
Proof.
  refine (proj2 (proj2 (hovered_lane_is_preloaded
                          (newRenderer (mkCanvas 800 400)) 0 0
                          (mkLane "" []) _))).
  cbn. lra.
Defined.

(** ** The label passes as a whole *)

Lemma fold_left_appends {A : Type} (f : list Box.t -> A -> list Box.t)
  (l : list A) (labelBoxes : list Box.t) :
  (forall acc a, exists added,
      f acc a = acc ++ added /\ (List.length added <= 1)%nat) ->
  exists added, fold_left f l labelBoxes = labelBoxes ++ added
                /\ (List.length added <= List.length l)%nat.
Proof.
  intros Hf. revert labelBoxes. induction l as [|a l IH]; intros labelBoxes.
  - exists []. rewrite app_nil_r. cbn. auto.
  - cbn [fold_left]. destruct (Hf labelBoxes a) as (one & -> & Hone).
    destruct (IH (labelBoxes ++ one)) as (more & -> & Hmore).
    exists (one ++ more). rewrite app_assoc. split; [reflexivity|].
    rewrite length_app. cbn [List.length]. lia.
Qed.

Lemma drawCity_appends (this : Renderer) (measureText : TextMeasure)
  (labelBoxes : list Box.t) (city : City.t) :
  exists added, drawCity this measureText labelBoxes city = labelBoxes ++ added
                /\ (List.length added <= 1)%nat.
Proof.
  unfold drawCity.
  repeat match goal with
         | |- context [if ?c then _ else _] => destruct c
         | |- context [match ?c with Some _ => _ | None => _ end] => destruct c
         end;
    first [ exists []; rewrite app_nil_r; cbn; split; [reflexivity|lia]
          | eexists [_]; split; [reflexivity|cbn; lia] ].
Qed.

Lemma labelZone_appends (this : Renderer) (measureText : TextMeasure)
  (labelBoxes : list Box.t) (m : Zone.marked) :
  exists added, labelZone this measureText labelBoxes m = labelBoxes ++ added
                /\ (List.length added <= 1)%nat.
Proof.
  unfold labelZone. destruct (negb (zoneShowLabel this m)).
  - exists []. rewrite app_nil_r. cbn. auto.
  - match goal with
    | |- context [if ?c then _ else _] => destruct c
    end.
    + eexists [_]. split; [reflexivity|cbn; lia].
    + exists []. rewrite app_nil_r. cbn. auto.
Qed.

Lemma insertZone_length (z : Zone.t) (sorted : list Zone.t) :
  List.length (insertZone z sorted) = S (List.length sorted).
Proof.
  induction sorted as [|h t IH]; [reflexivity|]. cbn [insertZone].
  destruct (importanceKey z <=? importanceKey h)%nat; cbn [List.length]; lia.
Qed.

Lemma sortZones_length (zones : list Zone.t) :
  List.length (sortZones zones) = List.length zones.
Proof.
  induction zones as [|z zones IH]; [reflexivity|].
  cbn [sortZones fold_right]. rewrite insertZone_length. fold (sortZones zones).
  cbn [List.length]. lia.
Qed.

Lemma markZones_length (this : Renderer) (zones : list Zone.t) :
  (List.length (markZones this zones) <= List.length zones)%nat.
Proof.
  induction zones as [|z zones IH]; [cbn; lia|]. cbn [markZones].
  destruct (markZone this z); cbn [List.length]; lia.
Qed.

(** X18.  Both label passes only add to the label boxes they are given: the
    boxes of the caller stay, in place and unchanged, and at most one box is
    appended for each visible city and for each visible battle zone. *)
Theorem label_passes_only_append (this : Renderer) (measureText : TextMeasure)
  (data : ConflictData) (labelBoxes : list Box.t) :
  (exists added,
     drawCities this measureText (Some data) labelBoxes = labelBoxes ++ added
     /\ (List.length added
         <= List.length (getVisibleCities data (zoom this)))%nat) /\
  (exists added,
     drawBattleZones this measureText (Some data) labelBoxes
     = labelBoxes ++ added
     /\ (List.length added <= List.length (battleZones data (zoom this)))%nat).
Proof.
  split.
  - unfold drawCities. apply fold_left_appends. apply drawCity_appends.
  - unfold drawBattleZones. destruct (zoom this <? 2.5).
    + exists []. rewrite app_nil_r. cbn. split; [reflexivity|lia].
    + destruct (fold_left_appends (labelZone this measureText)
                  (rev (markZones this (sortZones (battleZones data (zoom this)))))
                  labelBoxes (labelZone_appends this measureText))
        as (added & -> & Hlen).
      exists added. split; [reflexivity|].
      rewrite length_rev in Hlen.
      pose proof (markZones_length this (sortZones (battleZones data (zoom this)))).
      rewrite sortZones_length in *. lia.
Qed.

(** ** Zoom thresholds of the labels *)

Lemma fold_left_fixed {A B : Type} (f : B -> A -> B) (l : list A) (b : B) :
  (forall acc a, f acc a = acc) -> fold_left f l b = b.
Proof.
  intros Hf. revert b. induction l as [|a l IH]; intros b; [reflexivity|].
  cbn [fold_left]. rewrite Hf. apply IH.
Qed.

Lemma drawCity_no_label (this : Renderer) (measureText : TextMeasure)
  (labelBoxes : list Box.t) (city : City.t) :
  zoom this <= 3.0 -> drawCity this measureText labelBoxes city = labelBoxes.
Proof.
  intros Hz. unfold drawCity.
  destruct (offScreen _ _ _); [reflexivity|].
  rewrite (proj2 (Rgtb_false (zoom this) 3.0)) by lra.
  rewrite (proj2 (Rgtb_false (zoom this) 4.0)) by lra.
  rewrite !andb_false_r. reflexivity.
Qed.

Lemma drawCity_only_strategic (this : Renderer) (measureText : TextMeasure)
  (labelBoxes : list Box.t) (city : City.t) :
  zoom this <= 4.0 -> City.strategic city = false ->
  drawCity this measureText labelBoxes city = labelBoxes.
Proof.
  intros Hz Hs. unfold drawCity.
  destruct (offScreen _ _ _); [reflexivity|].
  rewrite Hs, (proj2 (Rgtb_false (zoom this) 4.0)) by lra.
  reflexivity.
Qed.

Lemma labelZone_no_label (this : Renderer) (measureText : TextMeasure)
  (labelBoxes : list Box.t) (m : Zone.marked) :
  zoom this <= 3.5 -> labelZone this measureText labelBoxes m = labelBoxes.
Proof.
  intros Hz. unfold labelZone, zoneShowLabel.
  rewrite (proj2 (Rgtb_false (zoom this) 3.5)) by lra.
  rewrite (proj2 (Rgtb_false (zoom this) 6.0)) by lra.
  rewrite (proj2 (Rgtb_false (zoom this) 10.0)) by lra.
  rewrite !andb_false_r. reflexivity.
Qed.

(** X19.  Up to zoom 3.0 the city pass places no label at all, although
    cities are shown from zoom 2.0 on; up to zoom 4.0 it places none if no
    city is strategic; and up to zoom 3.5 the battle-zone pass places none,
    although zones are shown from zoom 2.5 on. *)
Theorem no_labels_at_low_zoom (this : Renderer) (measureText : TextMeasure)
  (conflictData : option ConflictData) (labelBoxes : list Box.t) :
  (zoom this <= 3.0 ->
   drawCities this measureText conflictData labelBoxes = labelBoxes) /\
  (zoom this <= 4.0 ->
   (forall data, conflictData = Some data ->
      forallb (fun city => negb (City.strategic city)) (majorCities data)
      = true) ->
   drawCities this measureText conflictData labelBoxes = labelBoxes) /\
  (zoom this <= 3.5 ->
   drawBattleZones this measureText conflictData labelBoxes = labelBoxes).
Proof.
  split; [|split].
  - intros Hz. destruct conflictData as [data|]; [|reflexivity].
    unfold drawCities. apply fold_left_fixed. intros acc a.
    apply drawCity_no_label, Hz.
  - intros Hz Hall. destruct conflictData as [data|]; [|reflexivity].
    specialize (Hall data eq_refl). rewrite forallb_forall in Hall.
    unfold drawCities.
    assert (Hvis : forall city, In city (getVisibleCities data (zoom this)) ->
                                City.strategic city = false).
    { intros city Hin. apply negb_true_iff, Hall.
      unfold getVisibleCities in Hin.
      destruct (zoom this <? 2.0); [destruct Hin|].
      destruct (zoom this <? 3.0); [|exact Hin].
      apply filter_In in Hin. tauto. }
    revert labelBoxes Hvis.
    induction (getVisibleCities data (zoom this)) as [|city rest IH];
      intros labelBoxes Hvis; [reflexivity|].
    cbn [fold_left]. rewrite drawCity_only_strategic.
    + apply IH. intros c Hc. apply Hvis. right. exact Hc.
    + exact Hz.
    + apply Hvis. left. reflexivity.
  - intros Hz. destruct conflictData as [data|]; [|reflexivity].
    unfold drawBattleZones. destruct (zoom this <? 2.5); [reflexivity|].
    apply fold_left_fixed. intros acc a. apply labelZone_no_label, Hz.
Qed.

Lemma no_labels_at_low_zoom_witness :
  drawCities (newRenderer (mkCanvas 800 400)) (fun _ _ _ => 40)
             (Some sameSpot) [banner] = [banner].
Proof.
  refine (proj1 (no_labels_at_low_zoom (newRenderer (mkCanvas 800 400))
                   (fun _ _ _ => 40) (Some sameSpot) [banner]) _).
  cbn. lra.
Defined.

(** ** The order of the battle-zone labels *)

Lemma importanceKey_cases (z : Zone.t) :
  importanceKey z = 1%nat \/ importanceKey z = 2%nat.
Proof.
  unfold importanceKey. destruct (Zone.importance z) as [s|]; [|auto].
  destruct (String.eqb s "high"); auto.
Qed.

Lemma insertZone_low (z : Zone.t) (sorted : list Zone.t) :
  importanceKey z = 1%nat -> insertZone z sorted = z :: sorted.
Proof.
  intros Hz. destruct sorted as [|h t]; [reflexivity|]. cbn [insertZone].
  rewrite Hz. destruct (importanceKey_cases h) as [-> | ->]; reflexivity.
Qed.

Lemma insertZone_high (z : Zone.t) (low high : list Zone.t) :
  importanceKey z = 2%nat ->
  Forall (fun z => importanceKey z = 1%nat) low ->
  Forall (fun z => importanceKey z = 2%nat) high ->
  insertZone z (low ++ high) = low ++ z :: high.
Proof.
  intros Hz Hlow Hhigh. induction Hlow as [|h t Hh Ht IH].
  - cbn [app]. destruct Hhigh as [|h t Hh Ht]; [reflexivity|].
    cbn [insertZone]. rewrite Hz, Hh. reflexivity.
  - cbn [app insertZone]. rewrite Hz, Hh. cbn. rewrite IH. reflexivity.
Qed.

Lemma isHigh_true (z : Zone.t) : isHigh z = true <-> importanceKey z = 2%nat.
Proof. unfold isHigh. apply Nat.eqb_eq. Qed.

Lemma isHigh_false (z : Zone.t) : isHigh z = false <-> importanceKey z = 1%nat.
Proof.
  unfold isHigh. rewrite Nat.eqb_neq.
  destruct (importanceKey_cases z) as [H|H]; rewrite H; split; intros; lia.
Qed.

Lemma sortZones_partition (zones : list Zone.t) :
  sortZones zones
  = filter (fun z => negb (isHigh z)) zones ++ filter isHigh zones.
Proof.
  induction zones as [|z zones IH]; [reflexivity|].
  change (sortZones (z :: zones)) with (insertZone z (sortZones zones)).
  rewrite IH. cbn [filter]. destruct (isHigh z) eqn:Hz; cbn [negb].
  - apply insertZone_high.
    + apply isHigh_true, Hz.
    + apply Forall_forall. intros h Hh. apply filter_In in Hh.
      apply isHigh_false, negb_true_iff. tauto.
    + apply Forall_forall. intros h Hh. apply filter_In in Hh.
      apply isHigh_true. tauto.
  - apply insertZone_low, isHigh_false, Hz.
Qed.

Lemma markZones_app (this : Renderer) (a b : list Zone.t) :
  markZones this (a ++ b) = markZones this a ++ markZones this b.
Proof.
  induction a as [|z a IH]; [reflexivity|]. cbn [app markZones].
  destruct (markZone this z); rewrite IH; reflexivity.
Qed.

(** X20.  For zones whose importance is missing or one of ['low'],
    ['medium'] and ['high'], the sort before the label pass only moves the
    zones of importance ['high'] behind all others, ['low'] zones staying
    among the ['medium'] ones, and keeps the order of the data within the two
    groups; so the label pass, which runs through the sorted zones backwards,
    first serves all zones of high importance, the last of the data first,
    and then all others. *)
Theorem high_importance_zones_are_labelled_first (this : Renderer)
  (measureText : TextMeasure) (data : ConflictData) (labelBoxes : list Box.t) :
  2.5 <= zoom this ->
  Forall knownImportance (battleZones data (zoom this)) ->
  let zones := battleZones data (zoom this) in
  let high := filter isHigh zones in
  let others := filter (fun z => negb (isHigh z)) zones in
  sortZones zones = others ++ high /\
  drawBattleZones this measureText (Some data) labelBoxes
  = fold_left (labelZone this measureText) (rev (markZones this others))
      (fold_left (labelZone this measureText) (rev (markZones this high))
                 labelBoxes).
Proof.
  intros Hz _ zones high others. split; [apply sortZones_partition|].
  unfold drawBattleZones. rewrite (proj2 (Rltb_false (zoom this) 2.5)) by lra.
  fold zones. rewrite sortZones_partition. fold high others.
  rewrite markZones_app, rev_app_distr, fold_left_app. reflexivity.
Qed.

Lemma high_importance_zones_are_labelled_first_witness :
  sortZones [hotspot; quietZone; hotZone; quietZone]
  = [quietZone; quietZone] ++ [hotspot; hotZone].
Proof.
  refine (proj1 (high_importance_zones_are_labelled_first
                   (set_zoom (newRenderer (mkCanvas 800 400)) 3)
                   (fun _ _ _ => 40)
                   {| majorCities := [];
                      battleZones :=
                        fun _ => [hotspot; quietZone; hotZone; quietZone] |}
                   [] _ _)).
  - cbn. lra.
  - cbn [battleZones].
    repeat (apply Forall_cons;
            [cbn; first [left; reflexivity | right; right; reflexivity]|]).
    apply Forall_nil.
Defined.

(** ** What is visible at a zoom *)

Lemma Rgeb_true (a b : R) : (a >=? b) = true <-> b <= a.
Proof. unfold Rgeb; destruct (Rge_dec a b); split; intros; try easy; lra. Qed.

Lemma Rgeb_false (a b : R) : (a >=? b) = false <-> a < b.
Proof. unfold Rgeb; destruct (Rge_dec a b); split; intros; try easy; lra. Qed.

Lemma Rleb_true (a b : R) : (a <=? b) = true <-> a <= b.
Proof. unfold Rleb; destruct (Rle_dec a b); split; intros; try easy; lra. Qed.

Lemma Rleb_false (a b : R) : (a <=? b) = false <-> b < a.
Proof. unfold Rleb; destruct (Rle_dec a b); split; intros; try easy; lra. Qed.

Lemma Rgeb_mono (a a' b : R) : a <= a' -> (a >=? b) = true -> (a' >=? b) = true.
Proof. rewrite !Rgeb_true. lra. Qed.

Lemma shouldShow_mono (zoom zoom' : R) (zone : Zone.t) :
  zoom <= zoom' ->
  ConflictZonesData.shouldShow zoom zone = true ->
  ConflictZonesData.shouldShow zoom' zone = true.
Proof.
  intros Hz. unfold ConflictZonesData.shouldShow.
  pose proof (Rgeb_mono zoom zoom' 2.5 Hz) as H1.
  pose proof (Rgeb_mono zoom zoom' 3.5 Hz) as H2.
  pose proof (Rgeb_mono zoom zoom' 5.0 Hz) as H3.
  pose proof (Rgeb_mono zoom zoom' 3.0 Hz) as H4.
  destruct (zoom >=? 2.5); [rewrite (H1 eq_refl)|];
  (destruct (zoom >=? 3.5); [rewrite (H2 eq_refl)|]);
  (destruct (zoom >=? 5.0); [rewrite (H3 eq_refl)|]);
  (destruct (zoom >=? 3.0); [rewrite (H4 eq_refl)|]);
  destruct (String.eqb _ "high"), (String.eqb _ "medium"),
           (String.eqb _ "low"),
           (match Zone.activityLevel zone with
            | Some activityLevel => String.eqb activityLevel "hot"
            | None => false
            end);
  cbn; intros H; try discriminate H; try reflexivity;
  destruct (zoom' >=? 2.5), (zoom' >=? 3.5), (zoom' >=? 5.0), (zoom' >=? 3.0);
  reflexivity.
Qed.

Lemma getVisibleBattleZones_In (zoom : R) (conflict : ConflictZonesData.Conflict)
  (v : ConflictZonesData.VisibleZone) :
  In v (ConflictZonesData.getVisibleBattleZones zoom conflict)
  <-> 2.5 <= zoom /\
      exists territories territory zones,
        ConflictZonesData.occupiedTerritories conflict = Some territories /\
        In territory territories /\
        ConflictZonesData.battleZones territory = Some zones /\
        In (ConflictZonesData.zone v) zones /\
        ConflictZonesData.shouldShow zoom (ConflictZonesData.zone v) = true /\
        ConflictZonesData.territoryRegion v = ConflictZonesData.region territory /\
        ConflictZonesData.territoryColor v = ConflictZonesData.color territory.
Proof.
  unfold ConflictZonesData.getVisibleBattleZones.
  destruct (Rlt_dec zoom 2.5) as [Hlt|Hge].
  - rewrite (proj2 (Rltb_true zoom 2.5)) by exact Hlt.
    split; [intros []|intros [H _]; lra].
  - rewrite (proj2 (Rltb_false zoom 2.5)) by lra.
    destruct (ConflictZonesData.occupiedTerritories conflict) as [ts|].
    + rewrite in_flat_map. split.
      * intros (t & Ht & Hv). split; [lra|].
        destruct (ConflictZonesData.battleZones t) as [zs|] eqn:Hzs;
          [|destruct Hv].
        apply in_map_iff in Hv. destruct Hv as (z & <- & Hz).
        apply filter_In in Hz. exists ts, t, zs. cbn. tauto.
      * intros (_ & ts' & t & zs & Hts & Ht & Hzs & Hz & Hs & Hr & Hc).
        injection Hts as <-. exists t. split; [exact Ht|]. rewrite Hzs.
        apply in_map_iff. exists (ConflictZonesData.zone v). split.
        -- destruct v; cbn in *. congruence.
        -- apply filter_In. tauto.
    + split; [intros []|].
      intros (_ & ts' & t & zs & Hts & _). discriminate.
Qed.

(** X21.  Zooming in never hides a city or a battle zone: what is visible at
    a zoom is visible at every higher zoom.  Below zoom 2.0 no city is
    visible and below zoom 2.5 no battle zone; from zoom 3.0 on all cities
    are. *)
Theorem zooming_in_never_hides (conflictData : ConflictData)
  (conflict : ConflictZonesData.Conflict) (zoom zoom' : R) :
  zoom <= zoom' ->
  incl (getVisibleCities conflictData zoom)
       (getVisibleCities conflictData zoom') /\
  incl (ConflictZonesData.getVisibleBattleZones zoom conflict)
       (ConflictZonesData.getVisibleBattleZones zoom' conflict) /\
  (zoom < 2.0 -> getVisibleCities conflictData zoom = []) /\
  (zoom < 2.5 -> ConflictZonesData.getVisibleBattleZones zoom conflict = []) /\
  (3.0 <= zoom -> getVisibleCities conflictData zoom = majorCities conflictData).
Proof.
  intros Hz. repeat split.
  - unfold getVisibleCities. intros city.
    destruct (Rlt_dec zoom 2.0);
      [rewrite (proj2 (Rltb_true zoom 2.0)) by lra; intros []|].
    rewrite (proj2 (Rltb_false zoom 2.0)) by lra.
    rewrite (proj2 (Rltb_false zoom' 2.0)) by lra.
    destruct (Rlt_dec zoom 3.0).
    + rewrite (proj2 (Rltb_true zoom 3.0)) by lra.
      destruct (zoom' <? 3.0); [exact (fun H => H)|].
      intros H. apply filter_In in H. tauto.
    + rewrite (proj2 (Rltb_false zoom 3.0)) by lra.
      rewrite (proj2 (Rltb_false zoom' 3.0)) by lra. exact (fun H => H).
  - intros v Hv. apply getVisibleBattleZones_In in Hv.
    apply getVisibleBattleZones_In.
    destruct Hv as (H25 & ts & t & zs & Hts & Ht & Hzs & Hin & Hs & Hr & Hc).
    split; [lra|]. exists ts, t, zs.
    pose proof (shouldShow_mono zoom zoom' _ Hz Hs). tauto.
  - intros H. unfold getVisibleCities.
    rewrite (proj2 (Rltb_true zoom 2.0)) by lra. reflexivity.
  - intros H. unfold ConflictZonesData.getVisibleBattleZones.
    rewrite (proj2 (Rltb_true zoom 2.5)) by lra. reflexivity.
  - intros H. unfold getVisibleCities.
    rewrite (proj2 (Rltb_false zoom 2.0)) by lra.
    rewrite (proj2 (Rltb_false zoom 3.0)) by lra. reflexivity.
Qed.

Lemma zooming_in_never_hides_witness :
  incl (getVisibleCities sameSpot 2) (getVisibleCities sameSpot 4).
Proof.
  refine (proj1 (zooming_in_never_hides sameSpot
                   (ConflictZonesData.mkConflict "none" None) 2 4 _)).
  lra.
Defined.

(** ** Trails *)

(** A segment with a point in the canvas enlarged by the margin of 100 is
    not culled. *)
Lemma convex_combination_between (a b s : R) :
  0 <= s <= 1 -> Rmin a b <= a + s * (b - a) <= Rmax a b.
Proof.
  intros Hs. unfold Rmin, Rmax. destruct (Rle_dec a b); nra.
Qed.

Lemma segmentOffScreen_false (this : Renderer) (a b : ScreenPoint) (s : R) :
  0 <= s <= 1 ->
  -100 <= x a + s * (x b - x a) <= width (canvas this) + 100 ->
  -100 <= y a + s * (y b - y a) <= height (canvas this) + 100 ->
  segmentOffScreen this a b = false.
Proof.
  intros Hs Hx Hy. unfold segmentOffScreen.
  pose proof (convex_combination_between (x a) (x b) s Hs) as Cx.
  pose proof (convex_combination_between (y a) (y b) s Hs) as Cy.
  unfold Rmin, Rmax in Cx, Cy.
  assert (H1 : (x a <? -100) && (x b <? -100) = false).
  { apply andb_false_iff.
    destruct (Rlt_dec (x a) (-100)); [|left; apply Rltb_false; lra].
    right. apply Rltb_false. destruct (Rle_dec (x a) (x b)); lra. }
  assert (H2 : (x a >? width (canvas this) + 100)
               && (x b >? width (canvas this) + 100) = false).
  { apply andb_false_iff.
    destruct (Rlt_dec (width (canvas this) + 100) (x a));
      [|left; apply Rgtb_false; lra].
    right. apply Rgtb_false. destruct (Rle_dec (x a) (x b)); lra. }
  assert (H3 : (y a <? -100) && (y b <? -100) = false).
  { apply andb_false_iff.
    destruct (Rlt_dec (y a) (-100)); [|left; apply Rltb_false; lra].
    right. apply Rltb_false. destruct (Rle_dec (y a) (y b)); lra. }
  assert (H4 : (y a >? height (canvas this) + 100)
               && (y b >? height (canvas this) + 100) = false).
  { apply andb_false_iff.
    destruct (Rlt_dec (height (canvas this) + 100) (y a));
      [|left; apply Rgtb_false; lra].
    right. apply Rgtb_false. destruct (Rle_dec (y a) (y b)); lra. }
  rewrite H1, H2, H3, H4. reflexivity.
Qed.

Lemma trajectoryLoop_In (this : Renderer) (trailColor : string)
  (length i k : nat) (first : LatLon) (rest : list LatLon) (prev curr : LatLon) :
  nth_error (first :: rest) k = Some prev ->
  nth_error rest k = Some curr ->
  segmentOffScreen this (toCanvas this (lat prev) (lon prev))
                   (toCanvas this (lat curr) (lon curr)) = false ->
  In {| rgb := trailColor;
        opacity := 0.2 + INR (i + k) / INR length * 0.6;
        lineWidth := 2;
        from := toCanvas this (lat prev) (lon prev);
        to := toCanvas this (lat curr) (lon curr) |}
     (trajectoryLoop this trailColor length i first rest).
Proof.
  revert i first rest. induction k as [|k IH]; intros i first rest Hp Hc Hoff.
  - destruct rest as [|c rest]; [discriminate|]. cbn in Hp, Hc.
    injection Hp as <-. injection Hc as <-. cbn [trajectoryLoop].
    rewrite Hoff. rewrite Nat.add_0_r. left. reflexivity.
  - destruct rest as [|c rest]; [discriminate|]. cbn in Hp, Hc.
    cbn [trajectoryLoop].
    replace (i + S k)%nat with (S i + k)%nat by lia.
    match goal with
    | |- context [if ?c then _ else _] => destruct c
    end; [|right]; apply IH; assumption.
Qed.

Lemma submarineLoop_In (this : Renderer) (stroke : string)
  (length i k : nat) (first : LatLon) (rest : list LatLon) (prev curr : LatLon) :
  nth_error (first :: rest) k = Some prev ->
  nth_error rest k = Some curr ->
  segmentOffScreen this (toCanvas this (lat prev) (lon prev))
                   (toCanvas this (lat curr) (lon curr)) = false ->
  In {| rgb := stroke;
        opacity := 0.1 + INR (i + k) / INR length * 0.25;
        lineWidth := 1 + INR (i + k) / INR length * 0.5;
        from := toCanvas this (lat prev) (lon prev);
        to := toCanvas this (lat curr) (lon curr) |}
     (submarineLoop this stroke length i first rest).
Proof.
  revert i first rest. induction k as [|k IH]; intros i first rest Hp Hc Hoff.
  - destruct rest as [|c rest]; [discriminate|]. cbn in Hp, Hc.
    injection Hp as <-. injection Hc as <-. cbn [submarineLoop].
    rewrite Hoff. rewrite Nat.add_0_r. left. reflexivity.
  - destruct rest as [|c rest]; [discriminate|]. cbn in Hp, Hc.
    cbn [submarineLoop].
    replace (i + S k)%nat with (S i + k)%nat by lia.
    match goal with
    | |- context [if ?c then _ else _] => destruct c
    end; [|right]; apply IH; assumption.
Qed.

(** X22.  The culling of the trails never drops a segment that shows: a
    segment of the trail with a point on the canvas, or within 100 pixels of
    it, is stroked, from the place of its older point to the place of its
    newer point, for aircraft and for submarines. *)
Theorem trail_culling_keeps_visible_segments (this : Renderer)
  (trail : list LatLon) (ac : Aircraft) (colors : option string)
  (k : nat) (prev curr : LatLon) (s : R) :
  nth_error trail k = Some prev -> nth_error trail (S k) = Some curr ->
  0 <= s <= 1 ->
  let a := toCanvas this (lat prev) (lon prev) in
  let b := toCanvas this (lat curr) (lon curr) in
  -100 <= x a + s * (x b - x a) <= width (canvas this) + 100 ->
  -100 <= y a + s * (y b - y a) <= height (canvas this) + 100 ->
  (exists seg, In seg (drawTrajectoryTrail this trail ac)
               /\ from seg = a /\ to seg = b) /\
  (exists seg, In seg (drawSubmarineTrail this trail colors)
               /\ from seg = a /\ to seg = b).
Proof.
  intros Hp Hc Hs a b Hx Hy.
  pose proof (segmentOffScreen_false this a b s Hs Hx Hy) as Hoff.
  destruct trail as [|first rest]; [destruct k; discriminate|].
  assert (Hlen : (List.length (first :: rest) <? 2)%nat = false).
  { apply Nat.ltb_ge. destruct rest; [destruct k; discriminate|]. cbn. lia. }
  cbn [nth_error] in Hc. split.
  - unfold drawTrajectoryTrail. rewrite Hlen.
    eexists. split; [apply (trajectoryLoop_In _ _ _ 1 k _ _ prev curr Hp Hc Hoff)|].
    split; reflexivity.
  - unfold drawSubmarineTrail. rewrite Hlen.
    eexists. split; [apply (submarineLoop_In _ _ _ 1 k _ _ prev curr Hp Hc Hoff)|].
    split; reflexivity.
Qed.

Lemma trail_culling_keeps_visible_segments_witness :
  let this := newRenderer (mkCanvas 800 400) in
  let trail := [mkLatLon 0 0; mkLatLon 10 10] in
  exists seg,
    In seg (drawTrajectoryTrail this trail (mkAircraft 0 0 None true false false))
    /\ from seg = toCanvas this 0 0 /\ to seg = toCanvas this 10 10.
Proof.
  refine (proj1 (trail_culling_keeps_visible_segments
                   (newRenderer (mkCanvas 800 400))
                   [mkLatLon 0 0; mkLatLon 10 10]
                   (mkAircraft 0 0 None true false false) None
                   0 (mkLatLon 0 0) (mkLatLon 10 10) 0 eq_refl eq_refl _ _ _));
    cbn; lra.
Defined.

(** The opacities of the segments of a trail loop, from index [i] on. *)
Lemma trajectoryLoop_opacity (this : Renderer) (trailColor : string)
  (length i : nat) (prev : LatLon) (rest : list LatLon) :
  Forall (fun seg => exists j, (i <= j < i + List.length rest)%nat
                               /\ opacity seg = 0.2 + INR j / INR length * 0.6
                               /\ lineWidth seg = 2)
         (trajectoryLoop this trailColor length i prev rest).
Proof.
  revert i prev. induction rest as [|curr rest IH]; intros i prev.
  - constructor.
  - cbn [trajectoryLoop].
    assert (Htail : Forall (fun seg => exists j,
                (i <= j < i + List.length (curr :: rest))%nat
                /\ opacity seg = 0.2 + INR j / INR length * 0.6
                /\ lineWidth seg = 2)
              (trajectoryLoop this trailColor length (S i) curr rest)).
    { eapply Forall_impl; [|apply IH]. cbn. intros seg (j & Hj & Ho).
      exists j. split; [lia|exact Ho]. }
    destruct (segmentOffScreen this _ _); [exact Htail|].
    constructor; [|exact Htail]. exists i. cbn. repeat split; lia.
Qed.

Lemma submarineLoop_opacity (this : Renderer) (stroke : string)
  (length i : nat) (prev : LatLon) (rest : list LatLon) :
  Forall (fun seg => exists j, (i <= j < i + List.length rest)%nat
                               /\ opacity seg = 0.1 + INR j / INR length * 0.25
                               /\ lineWidth seg = 1 + INR j / INR length * 0.5)
         (submarineLoop this stroke length i prev rest).
Proof.
  revert i prev. induction rest as [|curr rest IH]; intros i prev.
  - constructor.
  - cbn [submarineLoop].
    assert (Htail : Forall (fun seg => exists j,
                (i <= j < i + List.length (curr :: rest))%nat
                /\ opacity seg = 0.1 + INR j / INR length * 0.25
                /\ lineWidth seg = 1 + INR j / INR length * 0.5)
              (submarineLoop this stroke length (S i) curr rest)).
    { eapply Forall_impl; [|apply IH]. cbn. intros seg (j & Hj & Ho).
      exists j. split; [lia|exact Ho]. }
    destruct (segmentOffScreen this _ _); [exact Htail|].
    constructor; [|exact Htail]. exists i. cbn. repeat split; lia.
Qed.

Lemma progress_lt (length j j' : nat) :
  (0 < length)%nat -> (j < j')%nat -> INR j / INR length < INR j' / INR length.
Proof.
  intros Hl Hj. unfold Rdiv. apply Rmult_lt_compat_r.
  - apply Rinv_0_lt_compat. apply lt_0_INR. exact Hl.
  - apply lt_INR. exact Hj.
Qed.

Lemma progress_bounds (length j : nat) :
  (1 <= j < length)%nat -> 0 < INR j / INR length < 1.
Proof.
  intros Hj.
  assert (Hl : 0 < INR length) by (apply lt_0_INR; lia).
  assert (H0 : 0 < INR j) by (apply lt_0_INR; lia).
  assert (H1 : INR j < INR length) by (apply lt_INR; lia).
  split.
  - apply Rdiv_lt_0_compat; assumption.
  - apply (Rmult_lt_reg_r (INR length)); [exact Hl|].
    unfold Rdiv. rewrite Rmult_assoc, Rinv_l by lra. lra.
Qed.

Lemma trajectoryLoop_fades (this : Renderer) (trailColor : string)
  (length i : nat) (prev : LatLon) (rest : list LatLon) :
  (0 < length)%nat ->
  ForallOrdPairs (fun older newer => opacity older < opacity newer)
                 (trajectoryLoop this trailColor length i prev rest).
Proof.
  intros Hl. revert i prev. induction rest as [|curr rest IH]; intros i prev.
  - constructor.
  - cbn [trajectoryLoop].
    destruct (segmentOffScreen this _ _); [apply IH|].
    constructor; [|apply IH].
    eapply Forall_impl; [|apply trajectoryLoop_opacity].
    cbn beta. intros seg (j & Hj & Ho & _). rewrite Ho. cbn [opacity].
    assert (Hij : (i < j)%nat) by lia.
    pose proof (progress_lt length i j Hl Hij). lra.
Qed.

Lemma submarineLoop_fades (this : Renderer) (stroke : string)
  (length i : nat) (prev : LatLon) (rest : list LatLon) :
  (0 < length)%nat ->
  ForallOrdPairs (fun older newer => opacity older < opacity newer
                                     /\ lineWidth older < lineWidth newer)
                 (submarineLoop this stroke length i prev rest).
Proof.
  intros Hl. revert i prev. induction rest as [|curr rest IH]; intros i prev.
  - constructor.
  - cbn [submarineLoop].
    destruct (segmentOffScreen this _ _); [apply IH|].
    constructor; [|apply IH].
    eapply Forall_impl; [|apply submarineLoop_opacity].
    cbn beta. intros seg (j & Hj & Ho & Hw). rewrite Ho, Hw.
    cbn [opacity lineWidth].
    assert (Hij : (i < j)%nat) by lia.
    pose proof (progress_lt length i j Hl Hij). lra.
Qed.

(** X23.  A trail fades from old to new: along the stroked segments the
    opacity grows strictly.  For an aircraft it stays strictly between 0.2
    and 0.8, at a line width of 2; for a submarine it stays strictly between
    0.1 and 0.35, the line width growing with it between 1 and 1.5. *)
Theorem trail_fades_from_old_to_new (this : Renderer) (trail : list LatLon)
  (ac : Aircraft) (colors : option string) :
  ForallOrdPairs (fun older newer => opacity older < opacity newer)
                 (drawTrajectoryTrail this trail ac) /\
  Forall (fun seg => 0.2 < opacity seg < 0.8 /\ lineWidth seg = 2)
         (drawTrajectoryTrail this trail ac) /\
  ForallOrdPairs (fun older newer => opacity older < opacity newer
                                     /\ lineWidth older < lineWidth newer)
                 (drawSubmarineTrail this trail colors) /\
  Forall (fun seg => 0.1 < opacity seg < 0.35 /\ 1 < lineWidth seg < 1.5)
         (drawSubmarineTrail this trail colors).
Proof.
  unfold drawTrajectoryTrail, drawSubmarineTrail.
  destruct (List.length trail <? 2)%nat eqn:Hlen;
    [repeat split; constructor|].
  apply Nat.ltb_ge in Hlen.
  destruct trail as [|first rest]; [repeat split; constructor|].
  assert (Hn : List.length (first :: rest) = S (List.length rest))
    by reflexivity.
  remember (List.length (first :: rest)) as n eqn:En. clear En.
  repeat split.
  - apply trajectoryLoop_fades. lia.
  - eapply Forall_impl; [|apply trajectoryLoop_opacity].
    cbn beta. intros seg (j & Hj & Ho & Hw). rewrite Ho.
    assert (Hb : (1 <= j < n)%nat) by lia.
    pose proof (progress_bounds n j Hb). split; [lra|exact Hw].
  - apply submarineLoop_fades. lia.
  - eapply Forall_impl; [|apply submarineLoop_opacity].
    cbn beta. intros seg (j & Hj & Ho & Hw). rewrite Ho, Hw.
    assert (Hb : (1 <= j < n)%nat) by lia.
    pose proof (progress_bounds n j Hb). lra.
Qed.

(** ** The circle of a potential conflict zone *)

(** X24.  Whatever the radius of a potential conflict zone, the zoom and the
    pan, the circle drawn for it has radius zero: the radius in pixels is
    taken from the screen abscissas of two positions of the same longitude,
    and these are equal. *)
Theorem potential_zone_circle_has_no_radius (this : Renderer)
  (potential : ConflictZonesData.Potential) (colorMatch : bool) (c : Circle) :
  drawPotentialConflictZone this potential colorMatch = Some c ->
  radiusPixels c = 0 /\
  centerX c = x (toCanvas this (fst (ConflictZonesData.center potential))
                          (snd (ConflictZonesData.center potential))) /\
  centerY c = y (toCanvas this (fst (ConflictZonesData.center potential))
                          (snd (ConflictZonesData.center potential))).
Proof.
  unfold drawPotentialConflictZone.
  destruct (_ || _ || _ || _); [discriminate|].
  destruct (negb colorMatch); [discriminate|].
  intros H. injection H as <-. cbn. repeat split.
  rewrite Rminus_diag, Rabs_R0. ring.
Qed.

Lemma potential_zone_circle_has_no_radius_witness :
  exists c,
    drawPotentialConflictZone
      (newRenderer (mkCanvas 800 400))
      (ConflictZonesData.mkPotential "taiwan-strait" (24.0, 120.5) 200) true
    = Some c /\ radiusPixels c = 0.
Proof.
  assert (H : exists c,
    drawPotentialConflictZone
      (newRenderer (mkCanvas 800 400))
      (ConflictZonesData.mkPotential "taiwan-strait" (24.0, 120.5) 200) true
    = Some c).
  { unfold drawPotentialConflictZone, newRenderer, toCanvas. cbn.
    repeat match goal with
           | |- context [?a <? ?b] =>
               rewrite (proj2 (Rltb_false a b)) by lra
           | |- context [?a >? ?b] =>
               rewrite (proj2 (Rgtb_false a b)) by lra
           end.
    cbn. eexists. reflexivity. }
  destruct H as [c H]. exists c. split; [exact H|].
  exact (proj1 (potential_zone_circle_has_no_radius _ _ _ _ H)).
Defined.

(** ** Simplification of the map data *)

Lemma mod_sub_step (step m : nat) :
  (step <= m)%nat -> (m mod step = (m - step) mod step)%nat.
Proof.
  intros H. replace m with ((m - step) + 1 * step)%nat at 1 by lia.
  apply Nat.Div0.mod_add.
Qed.

Lemma everyNth_subsequence (step skip : nat) (ring : Ring) :
  subsequence (WorldMapRenderer.everyNth step skip ring) ring.
Proof.
  revert skip. induction ring as [|p rest IH]; intros skip.
  - constructor.
  - cbn [WorldMapRenderer.everyNth]. destruct skip; constructor; apply IH.
Qed.

(** The loop keeps the last point exactly when its index is reached. *)
Lemma everyNth_last_kept (step skip : nat) (ring : Ring) (d : Position) :
  (1 <= step)%nat -> ring <> [] ->
  (skip <= List.length ring - 1)%nat ->
  ((List.length ring - 1 - skip) mod step = 0)%nat ->
  exists l, WorldMapRenderer.everyNth step skip ring = l ++ [last ring d].
Proof.
  intros Hstep. revert skip. induction ring as [|p rest IH];
    intros skip Hne Hskip Hmod; [contradiction|].
  assert (Hn : (List.length (p :: rest) - 1 = List.length rest)%nat)
    by (cbn [List.length]; lia).
  rewrite Hn in Hskip, Hmod. clear Hn.
  destruct rest as [|q rest'].
  - cbn in Hskip. assert (skip = 0)%nat by lia. subst skip.
    exists []. reflexivity.
  - change (last (p :: q :: rest') d) with (last (q :: rest') d).
    set (rest := q :: rest') in *.
    assert (Hlen : List.length rest = S (List.length rest')) by reflexivity.
    cbn [WorldMapRenderer.everyNth]. destruct skip as [|k].
    + rewrite Nat.sub_0_r in Hmod.
      assert (Hge : (step <= List.length rest)%nat).
      { destruct (Nat.lt_ge_cases (List.length rest) step) as [Hlt|]; [|lia].
        rewrite Nat.mod_small in Hmod by exact Hlt. lia. }
      destruct (IH (step - 1)%nat) as (l & Hl).
      * discriminate.
      * lia.
      * replace (List.length rest - 1 - (step - 1))%nat
          with (List.length rest - step)%nat by lia.
        rewrite <- mod_sub_step by exact Hge. exact Hmod.
      * exists (p :: l). rewrite Hl. reflexivity.
    + destruct (IH k) as (l & Hl).
      * discriminate.
      * lia.
      * replace (List.length rest - 1 - k)%nat
          with (List.length rest - S k)%nat by lia. exact Hmod.
      * exists l. exact Hl.
Qed.

(** Where the loop does not reach the last point, the last point can be
    added behind the points it keeps. *)
Lemma everyNth_last_added (step skip : nat) (ring : Ring) (d : Position) :
  (1 <= step)%nat -> ring <> [] ->
  ~ ((skip <= List.length ring - 1)%nat
     /\ ((List.length ring - 1 - skip) mod step = 0)%nat) ->
  subsequence (WorldMapRenderer.everyNth step skip ring ++ [last ring d]) ring.
Proof.
  intros Hstep. revert skip. induction ring as [|p rest IH];
    intros skip Hne Hnot; [contradiction|].
  assert (Hn : (List.length (p :: rest) - 1 = List.length rest)%nat)
    by (cbn [List.length]; lia).
  rewrite Hn in Hnot. clear Hn.
  destruct rest as [|q rest'].
  - destruct skip as [|k].
    + exfalso. apply Hnot. cbn. split; [lia|]. apply Nat.Div0.mod_0_l.
    + cbn. repeat constructor.
  - change (last (p :: q :: rest') d) with (last (q :: rest') d).
    set (rest := q :: rest') in *.
    assert (Hlen : List.length rest = S (List.length rest')) by reflexivity.
    cbn [WorldMapRenderer.everyNth]. destruct skip as [|k].
    + cbn [app]. apply subsequence_keep. apply IH; [discriminate|].
      intros [Hle Hmod]. apply Hnot. split; [lia|].
      rewrite Nat.sub_0_r.
      replace (List.length rest - 1 - (step - 1))%nat
        with (List.length rest - step)%nat in Hmod by lia.
      rewrite mod_sub_step by lia. exact Hmod.
    + apply subsequence_drop. apply IH; [discriminate|].
      intros [Hle Hmod]. apply Hnot. split; [lia|].
      replace (List.length rest - S k)%nat
        with (List.length rest - 1 - k)%nat by lia. exact Hmod.
Qed.

Lemma simplifyRing_simplifiedFrom (step : nat) (ring : Ring) :
  (1 <= step)%nat -> simplifiedFrom (WorldMapRenderer.simplifyRing step ring) ring.
Proof.
  intros Hstep. unfold simplifiedFrom, WorldMapRenderer.simplifyRing.
  destruct ring as [|p rest]; [repeat split; constructor|].
  set (ring := p :: rest).
  destruct ((List.length ring - 1) mod step =? 0)%nat eqn:Hk.
  - apply Nat.eqb_eq in Hk. split; [|split].
    + reflexivity.
    + destruct (everyNth_last_kept step 0 ring (0, 0) Hstep) as (l & Hl).
      * discriminate.
      * lia.
      * rewrite Nat.sub_0_r. exact Hk.
      * rewrite Hl. apply last_last.
    + apply everyNth_subsequence.
  - apply Nat.eqb_neq in Hk. split; [|split].
    + reflexivity.
    + apply last_last.
    + apply everyNth_last_added; [exact Hstep|discriminate|].
      intros [_ Hmod]. rewrite Nat.sub_0_r in Hmod. contradiction.
Qed.

Lemma step_positive (simplificationFactor : R) :
  0 < simplificationFactor ->
  (0 < Zceil (1 / simplificationFactor))%Z.
Proof.
  intros Hf. apply lt_IZR.
  pose proof (Zceil_bound (1 / simplificationFactor)) as [_ Hb].
  assert (0 < 1 / simplificationFactor) by (apply Rdiv_lt_0_compat; lra).
  lra.
Qed.

Lemma simplifyPolygon_simplified (simplificationFactor : R)
  (coordinates : list Ring) :
  0 < simplificationFactor ->
  exists coordinates',
    WorldMapRenderer.simplifyPolygon simplificationFactor coordinates
    = Some coordinates'
    /\ Forall2 simplifiedFrom coordinates' coordinates.
Proof.
  intros Hf. unfold WorldMapRenderer.simplifyPolygon.
  pose proof (step_positive simplificationFactor Hf) as Hs.
  rewrite (proj2 (Z.ltb_lt _ _) Hs). eexists. split; [reflexivity|].
  induction coordinates as [|ring rest IH]; constructor; [|exact IH].
  apply simplifyRing_simplifiedFrom. lia.
Qed.

Lemma simplifyPolygons_simplified (simplificationFactor : R)
  (polygons : list (list Ring)) :
  0 < simplificationFactor ->
  exists polygons',
    WorldMapRenderer.simplifyPolygons simplificationFactor polygons
    = Some polygons'
    /\ Forall2 (Forall2 simplifiedFrom) polygons' polygons.
Proof.
  intros Hf. induction polygons as [|poly rest IH].
  - exists []. split; [reflexivity|constructor].
  - destruct (simplifyPolygon_simplified simplificationFactor poly Hf)
      as (poly' & Hp & Hp').
    destruct IH as (rest' & Hr & Hr').
    exists (poly' :: rest'). cbn [WorldMapRenderer.simplifyPolygons].
    rewrite Hp, Hr. split; [reflexivity|constructor; assumption].
Qed.

Lemma default_step : Zceil (1 / 0.5) = 2%Z.
Proof. apply Zceil_eq. lra. Qed.

Lemma everyNth_2_length (ring : Ring) :
  List.length (WorldMapRenderer.everyNth 2 0 ring)
  = ((List.length ring + 1) / 2)%nat
  /\ List.length (WorldMapRenderer.everyNth 2 1 ring)
     = (List.length ring / 2)%nat.
Proof.
  induction ring as [|p rest [IH0 IH1]]; [split; reflexivity|].
  cbn [WorldMapRenderer.everyNth List.length Nat.sub]. split.
  - rewrite IH1.
    replace (S (List.length rest) + 1)%nat
      with (List.length rest + 1 * 2)%nat by lia.
    rewrite Nat.div_add by lia. lia.
  - rewrite IH0. replace (S (List.length rest)) with (List.length rest + 1)%nat
      by lia. reflexivity.
Qed.

(** X25.  Simplifying the map data keeps every polygon and every ring,
    drops the features of any other type, and keeps of every ring its first
    point, its last point and, in between, some of its points in their order,
    for every positive simplification factor.  With the factor 0.5 of the
    renderer every second point is kept: a ring of [n >= 1] points keeps
    [n / 2 + 1]. *)
Theorem simplification_keeps_ring_ends (simplificationFactor : R)
  (features : list Geometry) :
  0 < simplificationFactor ->
  (exists simplified,
     WorldMapRenderer.simplifyGeoJSON simplificationFactor features
     = Some simplified
     /\ Forall2 simplifiedGeometry simplified (filter isPolygonal features)) /\
  (forall coordinates,
     WorldMapRenderer.simplifyPolygon 0.5 coordinates
     = Some (map (WorldMapRenderer.simplifyRing 2) coordinates)) /\
  (forall ring, ring <> [] ->
     List.length (WorldMapRenderer.simplifyRing 2 ring)
     = (List.length ring / 2 + 1)%nat).
Proof.
  intros Hf. split; [|split].
  - induction features as [|g rest (rest' & Hr & Hr')].
    + exists []. split; [reflexivity|constructor].
    + cbn [WorldMapRenderer.simplifyGeoJSON filter].
      destruct g as [coordinates|polygons|]; cbn [isPolygonal].
      * destruct (simplifyPolygon_simplified simplificationFactor coordinates Hf)
          as (c' & Hc & Hc').
        rewrite Hc, Hr. eexists. split; [reflexivity|].
        constructor; [constructor; exact Hc'|exact Hr'].
      * destruct (simplifyPolygons_simplified simplificationFactor polygons Hf)
          as (p' & Hp & Hp').
        rewrite Hp, Hr. eexists. split; [reflexivity|].
        constructor; [constructor; exact Hp'|exact Hr'].
      * exists rest'. split; assumption.
  - intros coordinates. unfold WorldMapRenderer.simplifyPolygon.
    rewrite default_step. reflexivity.
  - intros ring Hne. unfold WorldMapRenderer.simplifyRing.
    destruct ring as [|p rest]; [contradiction|].
    set (r := p :: rest).
    destruct (everyNth_2_length r) as [H0 _].
    assert (Hlen : List.length r = S (List.length rest)) by reflexivity.
    destruct ((List.length r - 1) mod 2 =? 0)%nat eqn:Hk.
    + apply Nat.eqb_eq in Hk. rewrite H0.
      assert (Hd := Nat.div_mod_eq (List.length r - 1) 2).
      assert (Hd1 := Nat.div_mod_eq (List.length r + 1) 2).
      assert (Hd2 := Nat.div_mod_eq (List.length r) 2).
      assert (Hm1 := Nat.mod_upper_bound (List.length r + 1) 2).
      assert (Hm2 := Nat.mod_upper_bound (List.length r) 2). lia.
    + apply Nat.eqb_neq in Hk. rewrite length_app, H0. cbn [List.length].
      assert (Hd := Nat.div_mod_eq (List.length r - 1) 2).
      assert (Hm := Nat.mod_upper_bound (List.length r - 1) 2).
      assert (Hd1 := Nat.div_mod_eq (List.length r + 1) 2).
      assert (Hd2 := Nat.div_mod_eq (List.length r) 2).
      assert (Hm1 := Nat.mod_upper_bound (List.length r + 1) 2).
      assert (Hm2 := Nat.mod_upper_bound (List.length r) 2). lia.
Qed.

Lemma simplification_keeps_ring_ends_witness :
  WorldMapRenderer.simplifyPolygon 0.5 [square]
  = Some (map (WorldMapRenderer.simplifyRing 2) [square]).
Proof.
  refine (proj1 (proj2 (simplification_keeps_ring_ends 0.5 [] _)) [square]).
  lra.
Defined.

(** ** Wrapped text *)

Lemma append_assoc (a b c : string) :
  ((a ++ b) ++ c = a ++ (b ++ c))%string.
Proof. induction a as [|ch a IH]; cbn; [reflexivity|]. rewrite IH. reflexivity. Qed.

Lemma append_empty_r (a : string) : (a ++ "" = a)%string.
Proof. induction a as [|ch a IH]; cbn; [reflexivity|]. rewrite IH. reflexivity. Qed.

Lemma splitSpace_nonempty (text : string) : splitSpace text <> [].
Proof.
  destruct text as [|c rest]; cbn [splitSpace]; [discriminate|].
  destruct (Ascii.eqb c space); [discriminate|].
  destruct (splitSpace rest); discriminate.
Qed.

(** The words of a text, each followed by a space, make up the text followed
    by a space. *)
Lemma splitSpace_join (text : string) :
  fold_right String.append ""%string
             (map (fun word => (word ++ " ")%string) (splitSpace text))
  = (text ++ " ")%string.
Proof.
  induction text as [|c rest IH]; [reflexivity|].
  cbn [splitSpace]. destruct (Ascii.eqb c space) eqn:Hc.
  - apply Ascii.eqb_eq in Hc. subst c. cbn [map fold_right].
    rewrite IH. reflexivity.
  - destruct (splitSpace rest) as [|word words] eqn:Hs.
    + exfalso. exact (splitSpace_nonempty rest Hs).
    + cbn [map fold_right] in *. cbn [String.append]. rewrite IH.
      reflexivity.
Qed.

Lemma wrapLoop_join (measureText : string -> R) (x maxWidth lineHeight : R)
  (i : nat) (words : list string) (l : string) (y : R) :
  joinLines (wrapLoop measureText x maxWidth lineHeight i words l y)
  = (l ++ fold_right String.append ""
            (map (fun word => word ++ " ") words))%string.
Proof.
  revert i l y. induction words as [|word rest IH]; intros i l y.
  - cbn. reflexivity.
  - cbn [wrapLoop map fold_right].
    destruct ((measureText (l ++ word ++ " ")%string >? maxWidth) && (0 <? i)%nat).
    + unfold joinLines in *. cbn [map fold_right line]. rewrite IH.
      reflexivity.
    + rewrite IH. rewrite !append_assoc. reflexivity.
Qed.

Lemma wrapLoop_positions (measureText : string -> R) (x maxWidth lineHeight : R)
  (i : nat) (words : list string) (l : string) (y : R) (k : nat)
  (call : FillText) :
  nth_error (wrapLoop measureText x maxWidth lineHeight i words l y) k
  = Some call ->
  atX call = x /\ atY call = y + INR k * lineHeight.
Proof.
  revert i l y k. induction words as [|word rest IH]; intros i l y k H.
  - destruct k as [|k]; cbn in H.
    + injection H as <-. cbn. split; [reflexivity|lra].
    + destruct k; discriminate.
  - cbn [wrapLoop] in H.
    destruct ((measureText (l ++ word ++ " ")%string >? maxWidth) && (0 <? i)%nat).
    + destruct k as [|k].
      * cbn in H. injection H as <-. cbn. split; [reflexivity|lra].
      * cbn [nth_error] in H. apply IH in H. destruct H as [Hx Hy].
        split; [exact Hx|]. rewrite Hy, S_INR. lra.
    + apply IH in H. exact H.
Qed.

Lemma wrapLoop_fits (measureText : string -> R) (x maxWidth lineHeight : R)
  (all : list string) (i : nat) (words : list string) (l : string) (y : R) :
  incl words all ->
  (i = 0%nat -> l = ""%string /\ words <> []) ->
  (i <> 0%nat ->
   measureText l <= maxWidth
   \/ exists word, In word all /\ l = (word ++ " ")%string) ->
  Forall (fun call =>
            measureText (line call) <= maxWidth
            \/ exists word, In word all /\ line call = (word ++ " ")%string)
         (wrapLoop measureText x maxWidth lineHeight i words l y).
Proof.
  revert i l y. induction words as [|word rest IH]; intros i l y Hin H0 Hi.
  - cbn [wrapLoop]. constructor; [|constructor]. cbn [line].
    destruct i as [|i]; [destruct (H0 eq_refl) as [_ Hne]; contradiction|].
    apply Hi. discriminate.
  - assert (Hword : In word all) by (apply Hin; left; reflexivity).
    assert (Hrest : incl rest all) by (intros w Hw; apply Hin; right; exact Hw).
    cbn [wrapLoop].
    destruct (measureText (l ++ word ++ " ")%string >? maxWidth) eqn:Hm;
      [destruct (0 <? i)%nat eqn:Hpos|]; cbn [andb].
    + apply Nat.ltb_lt in Hpos. constructor.
      * cbn [line]. apply Hi. lia.
      * apply IH; [exact Hrest|discriminate|].
        intros _. right. exists word. auto.
    + apply Nat.ltb_ge in Hpos. assert (i = 0)%nat by lia. subst i.
      destruct (H0 eq_refl) as [-> _].
      apply IH; [exact Hrest|discriminate|].
      intros _. right. exists word. auto.
    + apply Rgtb_false in Hm.
      apply IH; [exact Hrest|discriminate|].
      intros _. left. exact Hm.
Qed.

Lemma wrapLoop_length (measureText : string -> R) (x maxWidth lineHeight : R)
  (i : nat) (words : list string) (l : string) (y : R) :
  (1 <= List.length (wrapLoop measureText x maxWidth lineHeight i words l y)
   <= 1 + List.length words)%nat.
Proof.
  revert i l y. induction words as [|word rest IH]; intros i l y.
  - cbn. lia.
  - cbn [wrapLoop].
    destruct ((measureText (l ++ word ++ " ")%string >? maxWidth) && (0 <? i)%nat).
    + specialize (IH (S i) (word ++ " ")%string (y + lineHeight)).
      cbn [List.length]. lia.
    + specialize (IH (S i) (l ++ word ++ " ")%string y).
      cbn [List.length]. lia.
Qed.

(** X26.  Wrapping a text draws every word of it once and in order, each
    followed by a space: the lines drawn, one after the other, are the text
    followed by a space.  The lines are drawn at the same abscissa, one line
    height apart from the given ordinate on; each line fits the maximal
    width or is a single word; and there is at least one line and at most
    one for each word. *)
Theorem wrapped_text_is_the_text (measureText : string -> R) (text : string)
  (x y maxWidth lineHeight : R) :
  let calls := wrapText measureText text x y maxWidth lineHeight in
  joinLines calls = (text ++ " ")%string /\
  (forall k call, nth_error calls k = Some call ->
     atX call = x /\ atY call = y + INR k * lineHeight) /\
  Forall (fun call =>
            measureText (line call) <= maxWidth
            \/ exists word, In word (splitSpace text)
                            /\ line call = (word ++ " ")%string) calls /\
  (1 <= List.length calls <= List.length (splitSpace text))%nat.
Proof.
  intros calls. unfold calls, wrapText. split; [|split; [|split]].
  - rewrite wrapLoop_join. cbn [String.append]. apply splitSpace_join.
  - intros k call. apply wrapLoop_positions.
  - apply wrapLoop_fits.
    + intros w Hw. exact Hw.
    + intros _. split; [reflexivity|apply splitSpace_nonempty].
    + intros H. contradiction.
  - destruct (splitSpace text) as [|word rest] eqn:Hs.
    + exfalso. exact (splitSpace_nonempty text Hs).
    + cbn [wrapLoop Nat.ltb Nat.leb]. rewrite andb_false_r.
      pose proof (wrapLoop_length measureText x maxWidth lineHeight 1 rest
                    ("" ++ word ++ " ")%string y).
      cbn [List.length]. lia.
Qed.

(** ** The great-circle distance *)

(** Along a meridian the formula gives the difference of the latitudes, in
    radians, times the radius. *)
Lemma haversine_meridian (lat1 lat2 lon : R) :
  -90 <= lat1 <= 90 -> -90 <= lat2 <= 90 ->
  ConflictZonesData.haversineDistance lat1 lon lat2 lon
  = Some (6371 * (Rabs (lat2 - lat1) * PI / 180)).
Proof.
  intros H1 H2. pose proof PI_RGT_0 as Hpi.
  unfold ConflictZonesData.haversineDistance.
  replace ((lon - lon) * PI / 180 / 2) with 0 by field. rewrite sin_0.
  set (h := (lat2 - lat1) * PI / 180 / 2).
  set (u := Rabs h).
  assert (Hu : 0 <= u <= PI / 2).
  { unfold u, h. split; [apply Rabs_pos|]. apply Rabs_le. nra. }
  assert (Hs : sin h * sin h = sin u * sin u).
  { unfold u, Rabs. destruct (Rcase_abs h); [rewrite sin_neg; ring|reflexivity]. }
  replace (sin h * sin h + cos (lat1 * PI / 180) * cos (lat2 * PI / 180) * 0 * 0)
    with (sin u * sin u) by (rewrite Hs; ring).
  assert (Hsu : 0 <= sin u) by (apply sin_ge_0; lra).
  assert (Hcu : 0 <= cos u) by (apply cos_ge_0; lra).
  pose proof (sin2_cos2 u) as S. unfold Rsqr in S.
  replace (1 - sin u * sin u) with (cos u * cos u) by lra.
  rewrite (proj2 (Rltb_false (sin u * sin u) 0)) by nra.
  rewrite (proj2 (Rltb_false (cos u * cos u) 0)) by nra. cbn [orb].
  rewrite !sqrt_square by assumption.
  assert (Hat : atan2 (sin u) (cos u) = u).
  { unfold atan2. destruct (Rlt_dec 0 (cos u)) as [Hpos|Hzero].
    - rewrite (proj2 (Rltb_true 0 (cos u))) by exact Hpos.
      assert (Hlt : u < PI / 2).
      { destruct (Rle_lt_or_eq_dec _ _ (proj2 Hu)) as [Hlt|Heq]; [exact Hlt|].
        rewrite Heq, cos_PI2 in Hpos. lra. }
      change (sin u / cos u) with (tan u). apply atan_tan. lra.
    - assert (Hc0 : cos u = 0) by lra.
      rewrite (proj2 (Rltb_false 0 (cos u))) by lra.
      rewrite (proj2 (Rltb_false (cos u) 0)) by lra.
      assert (Hs1 : sin u = 1) by nra.
      rewrite (proj2 (Rltb_true 0 (sin u))) by lra.
      destruct (Rle_lt_or_eq_dec _ _ (proj2 Hu)) as [Hlt|Heq]; [|lra].
      pose proof (cos_gt_0 u). lra. }
  rewrite Hat. f_equal. unfold u, h.
  replace ((lat2 - lat1) * PI / 180 / 2) with ((lat2 - lat1) * (PI / 360))
    by field.
  rewrite Rabs_mult, (Rabs_pos_eq (PI / 360)) by lra. field.
Qed.

(** ** The conflict zone at a position *)

Lemma territoryLoop_some (lat lon : R) (conflict : ConflictZonesData.Conflict)
  (territories : list ConflictZonesData.Territory)
  (found : ConflictZonesData.ZoneAtPoint) :
  ConflictZonesData.territoryLoop lat lon conflict territories = Some found ->
  exists territory,
    found = ConflictZonesData.active conflict territory /\
    In territory territories /\
    ConflictZonesData.isPointInPolygon
      lat lon (ConflictZonesData.coordinates territory) = true.
Proof.
  induction territories as [|t rest IH]; [discriminate|].
  cbn [ConflictZonesData.territoryLoop].
  destruct (ConflictZonesData.isPointInPolygon lat lon _) eqn:Hin.
  - intros H. injection H as <-. exists t. cbn. auto.
  - intros H. destruct (IH H) as (t' & Hf & Ht & Hc). exists t'. cbn. auto.
Qed.

Lemma territoryLoop_none (lat lon : R) (conflict : ConflictZonesData.Conflict)
  (territories : list ConflictZonesData.Territory) :
  ConflictZonesData.territoryLoop lat lon conflict territories = None ->
  forall territory, In territory territories ->
    ConflictZonesData.isPointInPolygon
      lat lon (ConflictZonesData.coordinates territory) = false.
Proof.
  induction territories as [|t rest IH]; [intros _ t []|].
  cbn [ConflictZonesData.territoryLoop].
  destruct (ConflictZonesData.isPointInPolygon lat lon _) eqn:Hin;
    [discriminate|].
  intros H t' [<-|Ht']; [exact Hin|]. apply IH; assumption.
Qed.

Lemma activeLoop_some (lat lon : R)
  (activeConflicts : list ConflictZonesData.Conflict)
  (found : ConflictZonesData.ZoneAtPoint) :
  ConflictZonesData.activeLoop lat lon activeConflicts = Some found ->
  exists conflict territories territory,
    found = ConflictZonesData.active conflict territory /\
    In conflict activeConflicts /\
    ConflictZonesData.occupiedTerritories conflict = Some territories /\
    In territory territories /\
    ConflictZonesData.isPointInPolygon
      lat lon (ConflictZonesData.coordinates territory) = true.
Proof.
  induction activeConflicts as [|c rest IH]; [discriminate|].
  cbn [ConflictZonesData.activeLoop].
  destruct (ConflictZonesData.occupiedTerritories c) as [ts|] eqn:Hts.
  - destruct (ConflictZonesData.territoryLoop lat lon c ts) as [z|] eqn:Hl.
    + intros H. injection H as <-.
      destruct (territoryLoop_some _ _ _ _ _ Hl) as (t & Hf & Ht & Hc).
      exists c, ts, t. cbn. auto.
    + intros H. destruct (IH H) as (c' & ts' & t & Hf & Hc' & Hts' & Ht & Hc).
      exists c', ts', t. cbn. auto.
  - intros H. destruct (IH H) as (c' & ts' & t & Hf & Hc' & Hts' & Ht & Hc).
    exists c', ts', t. cbn. auto.
Qed.

Lemma activeLoop_none (lat lon : R)
  (activeConflicts : list ConflictZonesData.Conflict) :
  ConflictZonesData.activeLoop lat lon activeConflicts = None ->
  ~ insideActive activeConflicts lat lon.
Proof.
  induction activeConflicts as [|c rest IH].
  - intros _ (c & ts & t & [] & _).
  - cbn [ConflictZonesData.activeLoop]. intros H (c' & ts & t & Hc' & Hts & Ht & Hin).
    destruct Hc' as [<-|Hc'].
    + rewrite Hts in H.
      destruct (ConflictZonesData.territoryLoop lat lon c ts) eqn:Hl;
        [discriminate|].
      rewrite (territoryLoop_none _ _ _ _ Hl t Ht) in Hin. discriminate.
    + apply IH.
      * destruct (ConflictZonesData.occupiedTerritories c) as [ts'|];
          [destruct (ConflictZonesData.territoryLoop lat lon c ts')|];
          [discriminate|exact H|exact H].
      * exists c', ts, t. auto.
Qed.

Lemma potentialLoop_some (lat lon : R)
  (potentialConflicts : list ConflictZonesData.Potential)
  (found : ConflictZonesData.ZoneAtPoint) :
  ConflictZonesData.potentialLoop lat lon potentialConflicts = Some found ->
  exists p d,
    found = ConflictZonesData.potential p d /\
    In p potentialConflicts /\
    ConflictZonesData.haversineDistance
      lat lon (fst (ConflictZonesData.center p))
      (snd (ConflictZonesData.center p)) = Some d /\
    d <= ConflictZonesData.radius p.
Proof.
  induction potentialConflicts as [|p rest IH]; [discriminate|].
  cbn [ConflictZonesData.potentialLoop].
  destruct (ConflictZonesData.haversineDistance _ _ _ _) as [d|] eqn:Hd.
  - destruct (d <=? ConflictZonesData.radius p) eqn:Hr.
    + intros H. injection H as <-. exists p, d. apply Rleb_true in Hr.
      cbn. auto.
    + intros H. destruct (IH H) as (p' & d' & Hf & Hp & Hd' & Hr').
      exists p', d'. cbn. auto.
  - intros H. destruct (IH H) as (p' & d' & Hf & Hp & Hd' & Hr').
    exists p', d'. cbn. auto.
Qed.

Lemma potentialLoop_none (lat lon : R)
  (potentialConflicts : list ConflictZonesData.Potential) :
  ConflictZonesData.potentialLoop lat lon potentialConflicts = None ->
  forall p d, In p potentialConflicts ->
    ConflictZonesData.haversineDistance
      lat lon (fst (ConflictZonesData.center p))
      (snd (ConflictZonesData.center p)) = Some d ->
    ConflictZonesData.radius p < d.
Proof.
  induction potentialConflicts as [|p rest IH]; [intros _ p d []|].
  cbn [ConflictZonesData.potentialLoop]. intros H p' d' [<-|Hp'] Hd'.
  - rewrite Hd' in H.
    destruct (d' <=? ConflictZonesData.radius p) eqn:Hr; [discriminate|].
    apply Rleb_false in Hr. exact Hr.
  - apply IH; [|exact Hp'|exact Hd'].
    destruct (ConflictZonesData.haversineDistance _ _ _ _) as [d|];
      [destruct (d <=? ConflictZonesData.radius p)|];
      [discriminate|exact H|exact H].
Qed.

(** X28.  The query for the conflict zone at a position answers with an
    occupied territory exactly when a territory of an active conflict
    contains the position, and then with one that does; it answers with a
    potential conflict only outside all of them, and then with one whose
    centre is at most its radius away, at the distance it reports.  At the
    centre of a potential conflict the answer is never [null]. *)
Theorem conflict_zone_at_point
  (activeConflicts : list ConflictZonesData.Conflict)
  (potentialConflicts : list ConflictZonesData.Potential) (lat lon : R) :
  let found :=
    ConflictZonesData.getConflictZoneAtPoint
      activeConflicts potentialConflicts lat lon in
  ((exists conflict territory,
      found = Some (ConflictZonesData.active conflict territory))
   <-> insideActive activeConflicts lat lon) /\
  (forall conflict territory,
     found = Some (ConflictZonesData.active conflict territory) ->
     In conflict activeConflicts /\
     (exists territories,
        ConflictZonesData.occupiedTerritories conflict = Some territories
        /\ In territory territories) /\
     ConflictZonesData.isPointInPolygon
       lat lon (ConflictZonesData.coordinates territory) = true) /\
  (forall p d,
     found = Some (ConflictZonesData.potential p d) ->
     ~ insideActive activeConflicts lat lon /\
     In p potentialConflicts /\
     ConflictZonesData.haversineDistance
       lat lon (fst (ConflictZonesData.center p))
       (snd (ConflictZonesData.center p)) = Some d /\
     d <= ConflictZonesData.radius p) /\
  (forall p,
     In p potentialConflicts -> 0 <= ConflictZonesData.radius p ->
     ConflictZonesData.center p = (lat, lon) -> -90 <= lat <= 90 ->
     found <> None).
Proof.
  intros found. unfold found, ConflictZonesData.getConflictZoneAtPoint.
  destruct (ConflictZonesData.activeLoop lat lon activeConflicts) as [z|] eqn:Ha.
  - destruct (activeLoop_some _ _ _ _ Ha) as (c & ts & t & -> & Hc & Hts & Ht & Hin).
    split; [|split; [|split]].
    + split; [intros _; exists c, ts, t; auto|intros _; exists c, t; reflexivity].
    + intros c' t' H. injection H as <- <-. split; [exact Hc|].
      split; [exists ts; auto|exact Hin].
    + intros p d H. discriminate.
    + intros p _ _ _ _. discriminate.
  - pose proof (activeLoop_none _ _ _ Ha) as Hout.
    split; [|split; [|split]].
    + split; [|intros H; contradiction].
      intros (c & t & H). apply potentialLoop_some in H.
      destruct H as (p & d & H & _). discriminate.
    + intros c t H. apply potentialLoop_some in H.
      destruct H as (p & d & H & _). discriminate.
    + intros p d H. apply potentialLoop_some in H.
      destruct H as (p' & d' & H & Hp & Hd & Hr). injection H as <- <-. auto.
    + intros p Hp Hr Hcenter Hlat Hnone.
      pose proof (potentialLoop_none _ _ _ Hnone p 0 Hp) as Hfar.
      rewrite Hcenter in Hfar. cbn [fst snd] in Hfar.
      assert (H0 : ConflictZonesData.haversineDistance lat lon lat lon = Some 0).
      { rewrite haversine_meridian by assumption.
        replace (lat - lat) with 0 by ring. rewrite Rabs_R0. f_equal. field. }
      specialize (Hfar H0). lra.
Qed.

Lemma conflict_zone_at_point_witness :
  ConflictZonesData.getConflictZoneAtPoint
    [] [ConflictZonesData.mkPotential "taiwan-strait" (24.0, 120.5) 200]
    24.0 120.5
  <> None.
Proof.
  refine (proj2 (proj2 (proj2 (conflict_zone_at_point
            [] [ConflictZonesData.mkPotential "taiwan-strait" (24.0, 120.5) 200]
            24.0 120.5)))
          (ConflictZonesData.mkPotential "taiwan-strait" (24.0, 120.5) 200)
          _ _ _ _).
  - left. reflexivity.
  - cbn. lra.
  - reflexivity.
  - lra.
Defined.

(** ** The symbol of an aircraft *)

Lemma cos_2_4_negative : cos 2.4 < 0.
Proof.
  pose proof PI_4 as H4. pose proof PI2_1 as H1.
  apply cos_lt_0; lra.
Qed.

(** X29.  The symbol of an aircraft points along its compass heading: the
    nose lies one marker size from the place of the aircraft, straight up for
    heading 0 and to the right for heading 90; the tail lies a fifth of that
    behind the place, opposite the nose; the middle of the two wing tips lies
    on the same axis, behind the place; the leader line doubles the nose
    distance and more; and the marker size is at least 12. *)
Theorem aircraft_symbol_points_along_heading (this : Renderer) (ac : Aircraft)
  (dart : Dart) :
  aircraftDart this ac = Some dart ->
  let p := toCanvas this (acLat ac) (acLon ac) in
  let H := match heading ac with Some h => h | None => 0 end * PI / 180 in
  let ux := sin H in
  let uy := - cos H in
  12 <= size dart /\
  x (nose dart) = x p + size dart * ux /\
  y (nose dart) = y p + size dart * uy /\
  x (tail dart) = x p - 0.2 * size dart * ux /\
  y (tail dart) = y p - 0.2 * size dart * uy /\
  (x (leftWing dart) + x (rightWing dart)) / 2
  = x p + cos 2.4 * 0.6 * size dart * ux /\
  (y (leftWing dart) + y (rightWing dart)) / 2
  = y p + cos 2.4 * 0.6 * size dart * uy /\
  cos 2.4 < 0 /\
  x (leaderEnd dart) = x p + 2.2 * size dart * ux /\
  y (leaderEnd dart) = y p + 2.2 * size dart * uy.
Proof.
  intros E p H ux uy. unfold aircraftDart in E. cbv zeta in E.
  change (toCanvas this (acLat ac) (acLon ac)) with p in E.
  change (match heading ac with Some h => h | None => 0 end * PI / 180)
    with H in E.
  clearbody p.
  set (m := Rmax 12 _) in E.
  assert (Hm : 12 <= m) by apply Rmax_l.
  clearbody m.
  assert (Hc : cos (H - PI / 2) = ux).
  { rewrite cos_minus, cos_PI2, sin_PI2. unfold ux. ring. }
  assert (Hs : sin (H - PI / 2) = uy).
  { rewrite sin_minus, cos_PI2, sin_PI2. unfold uy. ring. }
  rewrite !cos_plus, !sin_plus in E.
  rewrite (cos_minus (H - PI / 2) 2.4), (sin_minus (H - PI / 2) 2.4) in E.
  rewrite cos_PI, sin_PI in E.
  rewrite !Hc, !Hs in E.
  pose proof cos_2_4_negative as Hneg.
  set (c24 := cos 2.4) in *. set (s24 := sin 2.4) in *.
  clearbody ux uy c24 s24. clear Hc Hs H.
  destruct (_ || _ || _ || _) in E; [discriminate|].
  injection E as <-. cbn [size nose tail leftWing rightWing leaderEnd x y].
  repeat split; try assumption; try lra.
Qed.

Lemma aircraft_symbol_points_along_heading_witness :
  exists dart,
    aircraftDart (newRenderer (mkCanvas 800 400))
                 (mkAircraft 0 0 (Some 90) true false false) = Some dart
    /\ 12 <= size dart.
Proof.
  assert (H : exists dart,
    aircraftDart (newRenderer (mkCanvas 800 400))
                 (mkAircraft 0 0 (Some 90) true false false) = Some dart).
  { unfold aircraftDart, newRenderer, toCanvas. cbn.
    repeat match goal with
           | |- context [?a <? ?b] =>
               rewrite (proj2 (Rltb_false a b)) by lra
           | |- context [?a >? ?b] =>
               rewrite (proj2 (Rgtb_false a b)) by lra
           end.
    cbn. eexists. reflexivity. }
  destruct H as [dart H]. exists dart. split; [exact H|].
  exact (proj1 (aircraft_symbol_points_along_heading _ _ _ H)).
Defined.

(** ** The two renderers *)

Lemma fills_app (a b : list DrawCmd) : fills (a ++ b) = (fills a + fills b)%nat.
Proof. unfold fills. rewrite filter_app, length_app. reflexivity. Qed.

Lemma ringPath_fills (this : Renderer) (prev : option Position) (ring : Ring) :
  fills (ringPath this prev ring) = 0%nat.
Proof.
  revert prev. induction ring as [|[lon lat] rest IH]; intros prev;
    [reflexivity|].
  cbn [ringPath]. change (?c :: ?l) with ([c] ++ l). rewrite fills_app, IH.
  destruct prev; reflexivity.
Qed.

Lemma drawPolygon_fills (this : Renderer) (coordinates : list Ring) :
  fills (drawPolygon this coordinates)
  = List.length (filter (fun ring => (3 <=? List.length ring)%nat) coordinates).
Proof.
  induction coordinates as [|ring rest IH]; [reflexivity|].
  unfold drawPolygon in *. cbn [flat_map filter]. rewrite fills_app, IH.
  unfold drawRing. destruct (Nat.ltb_spec (List.length ring) 3) as [Hlt|Hge].
  - rewrite (proj2 (Nat.leb_gt 3 (List.length ring))) by lia. reflexivity.
  - rewrite (proj2 (Nat.leb_le 3 (List.length ring))) by lia.
    rewrite !fills_app, ringPath_fills. reflexivity.
Qed.

Lemma ringPath_callNames (this : Renderer) (c : Canvas)
  (prev : option Position) (ring : Ring) :
  map callName (ringPath this prev ring)
  = map callName
      (WorldMapRenderer.ringPath c
         (match prev with Some _ => false | None => true end) ring).
Proof.
  revert prev. induction ring as [|[lon lat] rest IH]; intros prev.
  - reflexivity.
  - cbn [ringPath WorldMapRenderer.ringPath map].
    rewrite (IH (Some (lon, lat))). destruct prev; reflexivity.
Qed.

Lemma drawPolygon_callNames (this : Renderer) (c : Canvas)
  (coordinates : list Ring) :
  map callName (drawPolygon this coordinates)
  = map callName (WorldMapRenderer.drawPolygon c coordinates).
Proof.
  induction coordinates as [|ring rest IH]; [reflexivity|].
  unfold drawPolygon, WorldMapRenderer.drawPolygon in *. cbn [flat_map].
  rewrite !map_app, IH. f_equal.
  unfold drawRing, WorldMapRenderer.drawRing.
  destruct (List.length ring <? 3)%nat; [reflexivity|].
  rewrite !map_app, (ringPath_callNames this c None ring). reflexivity.
Qed.

(** X30.  In every view a feature is drawn ring by ring: every ring of at
    least three points, outer ring or hole, is a filled path of its own, and
    shorter rings are skipped.  The zooming renderer and [WorldMapRenderer]
    call the same context methods in the same order for a feature; only the
    coordinates they pass differ. *)
Theorem feature_drawn_ring_by_ring (this : Renderer) (c : Canvas)
  (feature : Feature) :
  fills (drawFeature this feature)
  = List.length (filter (fun ring => (3 <=? List.length ring)%nat)
                        (geometryRings (geometry feature))) /\
  map callName (drawFeature this feature)
  = map callName (WorldMapRenderer.drawMapFeature c (geometry feature)).
Proof.
  unfold drawFeature, WorldMapRenderer.drawMapFeature, geometryRings.
  destruct (geometry feature) as [coordinates|polygons|].
  - split; [apply drawPolygon_fills|apply drawPolygon_callNames].
  - split.
    + induction polygons as [|polygon rest IH]; [reflexivity|].
      cbn [flat_map List.concat]. rewrite fills_app, filter_app, length_app.
      rewrite drawPolygon_fills, IH. reflexivity.
    + induction polygons as [|polygon rest IH]; [reflexivity|].
      cbn [flat_map]. rewrite !map_app, IH, (drawPolygon_callNames this c).
      reflexivity.
  - split; reflexivity.
Qed.
